(** * docs/generatemd4.py: the page generator of the iNUX handbook

    A shallow embedding of the generator: Python [str] values are lists of
    Unicode code points, the two regular expressions of the module are
    values of a small pattern type run by a backtracking matcher in the
    order Python's [re] tries things, dictionaries are finite maps, and the
    file system is a finite map from paths to file contents. *)

From Stdlib Require Import ZArith NArith List String Ascii Bool Lia.
From Stdlib Require Import DecimalString.
From stdpp Require Import base option list gmap.

Open Scope N_scope.
Open Scope list_scope.

(** ** Python strings *)

(** A [str] is a sequence of code points. *)
Abbreviation pystr := (list N).

(** An ASCII literal of the source as a [str]. *)
Definition u (s : string) : pystr := map N_of_ascii (list_ascii_of_string s).

(** The part of the Unicode character database that is looked up for code
    points outside ASCII and is too large to write out: which of them are
    alphanumeric ([str.isalnum], behind [\w] and [\b]) and which are decimal
    digits ([float] accepts them).  Every result below holds whatever the
    tables are. *)
Class UnicodeData := {
  uni_isalnum : N -> bool;
  uni_decimal : N -> option N
}.

(** The tables with nothing outside ASCII, for evaluating on ASCII inputs. *)
Definition ascii_tables : UnicodeData :=
  {| uni_isalnum := fun _ => false; uni_decimal := fun _ => None |}.

(** [str.isspace] of one code point, which is also the class [\s] of [re]
    for [str] patterns. *)
Definition isspace (c : N) : bool :=
  ((9 <=? c) && (c <=? 13)) || ((28 <=? c) && (c <=? 32))
  || (c =? 0x85) || (c =? 0xA0) || (c =? 0x1680)
  || ((0x2000 <=? c) && (c <=? 0x200A))
  || (c =? 0x2028) || (c =? 0x2029) || (c =? 0x202F) || (c =? 0x205F)
  || (c =? 0x3000).

Definition is_upper_ascii (c : N) : bool := (65 <=? c) && (c <=? 90).
Definition is_lower_ascii (c : N) : bool := (97 <=? c) && (c <=? 122).
Definition is_digit_ascii (c : N) : bool := (48 <=? c) && (c <=? 57).

(** The class [\w] of [re]: alphanumeric or the underscore. *)
Definition isword `{UnicodeData} (c : N) : bool :=
  if c <? 128
  then is_upper_ascii c || is_lower_ascii c || is_digit_ascii c || (c =? 95)
  else uni_isalnum c.

(** Stripping the characters of a class from the right and from the left. *)
Fixpoint rstrip_by (f : N -> bool) (s : pystr) : pystr :=
  match s with
  | [] => []
  | c :: s' =>
      match rstrip_by f s' with
      | [] => if f c then [] else [c]
      | t => c :: t
      end
  end.

Fixpoint lstrip_by (f : N -> bool) (s : pystr) : pystr :=
  match s with
  | [] => []
  | c :: s' => if f c then lstrip_by f s' else s
  end.

(** [str.rstrip()], [str.lstrip()] and [str.strip()] without argument. *)
Definition rstrip (s : pystr) : pystr := rstrip_by isspace s.
Definition lstrip (s : pystr) : pystr := lstrip_by isspace s.
Definition strip (s : pystr) : pystr := lstrip (rstrip s).

(** [str.lower()].  The generator only compares its result with the
    ASCII literals "nan", "true", "1", "yes", "y" and "on"; on that
    question the lower case of the ASCII letters decides, since no other
    code point has one of their letters as its lower case. *)
Definition lower_char (c : N) : N := if is_upper_ascii c then c + 32 else c.
Definition lower (s : pystr) : pystr := map lower_char s.

Definition pystr_eqb (a b : pystr) : bool := bool_decide (a = b).

(** ** Regular expressions, as [re] runs them *)

(** The constructs the two patterns of the module use.  A character class
    is its membership test; the quantifiers of the patterns all stand on
    single characters or on a group taken at most once. *)
Inductive regex : Type :=
| Eps                                   (* the empty pattern *)
| Chr (cs : N -> bool)                  (* one character of a class *)
| Seq (r1 r2 : regex)                   (* r1 r2 *)
| Alt (r1 r2 : regex)                   (* r1|r2, r1 tried first *)
| Opt (r : regex)                       (* (?:r)? *)
| Star (cs : N -> bool)                 (* cs*, greedy *)
| StarLazy (cs : N -> bool)             (* cs*?, lazy *)
| Rep (cs : N -> bool) (n : nat)        (* cs{0,n}, greedy *)
| Bos                                   (* \A *)
| Eos                                   (* \Z *)
| WordB                                 (* \b *)
| Ahead (r : regex).                    (* (?=r) *)

(** A position in the subject is the character before it, if any, and the
    text from it on. *)
Definition word_boundary `{UnicodeData} (p : option N) (s : pystr) : bool :=
  xorb (from_option isword false p) (from_option isword false (head s)).

Definition cont := option N -> pystr -> option pystr.

Fixpoint star_greedy (cs : N -> bool) (k : cont) (p : option N) (s : pystr)
  : option pystr :=
  match s with
  | c :: s' =>
      if cs c
      then match star_greedy cs k (Some c) s' with
           | Some a => Some a
           | None => k p s
           end
      else k p s
  | [] => k p s
  end.

Fixpoint star_lazy (cs : N -> bool) (k : cont) (p : option N) (s : pystr)
  : option pystr :=
  match k p s with
  | Some a => Some a
  | None =>
      match s with
      | c :: s' => if cs c then star_lazy cs k (Some c) s' else None
      | [] => None
      end
  end.

Fixpoint rep_greedy (cs : N -> bool) (n : nat) (k : cont) (p : option N)
  (s : pystr) : option pystr :=
  match n with
  | O => k p s
  | S n' =>
      match s with
      | c :: s' =>
          if cs c
          then match rep_greedy cs n' k (Some c) s' with
               | Some a => Some a
               | None => k p s
               end
          else k p s
      | [] => k p s
      end
  end.

(** The matcher: [run r k p s] tries [r] at position [(p, s)] and hands
    every way [r] can match to the rest of the pattern [k], in the order
    of preference of [re]; the first success wins.  The answer is the text
    left after the whole match. *)
Fixpoint run `{UnicodeData} (r : regex) (k : cont) (p : option N) (s : pystr)
  : option pystr :=
  match r with
  | Eps => k p s
  | Chr cs =>
      match s with
      | c :: s' => if cs c then k (Some c) s' else None
      | [] => None
      end
  | Seq r1 r2 => run r1 (run r2 k) p s
  | Alt r1 r2 =>
      match run r1 k p s with
      | Some a => Some a
      | None => run r2 k p s
      end
  | Opt r1 =>
      match run r1 k p s with
      | Some a => Some a
      | None => k p s
      end
  | Star cs => star_greedy cs k p s
  | StarLazy cs => star_lazy cs k p s
  | Rep cs n => rep_greedy cs n k p s
  | Bos => match p with None => k p s | Some _ => None end
  | Eos => match s with [] => k p s | _ :: _ => None end
  | WordB => if word_boundary p s then k p s else None
  | Ahead r1 =>
      match run r1 (fun _ s' => Some s') p s with
      | Some _ => k p s
      | None => None
      end
  end.

(** The top of a match attempt that starts at text [s0]: a match is
    accepted where it ends, unless it is empty and the attempt follows an
    empty match at the same place ([must_advance] of the engine). *)
Definition accept (must_advance : bool) (s0 : pystr) : cont :=
  fun _ s' =>
    if must_advance && (length s' =? length s0)%nat then None else Some s'.

(** [pattern.match(s)]: an attempt at position 0 only. *)
Definition re_match `{UnicodeData} (r : regex) (s : pystr) : option pystr :=
  run r (accept false s) None s.

(** The leftmost match at or after a position: the text skipped before
    it, and the text left after it. *)
Fixpoint search `{UnicodeData} (r : regex) (adv : bool) (p : option N)
  (s : pystr) : option (pystr * pystr) :=
  match run r (accept adv s) p s with
  | Some rest => Some ([], rest)
  | None =>
      match s with
      | [] => None
      | c :: s' =>
          match search r false (Some c) s' with
          | Some (skipped, rest) => Some (c :: skipped, rest)
          | None => None
          end
      end
  end.

(** The character before the position [n] characters into [s]. *)
Definition prev_at (p : option N) (s : pystr) (n : nat) : option N :=
  match last (take n s) with Some c => Some c | None => p end.

(** [re.sub(r, repl, s)] with a plain replacement string: every match,
    left to right, each search resuming where the last match ended. *)
Fixpoint sub_loop `{UnicodeData} (fuel : nat) (r : regex) (repl : pystr)
  (adv : bool) (p : option N) (s : pystr) : pystr :=
  match fuel with
  | O => s
  | S fuel' =>
      match search r adv p s with
      | None => s
      | Some (skipped, rest) =>
          let start := length skipped in
          let stop := (length s - length rest)%nat in
          skipped ++ repl ++
            sub_loop fuel' r repl (stop =? start)%nat (prev_at p s stop) rest
      end
  end.

Definition re_sub `{UnicodeData} (r : regex) (repl s : pystr) : pystr :=
  sub_loop (2 * length s + 2) r repl false None s.

(** Building patterns. *)
Fixpoint cat (rs : list regex) : regex :=
  match rs with
  | [] => Eps
  | [r] => r
  | r :: rs' => Seq r (cat rs')
  end.

Definition any : N -> bool := fun _ => true.          (* . under DOTALL *)
Definition chr_is (a : N) : N -> bool := N.eqb a.
Definition chr_not (a : N) : N -> bool := fun c => negb (a =? c).
Definition nl : N := 10.
Definition dquote : N := 34.

(** A literal character under IGNORECASE.  The engine lower-cases the
    subject character and compares; [sre_lower] is that lower-casing on the
    code points that end on an ASCII letter, and [ci_fixes] the extra
    code points the compiler adds for [i] and [s]. *)
Definition sre_lower (c : N) : N :=
  if c =? 0x130 then 0x69 else if c =? 0x212A then 0x6B else lower_char c.
Definition ci_fixes (lo : N) : list N :=
  if lo =? 0x69 then [0x131] else if lo =? 0x73 then [0x17F] else [].
Definition chr_ci (a : N) : N -> bool :=
  fun c => let lo := sre_lower a in
           existsb (N.eqb (sre_lower c)) (lo :: ci_fixes lo).

(** A literal string, case-sensitive and under IGNORECASE. *)
Definition lit (s : string) : regex := cat (map (fun a => Chr (chr_is a)) (u s)).
Definition liti (s : string) : regex := cat (map (fun a => Chr (chr_ci a)) (u s)).

(** ** The front matter of an existing file *)

(** [FRONTMATTER_RE = re.compile(r"\A---\s*\n.*?\n---\s*\n", re.DOTALL)] *)
Definition FRONTMATTER_RE : regex :=
  cat [ Bos; lit "---"; Star isspace; Chr (chr_is nl);
        StarLazy any;
        Chr (chr_is nl); lit "---"; Star isspace; Chr (chr_is nl) ].

Definition split_frontmatter `{UnicodeData} (md_text : pystr) : pystr * pystr :=
  match re_match FRONTMATTER_RE md_text with
  | None => ([], md_text)
  | Some rest =>
      let e := (length md_text - length rest)%nat in    (* m.end() *)
      (take e md_text, drop e md_text)
  end.

(** ** The EU co-funding footer *)

Definition EU_BLOCK_MARKER : pystr := u "<!-- EU_FUNDING_FOOTER -->".

(** The text of the raw literal; its double quotes are written [`] here
    and put back by [unquote]. *)
Definition unquote (s : pystr) : pystr :=
  map (fun c => if c =? 96 then dquote else c) s.

Definition EU_FUNDING_BLOCK_literal : pystr := unquote (u "
<!-- EU_FUNDING_FOOTER -->
<hr style=`margin:0.4rem 0;`>

<div style=`
  display:flex;
  align-items:center;
  gap:0.75rem;
  font-size:0.6rem;
  line-height:1.35;
`>
  <div style=`flex:0 0 160px; text-align:center;`>
    <img src='{{ `/assets/images/eu-funded.jpg` | relative_url }}'
         alt=`Co-funded by the European Union`
         style=`max-width:160px; height:auto;`>
  </div>
  <div style=`flex:1; text-align:justify; hyphens:auto;`>
    This project is co-funded by the European Union. However, the views and opinions
    expressed are solely those of the author(s) and do not necessarily reflect those
    of the European Union or the National Agency DAAD. Neither the European Union nor
    the granting authority can be held responsible for them.
  </div>
</div>
").

Definition EU_FUNDING_BLOCK : pystr :=
  Eval vm_compute in (strip EU_FUNDING_BLOCK_literal ++ [nl]).

(** The three lines every alternative of the removal pattern starts with:
    [(?: \n{0,2} (?: --- \s* \n{0,2} )? )?], [(?: \s* <hr \b [^>]* > \s* )?]
    and [\s*] (the pattern is compiled VERBOSE: blanks in it do not count). *)
Definition rule_before : regex :=
  cat [ Opt (Seq (Rep (chr_is nl) 2)
                 (Opt (cat [liti "---"; Star isspace; Rep (chr_is nl) 2])));
        Opt (cat [Star isspace; liti "<hr"; WordB; Star (chr_not 62);
                  liti ">"; Star isspace]);
        Star isspace ].

(** [<!-- \s* EU_FUNDING_FOOTER \s* -->] *)
Definition marker_re : regex :=
  cat [liti "<!--"; Star isspace; liti "EU_FUNDING_FOOTER"; Star isspace;
       liti "-->"].

(** [eu-funded\.jpg] *)
Definition image_re : regex := cat [liti "eu-funded"; Chr (chr_is 46); liti "jpg"].

(** [EU_BLOCK_REMOVE_RE], compiled with IGNORECASE, DOTALL and VERBOSE. *)
Definition footer_marker_alt : regex :=
  cat [rule_before; marker_re; StarLazy any; Ahead Eos].
Definition footer_table_alt : regex :=
  cat [rule_before; liti "<table"; WordB; StarLazy any; image_re;
       StarLazy any; liti "</table>"; Star isspace; Ahead Eos].
Definition footer_div_alt : regex :=
  cat [rule_before; liti "<div"; WordB; StarLazy any; image_re;
       StarLazy any; liti "</div>"; Star isspace; Ahead Eos].
Definition EU_BLOCK_REMOVE_RE : regex :=
  Alt footer_marker_alt (Alt footer_table_alt footer_div_alt).

Definition ensure_eu_block_at_end `{UnicodeData} (md_body : pystr) : pystr :=
  let body := rstrip md_body in
  let body := rstrip (re_sub EU_BLOCK_REMOVE_RE [] body) in
  body ++ [nl; nl] ++ EU_FUNDING_BLOCK.

(** ** Value normalizer *)

(** The values a spreadsheet cell or a default can be: [None], the
    not-a-number sentinel, a [bool], an [int], a [str]. *)
Inductive pyval : Type :=
| VNone
| VNaN
| VBool (b : bool)
| VInt (z : Z)
| VStr (s : pystr).

(** [str(value)] *)
Definition str (value : pyval) : pystr :=
  match value with
  | VNone => u "None"
  | VNaN => u "nan"
  | VBool true => u "True"
  | VBool false => u "False"
  | VInt z => u (NilZero.string_of_int (Z.to_int z))
  | VStr s => s
  end.

(** [pd.isna(value)] on these values. *)
Definition pd_isna (value : pyval) : bool :=
  match value with
  | VNone | VNaN => true
  | _ => false
  end.

Definition is_missing (value : pyval) : bool :=
  match value with
  | VNone => true
  | _ =>
      if pd_isna value then true
      else
        let s := strip (str value) in
        pystr_eqb s [] || pystr_eqb (lower s) (u "nan")
  end.

Definition clean_str (value : pyval) (default : pystr) : pystr :=
  if is_missing value then default else strip (str value).

Definition as_bool (value : pyval) : bool :=
  match value with
  | VBool b => b
  | _ =>
      if is_missing value then false
      else
        existsb (pystr_eqb (lower (strip (str value))))
          [u "true"; u "1"; u "yes"; u "y"; u "on"]
  end.

(** *** [float(s)] and [int(x)] *)

(** A binary64 value: not a number, an infinity, or [m * 2^e] with a sign. *)
Inductive pyfloat : Type :=
| FNan
| FInf (neg : bool)
| FFin (neg : bool) (m e : Z).

(** The code points of the text as [float] reads them: ASCII as it is, a
    space for other white space, the ASCII digit for other decimal
    digits; anything else makes the text invalid. *)
Fixpoint to_ascii_decimal `{UnicodeData} (s : pystr) : option pystr :=
  match s with
  | [] => Some []
  | c :: s' =>
      let c' := if c <? 128 then Some c
                else if isspace c then Some 32
                else match uni_decimal c with
                     | Some d => Some (48 + d)
                     | None => None
                     end in
      match c', to_ascii_decimal s' with
      | Some a, Some t => Some (a :: t)
      | _, _ => None
      end
  end.

(** Underscores: only between two digits; they are dropped. *)
Fixpoint drop_underscores (prev : N) (s : pystr) : option pystr :=
  match s with
  | [] => if prev =? 95 then None else Some []
  | c :: s' =>
      if c =? 95
      then if is_digit_ascii prev then drop_underscores c s' else None
      else if (prev =? 95) && negb (is_digit_ascii c) then None
           else match drop_underscores c s' with
                | Some t => Some (c :: t)
                | None => None
                end
  end.

(** White space of the C locale, stripped from both ends. *)
Definition c_isspace (c : N) : bool := ((9 <=? c) && (c <=? 13)) || (c =? 32).
Definition c_strip (s : pystr) : pystr := lstrip_by c_isspace (rstrip_by c_isspace s).

Definition read_sign (s : pystr) : bool * pystr :=
  match s with
  | 45 :: t => (true, t)
  | 43 :: t => (false, t)
  | _ => (false, s)
  end.

Fixpoint span_digits (s : pystr) : pystr * pystr :=
  match s with
  | c :: s' =>
      if is_digit_ascii c
      then let '(ds, rest) := span_digits s' in (c :: ds, rest)
      else ([], s)
  | [] => ([], [])
  end.

Definition digits_value (ds : pystr) : Z :=
  fold_left (fun a c => (10 * a + Z.of_N (c - 48))%Z) ds 0%Z.

(** The integer part of the base-2 logarithm of [num / den]. *)
Definition floor_log2_frac (num den : Z) : Z :=
  let g := (Z.log2 num - Z.log2 den)%Z in
  if (if 0 <=? g then den * 2 ^ g <=? num else den <=? num * 2 ^ (- g))%Z
  then g else (g - 1)%Z.

Definition round_half_even (num den : Z) : Z :=
  let q := (num / den)%Z in
  let r := (num mod den)%Z in
  if (2 * r <? den)%Z then q
  else if (den <? 2 * r)%Z then (q + 1)%Z
  else if Z.even q then q else (q + 1)%Z.

(** The binary64 value nearest to [num / den] (both positive), ties to
    even: 53 bits, exponents from -1074, infinite from [2^1024] on. *)
Definition nearest_double (neg : bool) (num den : Z) : pyfloat :=
  let e := Z.max (floor_log2_frac num den - 52) (-1074) in
  let m := if (0 <=? e)%Z then round_half_even num (den * 2 ^ e)
           else round_half_even (num * 2 ^ (- e)) den in
  if (0 <=? e)%Z && (2 ^ 1024 <=? m * 2 ^ e)%Z then FInf neg else FFin neg m e.

(** The value of the decimal numeral [mant * 10^e10]. *)
Definition decimal_to_float (neg : bool) (mant e10 : Z) : pyfloat :=
  if (mant =? 0)%Z then FFin neg 0 0
  else if (0 <=? e10)%Z then nearest_double neg (mant * 10 ^ e10) 1
       else nearest_double neg mant (10 ^ (- e10)).

(** The numeral syntax: sign, then [inf], [infinity] or [nan] in any
    case, or digits with an optional point and an optional exponent. *)
Definition parse_float (s : pystr) : option pyfloat :=
  let '(neg, s1) := read_sign s in
  if pystr_eqb (lower s1) (u "inf") || pystr_eqb (lower s1) (u "infinity")
  then Some (FInf neg)
  else if pystr_eqb (lower s1) (u "nan") then Some FNan
  else
    let '(ip, s2) := span_digits s1 in
    let '(fp, s3) := match s2 with
                     | 46 :: t => span_digits t
                     | _ => ([], s2)
                     end in
    match ip ++ fp with
    | [] => None
    | _ :: _ =>
        let mant := digits_value (ip ++ fp) in
        let shift := Z.of_nat (length fp) in
        match s3 with
        | [] => Some (decimal_to_float neg mant (- shift))
        | c :: t =>
            if (c =? 101) || (c =? 69)
            then
              let '(eneg, t1) := read_sign t in
              let '(ed, t2) := span_digits t1 in
              match ed, t2 with
              | _ :: _, [] =>
                  let ev := digits_value ed in
                  Some (decimal_to_float neg mant
                          ((if eneg then - ev else ev) - shift))
              | _, _ => None
              end
            else None
        end
    end.

(** [float(s)] for a [str]; [None] stands for the [ValueError]. *)
Definition py_float `{UnicodeData} (s : pystr) : option pyfloat :=
  match to_ascii_decimal s with
  | None => None
  | Some a =>
      match (if existsb (N.eqb 95) a then drop_underscores 0 a else Some a) with
      | None => None
      | Some b => parse_float (c_strip b)
      end
  end.

(** [int(x)] for a float: truncation towards zero; [None] stands for the
    [OverflowError] of an infinity and the [ValueError] of a NaN. *)
Definition py_int (x : pyfloat) : option Z :=
  match x with
  | FNan | FInf _ => None
  | FFin neg m e =>
      let a := if (0 <=? e)%Z then (m * 2 ^ e)%Z else (m / 2 ^ (- e))%Z in
      Some (if neg then (- a)%Z else a)
  end.

Definition as_int `{UnicodeData} (value : pyval) (default : Z) : Z :=
  if is_missing value then default
  else
    match py_float (strip (str value)) with
    | None => default
    | Some x =>
        match py_int x with
        | None => default
        | Some n => n
        end
    end.

(** ** Front matter *)

Definition truthy (s : pystr) : bool := negb (pystr_eqb s []).

Definition truthy_opt (s : option pystr) : bool :=
  match s with
  | None => false
  | Some t => truthy t
  end.

Definition normalize_nav_title (title : option pystr) : option pystr :=
  match title with
  | None => None
  | Some t0 =>
      if negb (truthy t0) then title
      else
        let t := strip t0 in
        if pystr_eqb t (u "00 Welcome") then Some (u "Welcome") else Some t
  end.

(** A YAML scalar of the front matter. *)
Inductive yval : Type :=
| YStr (s : pystr)
| YInt (z : Z)
| YBool (b : bool).

(** The front matter is a [dict]: keys in insertion order, an assignment
    to a key that is there replaces its value in place. *)
Abbreviation frontmatter := (list (string * yval)).

Fixpoint dict_set (fm : frontmatter) (k : string) (v : yval) : frontmatter :=
  match fm with
  | [] => [(k, v)]
  | (k', v') :: fm' =>
      if String.eqb k' k then (k, v) :: fm' else (k', v') :: dict_set fm' k v
  end.

Fixpoint dict_get (fm : frontmatter) (k : string) : option yval :=
  match fm with
  | [] => None
  | (k', v') :: fm' => if String.eqb k' k then Some v' else dict_get fm' k
  end.

(** [d.get(key, "")] on a [Dict[str, str]]. *)
Definition get_or_empty (d : gmap pystr pystr) (key : pystr) : pystr :=
  default [] (d !! key).

Definition build_frontmatter (title layout : pystr) (nav_order : Z)
  (has_children : bool) (parent_id : pystr)
  (title_by_page_id parent_by_page_id : gmap pystr pystr) : frontmatter :=
  let fm := [ ("title"%string, YStr title); ("layout"%string, YStr layout);
              ("nav_order"%string, YInt nav_order);
              ("has_children"%string, YBool has_children) ] in
  let fm := if has_children then dict_set fm "has_toc" (YBool false) else fm in
  if truthy parent_id then
    let parent_title :=
      normalize_nav_title (Some (get_or_empty title_by_page_id parent_id)) in
    match parent_title with
    | Some pt =>
        if truthy pt then
          let fm := dict_set fm "parent" (YStr pt) in
          let gp_id :=
            clean_str (VStr (get_or_empty parent_by_page_id parent_id)) [] in
          if truthy gp_id then
            let gp_title :=
              normalize_nav_title (Some (get_or_empty title_by_page_id gp_id)) in
            match gp_title with
            | Some gt => if truthy gt then dict_set fm "grand_parent" (YStr gt) else fm
            | None => fm
            end
          else fm
        else fm
    | None => fm
    end
  else fm.

(** The title a page id resolves to: the normalized title the index
    gives for it, when that is not empty. *)
Definition resolved_title (title_by_page_id : gmap pystr pystr) (id : pystr)
  : option pystr :=
  match normalize_nav_title (Some (get_or_empty title_by_page_id id)) with
  | Some t => if truthy t then Some t else None
  | None => None
  end.

(** The four keys every front matter starts with, and the [has_toc] key
    of a page with children. *)
Definition base_entries (title layout : pystr) (nav_order : Z)
  (has_children : bool) : frontmatter :=
  [ ("title"%string, YStr title); ("layout"%string, YStr layout);
    ("nav_order"%string, YInt nav_order);
    ("has_children"%string, YBool has_children) ]
  ++ (if has_children then [("has_toc"%string, YBool false)] else []).

Definition build_body (page_id parent_id lang_code title : pystr) : pystr :=
  let meta :=
    u "<!-- page_id: " ++ page_id ++ u " -->" ++ [nl]
    ++ u "<!-- parent_id: " ++ parent_id ++ u " -->" ++ [nl]
    ++ u "<!-- lang_code: " ++ lang_code ++ u " -->" ++ [nl; nl] in
  meta ++ u "# " ++ title ++ [nl; nl].

(** What the generator takes from outside the module: the YAML dump of a
    front matter ([yaml.safe_dump] with [sort_keys=False] and
    [allow_unicode=True]) and the path [OUTPUT_DIR / name]. *)
Class Libraries := {
  yaml_safe_dump : frontmatter -> pystr;
  output_path : pystr -> pystr
}.

Definition safe_frontmatter_dump `{Libraries} (fm : frontmatter) : pystr :=
  u "---" ++ [nl] ++ yaml_safe_dump fm ++ u "---" ++ [nl; nl].

(** ** File upsert *)

(** The files: for each path that exists, its text as [read_text] gives
    it and [write_text] takes it (UTF-8, line ends as line breaks).  A
    text with a carriage return would be read back with a line break in
    its place, which the map does not show: what is said of one run after
    another is said of texts without one. *)
Abbreviation filesystem := (gmap pystr pystr).

Definition upsert_markdown_file `{UnicodeData} (fs : filesystem) (path : pystr)
  (new_frontmatter_block new_body_stub : pystr) : filesystem * bool :=
  match fs !! path with
  | Some old =>
      let '(_, rest) := split_frontmatter old in
      let rest := ensure_eu_block_at_end rest in
      (<[path := new_frontmatter_block ++ rest]> fs, true)
  | None =>
      let body := ensure_eu_block_at_end new_body_stub in
      (<[path := new_frontmatter_block ++ body]> fs, true)
  end.

(** ** The driver *)

Definition WELCOME_PAGE_ID : pystr := u "00000000_en".

(** A row of the sheet, read with [dtype=str] and [fillna("")]: the two
    required columns, and the optional ones ([None]: the sheet has no such
    column). *)
Record row : Type := {
  page_id : pystr;
  title : pystr;
  layout : option pystr;
  lang_code : option pystr;
  parent_id : option pystr;
  has_children : option pystr;
  display_order : option pystr
}.

(** [row.get(column, default)] *)
Definition row_get (cell : option pystr) (default : pyval) : pyval :=
  match cell with
  | Some s => VStr s
  | None => default
  end.

(** The key columns, stripped. *)
Definition normalize_keys (r : row) : row :=
  {| page_id := strip (page_id r); title := strip (title r);
     layout := layout r; lang_code := lang_code r; parent_id := parent_id r;
     has_children := has_children r; display_order := display_order r |}.

(** [dict(zip(keys, values))]: a later pair replaces an earlier one. *)
Definition dict_of_pairs (kvs : list (pystr * pystr)) : gmap pystr pystr :=
  fold_left (fun d kv => <[kv.1 := kv.2]> d) kvs ∅.

Definition title_index (df : list row) : gmap pystr pystr :=
  dict_of_pairs (map (fun r => (page_id r, title r)) df).

Definition parent_index (df : list row) : gmap pystr pystr :=
  dict_of_pairs
    (omap (fun r => match parent_id r with
                    | Some p => Some (page_id r, strip p)
                    | None => None
                    end) df).

(** The navigation order of a row: its display order, or 1. *)
Definition row_nav_order `{UnicodeData} (r : row) : Z :=
  let nav_order := as_int (row_get (display_order r) (VInt 0)) 0 in
  if (nav_order <=? 0)%Z then 1%Z else nav_order.

Definition row_frontmatter `{UnicodeData} (titles parents : gmap pystr pystr)
  (r : row) : frontmatter :=
  let pid := clean_str (VStr (page_id r)) [] in
  build_frontmatter
    (clean_str (VStr (title r)) pid)
    (clean_str (row_get (layout r) VNone) (u "home"))
    (row_nav_order r)
    (as_bool (row_get (has_children r) (VBool false)))
    (match parent_id r with
     | Some p => clean_str (VStr p) []
     | None => []
     end)
    titles parents.

Record progress : Type := {
  files : filesystem;
  wrote : nat;
  skipped : nat
}.

(** One turn of the loop of [main]. *)
Definition process_row `{UnicodeData} `{Libraries}
  (titles parents : gmap pystr pystr) (st : progress) (r : row) : progress :=
  let pid := clean_str (VStr (page_id r)) [] in
  if negb (truthy pid) then st
  else if pystr_eqb pid WELCOME_PAGE_ID then
    {| files := files st; wrote := wrote st; skipped := S (skipped st) |}
  else
    let title := clean_str (VStr (title r)) pid in
    let lang := clean_str (row_get (lang_code r) VNone) (u "en") in
    let parent := match parent_id r with
                  | Some p => clean_str (VStr p) []
                  | None => []
                  end in
    let fm := row_frontmatter titles parents r in
    let out_path := output_path (pid ++ u ".md") in
    let front := safe_frontmatter_dump fm in
    let stub_body := build_body pid parent lang title in
    let '(fs', _) := upsert_markdown_file (files st) out_path front stub_body in
    {| files := fs'; wrote := S (wrote st); skipped := skipped st |}.

Definition main `{UnicodeData} `{Libraries} (fs : filesystem) (sheet : list row)
  : progress :=
  let df := map normalize_keys sheet in
  fold_left (process_row (title_index df) (parent_index df)) df
    {| files := fs; wrote := 0; skipped := 0 |}.

(** A stand-in for the libraries when a result is evaluated: the dump
    lists the keys, one a line, and the path is the file name under
    [generated/]. *)
Definition plain_libraries : Libraries :=
  {| yaml_safe_dump := fun fm => flat_map (fun kv => u (fst kv) ++ [nl]) fm;
     output_path := fun name => u "generated/" ++ name |}.

(** ** What a pattern matches *)

(** [matches r p s p' s']: the pattern [r] can match from position
    [(p, s)] to position [(p', s')], whatever the order of the attempts. *)
Inductive matches `{UnicodeData}
  : regex -> option N -> pystr -> option N -> pystr -> Prop :=
| M_Eps p s : matches Eps p s p s
| M_Chr cs c p s : cs c = true -> matches (Chr cs) p (c :: s) (Some c) s
| M_Seq r1 r2 p s p1 s1 p2 s2 :
    matches r1 p s p1 s1 -> matches r2 p1 s1 p2 s2 ->
    matches (Seq r1 r2) p s p2 s2
| M_AltL r1 r2 p s p' s' : matches r1 p s p' s' -> matches (Alt r1 r2) p s p' s'
| M_AltR r1 r2 p s p' s' : matches r2 p s p' s' -> matches (Alt r1 r2) p s p' s'
| M_OptSome r p s p' s' : matches r p s p' s' -> matches (Opt r) p s p' s'
| M_OptNone r p s : matches (Opt r) p s p s
| M_StarNil cs p s : matches (Star cs) p s p s
| M_StarCons cs c p s p' s' :
    cs c = true -> matches (Star cs) (Some c) s p' s' ->
    matches (Star cs) p (c :: s) p' s'
| M_LazyNil cs p s : matches (StarLazy cs) p s p s
| M_LazyCons cs c p s p' s' :
    cs c = true -> matches (StarLazy cs) (Some c) s p' s' ->
    matches (StarLazy cs) p (c :: s) p' s'
| M_RepNil cs n p s : matches (Rep cs n) p s p s
| M_RepCons cs n c p s p' s' :
    cs c = true -> matches (Rep cs n) (Some c) s p' s' ->
    matches (Rep cs (S n)) p (c :: s) p' s'
| M_Bos s : matches Bos None s None s
| M_Eos p : matches Eos p [] p []
| M_WordB p s : word_boundary p s = true -> matches WordB p s p s
| M_Ahead r p s p' s' : matches r p s p' s' -> matches (Ahead r) p s p s.

(** A pattern that can match the empty text anywhere. *)
Fixpoint nullable (r : regex) : bool :=
  match r with
  | Eps | Opt _ | Star _ | StarLazy _ | Rep _ _ => true
  | Seq r1 r2 => nullable r1 && nullable r2
  | Alt r1 r2 => nullable r1 || nullable r2
  | _ => false
  end.

(** ** Words of the specification *)

(** The text [pat] stands in [s] at index [i]. *)
Definition occurs_at (pat s : pystr) (i : nat) : Prop :=
  take (length pat) (drop i s) = pat.

Definition occurs_atb (pat s : pystr) (i : nat) : bool :=
  pystr_eqb (take (length pat) (drop i s)) pat.

Definition all_space (w : pystr) : Prop := Forall (fun c => isspace c = true) w.

(** A text with no white space at its right end. *)
Definition right_trimmed (s : pystr) : Prop :=
  match last s with
  | Some c => isspace c = false
  | None => True
  end.

(** A front-matter block: a line of three dashes, any text, a line of
    three dashes; each dashed line may go on with white space, through
    its last line break. *)
Definition frontmatter_block (fm : pystr) : Prop :=
  exists w1 mid w2,
    all_space w1 /\ all_space w2 /\
    fm = u "---" ++ w1 ++ [nl] ++ mid ++ [nl] ++ u "---" ++ w2 ++ [nl].

(** The text the rule prefix reads: white space, or white space, three
    dashes and white space; then nothing or a tag. *)
Definition rule_word (w : pystr) : Prop :=
  exists w1 w2,
    w = w1 ++ w2 /\
    (w2 = [] \/ exists t, w2 = 60 :: t) /\
    (all_space w1 \/
     exists n sp, w1 = n ++ [45; 45; 45] ++ sp /\ all_space n /\ all_space sp).

(** The identity key the driver reads from a row, and the two kinds of
    row it counts. *)
Definition row_key (r : row) : pystr := clean_str (VStr (page_id r)) [].
Definition row_is_root (r : row) : bool := pystr_eqb (row_key r) WELCOME_PAGE_ID.
Definition row_is_page (r : row) : bool :=
  truthy (row_key r) && negb (row_is_root r).

(** A row with nothing but its keys and a display order, for examples. *)
Definition sample_row (order : option pystr) : row :=
  {| page_id := u "01020000_en"; title := u "Page"; layout := None;
     lang_code := None; parent_id := None; has_children := None;
     display_order := order |}.

(** ** Words for the further results *)

(** The keys of a front matter, in the order they are written. *)
Definition frontmatter_keys : list string :=
  [ "title"; "layout"; "nav_order"; "has_children"; "has_toc"; "parent";
    "grand_parent" ]%string.

(** The characters of an integer numeral: a digit, the minus sign or the
    point. *)
Definition numeral_char (c : N) : Prop :=
  is_digit_ascii c = true \/ c = 45 \/ c = 46.

(** What opens a footer variant or the rule tag before it, in any case of
    the letters: [<hr], the footer marker, [<table], [<div]. *)
Definition footer_opening : regex :=
  Alt (liti "<hr") (Alt marker_re (Alt (liti "<table") (liti "<div"))).

(** A text in which no such opening starts, whatever follows the text. *)
Definition tag_free `{UnicodeData} (X : pystr) : Prop :=
  forall a b T p p' s',
    X = a ++ b -> b <> [] -> ~ matches footer_opening p (b ++ T) p' s'.

(** A text that ends with a rule of three dashes. *)
Definition ends_with_rule (X : pystr) : Prop :=
  exists pre, X = pre ++ [45; 45; 45].

(** What the rule prefix of the removal pattern reads before a tag: white
    space, or white space with one rule of three dashes in it. *)
Definition rule_text (w : pystr) : Prop :=
  all_space w \/
  exists n sp, w = n ++ [45; 45; 45] ++ sp /\ all_space n /\ all_space sp.

(** A footer variant: a text that starts with [<], has no white space
    at its end, and is matched whole by the removal pattern. *)
Definition footer_variant `{UnicodeData} (F : pystr) : Prop :=
  head F = Some 60 /\ rstrip F = F /\
  forall p, exists p', matches EU_BLOCK_REMOVE_RE p F p' [].

(** A text that starts with a character that is no white space. *)
Definition starts_with_text (X : pystr) : Prop :=
  match X with
  | c :: _ => isspace c = false
  | [] => False
  end.

(** A body the footer handling keeps as it is: no footer opening starts
    in it, it has no white space at its end and no rule of three dashes
    there, and it starts with text. *)
Definition kept_body `{UnicodeData} (X : pystr) : Prop :=
  tag_free X /\ right_trimmed X /\ ~ ends_with_rule X /\ starts_with_text X.

(** The closing line of the front-matter pattern: [\n---\s*\n]. *)
Definition frontmatter_closing : regex :=
  cat [Chr (chr_is nl); lit "---"; Star isspace; Chr (chr_is nl)].

(** What the round trip through a file asks of the YAML dump of a front
    matter: it ends with a line break, holds more than white space, and
    none of its lines starts with three dashes. *)
Definition dump_well_formed (D : pystr) : Prop :=
  (exists D0, D = D0 ++ [nl] /\ ~ all_space D0) /\
  forall x c, [nl] ++ D <> x ++ [nl] ++ u "---" ++ c.

(** A file as the generator leaves it: the dump of a front matter, a
    body, two line breaks and the footer. *)
Definition generated `{Libraries} (fm : frontmatter) (X : pystr) : pystr :=
  safe_frontmatter_dump fm ++ X ++ [nl; nl] ++ EU_FUNDING_BLOCK.

Definition generated_file `{UnicodeData} `{Libraries} (content : pystr) : Prop :=
  exists fm X,
    dump_well_formed (yaml_safe_dump fm) /\ kept_body X /\
    content = generated fm X.

(** The cleaned cells of a row as the loop of [main] reads them, the stub
    body, the path and the front-matter block it hands to
    [upsert_markdown_file]. *)
Definition row_parent (r : row) : pystr :=
  match parent_id r with
  | Some p => clean_str (VStr p) []
  | None => []
  end.
Definition row_lang (r : row) : pystr :=
  clean_str (row_get (lang_code r) VNone) (u "en").
Definition row_title (r : row) : pystr := clean_str (VStr (title r)) (row_key r).
Definition row_body (r : row) : pystr :=
  build_body (row_key r) (row_parent r) (row_lang r) (row_title r).
Definition row_path `{Libraries} (r : row) : pystr :=
  output_path (row_key r ++ u ".md").
Definition row_front `{UnicodeData} `{Libraries}
  (titles parents : gmap pystr pystr) (r : row) : pystr :=
  safe_frontmatter_dump (row_frontmatter titles parents r).

(** The stub body without the two line breaks at its end. *)
Definition row_text (r : row) : pystr :=
  u "<!-- page_id: " ++ row_key r ++ u " -->" ++ [nl]
  ++ u "<!-- parent_id: " ++ row_parent r ++ u " -->" ++ [nl]
  ++ u "<!-- lang_code: " ++ row_lang r ++ u " -->" ++ [nl; nl]
  ++ u "# " ++ row_title r.

(** A plain row: no [<] in its cleaned cells, and a title that does not
    end with a dash. *)
Definition row_is_plain (r : row) : Prop :=
  (60 ∉ row_key r) /\ (60 ∉ row_parent r) /\ (60 ∉ row_lang r) /\
  (60 ∉ row_title r) /\ last (row_title r) <> Some 45.

(** What one turn of the loop does to the file at [path], and which front
    matter that file then carries. *)
Definition path_step `{UnicodeData} `{Libraries}
  (titles parents : gmap pystr pystr) (path : pystr)
  (c : option pystr) (r : row) : option pystr :=
  if row_is_page r && bool_decide (row_path r = path)
  then Some (row_front titles parents r
             ++ ensure_eu_block_at_end
                  (match c with
                   | Some old => (split_frontmatter old).2
                   | None => row_body r
                   end))
  else c.

Definition path_frontmatter `{UnicodeData} `{Libraries}
  (titles parents : gmap pystr pystr) (path : pystr)
  (fm : frontmatter) (r : row) : frontmatter :=
  if row_is_page r && bool_decide (row_path r = path)
  then row_frontmatter titles parents r
  else fm.

(** The parts of a text that starts with a front-matter block: the white
    space after the opening dashes, the text between the two dashed
    lines, the white space after the closing dashes, and the rest. *)
Definition block_parts (c w1 mid w2 rest : pystr) : Prop :=
  all_space w1 /\ all_space w2 /\
  c = u "---" ++ w1 ++ [nl] ++ mid ++ [nl] ++ u "---" ++ w2 ++ [nl] ++ rest.

(** The leading block of a text, as the pattern takes it: among all the
    ways to read the text as a block and a rest, the one with the longest
    white space after the opening dashes, then the shortest text between
    the dashed lines, then the longest white space after the closing
    dashes. *)
Definition leading_block (c fm rest : pystr) : Prop :=
  exists w1 mid w2,
    block_parts c w1 mid w2 rest /\
    fm = u "---" ++ w1 ++ [nl] ++ mid ++ [nl] ++ u "---" ++ w2 ++ [nl] /\
    forall w1' mid' w2' rest',
      block_parts c w1' mid' w2' rest' ->
      (length w1' < length w1)%nat \/
      (length w1' = length w1 /\
       ((length mid < length mid')%nat \/
        (length mid' = length mid /\ (length w2' <= length w2)%nat))).

(** What the removal takes from a text [s]: [removed] starts at the
    leftmost place from which the removal pattern matches through to the
    end of [s], the character before a place being the last one of the
    text before it; [kept] is the text before that place, and all of [s]
    when there is no such place. *)
Definition removed_footer `{UnicodeData} (s kept removed : pystr) : Prop :=
  s = kept ++ removed /\
  ((removed = [] /\
    forall a t p', s = a ++ t -> ~ matches EU_BLOCK_REMOVE_RE (last a) t p' []) \/
   ((exists p', matches EU_BLOCK_REMOVE_RE (last kept) removed p' []) /\
    forall a t p', kept = a ++ t -> t <> [] ->
      ~ matches EU_BLOCK_REMOVE_RE (last a) (t ++ removed) p' [])).

(** The row of the welcome page, for examples. *)
Definition welcome_row : row :=
  {| page_id := u "00000000_en"; title := u "00 Welcome"; layout := None;
     lang_code := None; parent_id := None; has_children := None;
     display_order := None |}.

(** ** Proof steps shared by the front-matter results *)

(** The cases of the parent and grandparent resolution. *)
Ltac frontmatter_cases pid titles parents hc :=
  unfold base_entries;
  destruct (truthy pid) eqn:Hpid;
  [ destruct (resolved_title titles pid) as [pt|] eqn:Hpt;
    [ cbv zeta;
      destruct (truthy (clean_str (VStr (get_or_empty parents pid)) [])) eqn:Hgp;
      [ destruct (resolved_title titles
                    (clean_str (VStr (get_or_empty parents pid)) []))
          as [gt|] eqn:Hgt | ] | ] | ];
  destruct hc.

(** From a lookup that succeeded to the entry it found, by the lemma
    [lem] that a found entry is in the list. *)
Ltac open_entries lem H :=
  apply lem in H; simpl in H;
  repeat match type of H with _ \/ _ => destruct H as [H|H] end;
  try done; try (inversion H; subst; clear H).

(** * The matcher and what a pattern matches *)

Section RegexTheory.
Context `{UnicodeData}.

Lemma star_greedy_sound cs k p s a :
  star_greedy cs k p s = Some a ->
  exists p' s', matches (Star cs) p s p' s' /\ k p' s' = Some a.
Proof.
  revert p. induction s as [|c s IH]; intros p Hr; simpl in Hr.
  - exists p, []. split; [constructor | done].
  - destruct (cs c) eqn:Hc.
    + destruct (star_greedy cs k (Some c) s) eqn:Hg.
      * inversion Hr; subst. destruct (IH _ Hg) as (p' & s' & Hm & Hk).
        exists p', s'. split; [by apply M_StarCons | done].
      * exists p, (c :: s). split; [constructor | done].
    + exists p, (c :: s). split; [constructor | done].
Qed.

Lemma star_lazy_sound cs k p s a :
  star_lazy cs k p s = Some a ->
  exists p' s', matches (StarLazy cs) p s p' s' /\ k p' s' = Some a.
Proof.
  revert p. induction s as [|c s IH]; intros p Hr; simpl in Hr.
  - destruct (k p []) eqn:Hk; [|done]. inversion Hr; subst.
    exists p, []. split; [constructor | done].
  - destruct (k p (c :: s)) eqn:Hk.
    + inversion Hr; subst. exists p, (c :: s). split; [constructor | done].
    + destruct (cs c) eqn:Hc; [|done].
      destruct (IH _ Hr) as (p' & s' & Hm & Hk').
      exists p', s'. split; [by apply M_LazyCons | done].
Qed.

Lemma rep_greedy_sound cs n k p s a :
  rep_greedy cs n k p s = Some a ->
  exists p' s', matches (Rep cs n) p s p' s' /\ k p' s' = Some a.
Proof.
  revert p s. induction n as [|n IH]; intros p s Hr; simpl in Hr.
  - exists p, s. split; [constructor | done].
  - destruct s as [|c s]; [exists p, []; split; [constructor | done]|].
    destruct (cs c) eqn:Hc.
    + destruct (rep_greedy cs n k (Some c) s) eqn:Hg.
      * inversion Hr; subst. destruct (IH _ _ Hg) as (p' & s' & Hm & Hk).
        exists p', s'. split; [by apply M_RepCons | done].
      * exists p, (c :: s). split; [constructor | done].
    + exists p, (c :: s). split; [constructor | done].
Qed.

Lemma run_sound r : forall k p s a,
  run r k p s = Some a ->
  exists p' s', matches r p s p' s' /\ k p' s' = Some a.
Proof.
  induction r; intros k p s a Hr; simpl in Hr.
  - exists p, s. split; [constructor | done].
  - destruct s as [|c s]; [done|]. destruct (cs c) eqn:Hc; [|done].
    exists (Some c), s. split; [by constructor | done].
  - destruct (IHr1 _ _ _ _ Hr) as (p1 & s1 & Hm1 & Hk1).
    destruct (IHr2 _ _ _ _ Hk1) as (p2 & s2 & Hm2 & Hk2).
    exists p2, s2. split; [by eapply M_Seq | done].
  - destruct (run r1 k p s) eqn:H1.
    + inversion Hr; subst. destruct (IHr1 _ _ _ _ H1) as (p' & s' & Hm & Hk).
      exists p', s'. split; [by apply M_AltL | done].
    + destruct (IHr2 _ _ _ _ Hr) as (p' & s' & Hm & Hk).
      exists p', s'. split; [by apply M_AltR | done].
  - destruct (run r k p s) eqn:H1.
    + inversion Hr; subst. destruct (IHr _ _ _ _ H1) as (p' & s' & Hm & Hk).
      exists p', s'. split; [by apply M_OptSome | done].
    + exists p, s. split; [apply M_OptNone | done].
  - by apply star_greedy_sound.
  - by apply star_lazy_sound.
  - by apply rep_greedy_sound.
  - destruct p; [done|]. exists None, s. split; [constructor | done].
  - destruct s; [|done]. exists p, []. split; [constructor | done].
  - destruct (word_boundary p s) eqn:Hb; [|done].
    exists p, s. split; [by constructor | done].
  - destruct (run r (fun _ s' => Some s') p s) eqn:H1; [|done].
    destruct (IHr _ _ _ _ H1) as (p' & s' & Hm & _).
    exists p, s. split; [by eapply M_Ahead | done].
Qed.

Lemma star_greedy_complete cs k p s p' s' :
  matches (Star cs) p s p' s' -> is_Some (k p' s') ->
  is_Some (star_greedy cs k p s).
Proof.
  intros Hm Hk. remember (Star cs) as r eqn:Er.
  induction Hm; inversion Er; subst.
  - destruct s as [|c s]; simpl; [done|].
    destruct (cs c); [|done]. destruct (star_greedy cs k (Some c) s); [eauto | done].
  - simpl. match goal with Hc : _ = true |- _ => rewrite Hc end.
    destruct (IHHm eq_refl Hk) as [a ->]. eauto.
Qed.

Lemma star_lazy_complete cs k p s p' s' :
  matches (StarLazy cs) p s p' s' -> is_Some (k p' s') ->
  is_Some (star_lazy cs k p s).
Proof.
  intros Hm Hk. remember (StarLazy cs) as r eqn:Er.
  induction Hm; inversion Er; subst.
  - destruct Hk as [a Hk]. destruct s; simpl; rewrite Hk; eauto.
  - simpl. destruct (k p (c :: s)); [eauto|].
    match goal with Hc : _ = true |- _ => rewrite Hc end. by apply IHHm.
Qed.

Lemma rep_greedy_complete cs n k p s p' s' :
  matches (Rep cs n) p s p' s' -> is_Some (k p' s') ->
  is_Some (rep_greedy cs n k p s).
Proof.
  intros Hm Hk. remember (Rep cs n) as r eqn:Er. revert n Er.
  induction Hm; intros m Er; inversion Er; subst.
  - destruct m; simpl; [done|]. destruct s as [|c s]; [done|].
    destruct (cs c); [|done]. destruct (rep_greedy cs m k (Some c) s); [eauto | done].
  - simpl. match goal with Hc : _ = true |- _ => rewrite Hc end.
    destruct (IHHm Hk n eq_refl) as [a ->]. eauto.
Qed.

Lemma matches_chr_inv cs p s p' s' :
  matches (Chr cs) p s p' s' -> cs (default 0 p') = true /\ s = default 0 p' :: s' /\ is_Some p'.
Proof. inversion 1; subst; simpl; eauto. Qed.

Lemma matches_seq_inv r1 r2 p s p' s' :
  matches (Seq r1 r2) p s p' s' ->
  exists p1 s1, matches r1 p s p1 s1 /\ matches r2 p1 s1 p' s'.
Proof. inversion 1; subst; eauto. Qed.

Lemma matches_alt_inv r1 r2 p s p' s' :
  matches (Alt r1 r2) p s p' s' -> matches r1 p s p' s' \/ matches r2 p s p' s'.
Proof. inversion 1; subst; eauto. Qed.

Lemma matches_opt_inv r p s p' s' :
  matches (Opt r) p s p' s' -> matches r p s p' s' \/ (p' = p /\ s' = s).
Proof. inversion 1; subst; eauto. Qed.

Lemma matches_bos_inv p s p' s' :
  matches Bos p s p' s' -> p = None /\ p' = None /\ s' = s.
Proof. inversion 1; subst; eauto. Qed.

Lemma matches_eos_inv p s p' s' :
  matches Eos p s p' s' -> s = [] /\ p' = p /\ s' = [].
Proof. inversion 1; subst; eauto. Qed.

Lemma matches_wordb_inv p s p' s' :
  matches WordB p s p' s' -> word_boundary p s = true /\ p' = p /\ s' = s.
Proof. inversion 1; subst; eauto. Qed.

Lemma matches_ahead_inv r p s p' s' :
  matches (Ahead r) p s p' s' ->
  p' = p /\ s' = s /\ exists p1 s1, matches r p s p1 s1.
Proof. inversion 1; subst; eauto. Qed.

Lemma run_complete r : forall k p s p' s',
  matches r p s p' s' -> is_Some (k p' s') -> is_Some (run r k p s).
Proof.
  induction r; intros k p s p' s' Hm Hk; simpl.
  - inversion Hm; subst. done.
  - apply matches_chr_inv in Hm as (Hc & -> & [c ->]). simpl in *. by rewrite Hc.
  - apply matches_seq_inv in Hm as (p1 & s1 & Hm1 & Hm2).
    eapply IHr1; [done|]. by eapply IHr2.
  - apply matches_alt_inv in Hm as [Hm|Hm].
    + destruct (IHr1 _ _ _ _ _ Hm Hk) as [a ->]. eauto.
    + destruct (run r1 k p s); [eauto|]. by eapply IHr2.
  - apply matches_opt_inv in Hm as [Hm|[-> ->]].
    + destruct (IHr _ _ _ _ _ Hm Hk) as [a ->]. eauto.
    + destruct (run r k p s); [eauto | done].
  - by eapply star_greedy_complete.
  - by eapply star_lazy_complete.
  - by eapply rep_greedy_complete.
  - apply matches_bos_inv in Hm as (-> & -> & ->). done.
  - apply matches_eos_inv in Hm as (-> & -> & ->). done.
  - apply matches_wordb_inv in Hm as (Hb & -> & ->). by rewrite Hb.
  - apply matches_ahead_inv in Hm as (-> & -> & p1 & s1 & Hm).
    assert (is_Some (run r (fun _ s' => Some s') p s)) as [a ->]
      by (eapply IHr; [done | eauto]).
    done.
Qed.


(** A match reads a part of the text, from the left. *)
Lemma matches_split r p s p' s' :
  matches r p s p' s' -> exists w, s = w ++ s'.
Proof.
  induction 1;
    repeat match goal with H : exists _, _ |- _ => destruct H as [? ->] end;
    first [ by exists []
          | by eexists [_]
          | by eexists
          | by eexists (_ :: _)
          | eexists (_ ++ _); by rewrite <- app_assoc ].
Qed.

Lemma matches_star_inv cs p s p' s' :
  matches (Star cs) p s p' s' ->
  exists w, s = w ++ s' /\ Forall (fun c => cs c = true) w.
Proof.
  intros Hm. remember (Star cs) as r eqn:Er.
  induction Hm; inversion Er; subst.
  - by exists [].
  - destruct (IHHm eq_refl) as (w & -> & Hw). exists (c :: w). split; [done|].
    by constructor.
Qed.

Lemma matches_lazy_inv cs p s p' s' :
  matches (StarLazy cs) p s p' s' ->
  exists w, s = w ++ s' /\ Forall (fun c => cs c = true) w.
Proof.
  intros Hm. remember (StarLazy cs) as r eqn:Er.
  induction Hm; inversion Er; subst.
  - by exists [].
  - destruct (IHHm eq_refl) as (w & -> & Hw). exists (c :: w). split; [done|].
    by constructor.
Qed.

(** [cat] is sequencing. *)
Lemma matches_cat_cons r rs p s p1 s1 p' s' :
  matches r p s p1 s1 -> matches (cat rs) p1 s1 p' s' ->
  matches (cat (r :: rs)) p s p' s'.
Proof.
  intros H1 H2. destruct rs as [|r2 rs].
  - simpl in *. inversion H2; subst. done.
  - change (cat (r :: r2 :: rs)) with (Seq r (cat (r2 :: rs))). by eapply M_Seq.
Qed.

Lemma matches_cat_cons_inv r rs p s p' s' :
  matches (cat (r :: rs)) p s p' s' ->
  exists p1 s1, matches r p s p1 s1 /\ matches (cat rs) p1 s1 p' s'.
Proof.
  destruct rs as [|r2 rs].
  - simpl. intros Hm. exists p', s'. split; [done | constructor].
  - change (cat (r :: r2 :: rs)) with (Seq r (cat (r2 :: rs))).
    apply matches_seq_inv.
Qed.

Lemma matches_cat_nil_inv p s p' s' :
  matches (cat []) p s p' s' -> p' = p /\ s' = s.
Proof. simpl. inversion 1; subst; done. Qed.

Lemma matches_cat_app rs1 rs2 p s p1 s1 p' s' :
  matches (cat rs1) p s p1 s1 -> matches (cat rs2) p1 s1 p' s' ->
  matches (cat (rs1 ++ rs2)) p s p' s'.
Proof.
  revert p s. induction rs1 as [|r rs1 IH]; intros p s H1 H2.
  - apply matches_cat_nil_inv in H1 as [-> ->]. done.
  - apply matches_cat_cons_inv in H1 as (p2 & s2 & Hr & Hrs).
    simpl app. eapply matches_cat_cons; [done|]. by eapply IH.
Qed.

(** Literals. *)
Lemma matches_literal (f : N -> N -> bool) l p t :
  Forall (fun a => f a a = true) l ->
  l <> [] ->
  matches (cat (map (fun a => Chr (f a)) l)) p (l ++ t) (last l) t.
Proof.
  intros Hl. revert p. induction Hl as [|a l Ha Hl IH]; intros p Hne; [done|].
  destruct l as [|b l].
  - simpl. by constructor.
  - change (map _ (a :: b :: l)) with (Chr (f a) :: map (fun a => Chr (f a)) (b :: l)).
    eapply matches_cat_cons; [by apply M_Chr|].
    change (last (a :: b :: l)) with (last (b :: l)). by apply IH.
Qed.

Lemma matches_literal_inv (f : N -> N -> bool) l p s p' s' :
  matches (cat (map (fun a => Chr (f a)) l)) p s p' s' ->
  exists w, s = w ++ s' /\ Forall2 (fun a c => f a c = true) l w.
Proof.
  revert p s. induction l as [|a l IH]; intros p s Hm.
  - apply matches_cat_nil_inv in Hm as [-> ->]. by exists [].
  - change (map _ (a :: l)) with (Chr (f a) :: map (fun a => Chr (f a)) l) in Hm.
    apply matches_cat_cons_inv in Hm as (p1 & s1 & Hc & Hm).
    apply matches_chr_inv in Hc as (Hc & -> & [c ->]). simpl in Hc.
    destruct (IH _ _ Hm) as (w & -> & Hw).
    exists (c :: w). split; [done | by constructor].
Qed.

Lemma Forall2_chr_is l w :
  Forall2 (fun a c => chr_is a c = true) l w -> w = l.
Proof.
  induction 1 as [|a c l w Hac _ IH]; [done|].
  unfold chr_is in Hac. apply N.eqb_eq in Hac. by subst.
Qed.

Lemma matches_lit_inv str p s p' s' :
  matches (lit str) p s p' s' -> s = u str ++ s'.
Proof.
  intros Hm. apply matches_literal_inv in Hm as (w & -> & Hw).
  by rewrite (Forall2_chr_is _ _ Hw).
Qed.

Lemma matches_lazy_any p t : exists p', matches (StarLazy any) p t p' [].
Proof.
  revert p. induction t as [|c t IH]; intros p.
  - exists p. constructor.
  - destruct (IH (Some c)) as [p' Hm]. exists p'. by apply M_LazyCons.
Qed.

Lemma nullable_matches r p s : nullable r = true -> matches r p s p s.
Proof.
  induction r; simpl; intros Hn; try done; try by constructor.
  - apply andb_true_iff in Hn as [H1 H2]. eapply M_Seq; eauto.
  - apply orb_true_iff in Hn as [H1|H2]; [apply M_AltL | apply M_AltR]; eauto.
Qed.

End RegexTheory.

(** * The footer removal *)

(** Stripping. *)
Lemma rstrip_by_split f s :
  exists w, s = rstrip_by f s ++ w /\ Forall (fun c => f c = true) w.
Proof.
  induction s as [|c s (w & Hs & Hw)]; [by exists []|].
  simpl. destruct (rstrip_by f s) as [|d t] eqn:Hr.
  - simpl in Hs. subst s. destruct (f c) eqn:Hc.
    + exists (c :: w). split; [done | by constructor].
    + by exists w.
  - exists w. split; [by rewrite Hs at 1 | done].
Qed.

Lemma rstrip_by_last f s :
  match last (rstrip_by f s) with Some c => f c = false | None => True end.
Proof.
  induction s as [|c s IH]; [done|].
  simpl. destruct (rstrip_by f s) as [|d t] eqn:Hr.
  - destruct (f c) eqn:Hc; simpl; done.
  - change (last (c :: d :: t)) with (last (d :: t)). done.
Qed.

Section Footer.
Context `{UnicodeData}.

Lemma search_Some_inv r : forall s p sk rest,
  search r false p s = Some (sk, rest) ->
  exists mid p1,
    s = sk ++ mid /\
    run r (accept false mid) p1 mid = Some rest /\
    forall a b, sk = a ++ b -> b <> [] ->
      exists p2, run r (accept false (b ++ mid)) p2 (b ++ mid) = None.
Proof.
  induction s as [|c s IH]; intros p sk rest Hs; simpl in Hs.
  - destruct (run r (accept false []) p []) eqn:Hr; [|done].
    inversion Hs; subst. exists [], p. split; [done|]. split; [done|].
    intros a b Hab Hb. destruct a; [|done]. destruct b; done.
  - destruct (run r (accept false (c :: s)) p (c :: s)) eqn:Hr.
    + inversion Hs; subst. exists (c :: s), p. split; [done|]. split; [done|].
      intros a b Hab Hb. destruct a; [|done]. destruct b; done.
    + destruct (search r false (Some c) s) as [[sk' rest']|] eqn:Hs'; [|done].
      inversion Hs; subst.
      destruct (IH _ _ _ Hs') as (mid & p1 & -> & Hrun & Hno).
      exists mid, p1. split; [done|]. split; [done|].
      intros a b Hab Hb. destruct a as [|a0 a].
      * simpl in Hab. subst b. exists p. done.
      * inversion Hab; subst. by apply (Hno a b).
Qed.

Lemma search_None_inv r : forall s p,
  search r false p s = None ->
  forall a b, s = a ++ b -> exists p2, run r (accept false b) p2 b = None.
Proof.
  induction s as [|c s IH]; intros p Hs a b Hab; simpl in Hs.
  - destruct a, b; try done. exists p.
    by destruct (run r (accept false []) p []).
  - destruct (run r (accept false (c :: s)) p (c :: s)) eqn:Hr; [done|].
    destruct (search r false (Some c) s) as [[sk' rest']|] eqn:Hs'; [done|].
    destruct a as [|a0 a].
    + simpl in Hab. subst b. by exists p.
    + inversion Hab; subst. by eapply IH.
Qed.

(** Every alternative of the removal pattern ends at the end of the text. *)
Lemma matches_to_end rs p s p' s' :
  matches (cat (rs ++ [Ahead Eos])) p s p' s' -> s' = [].
Proof.
  revert p s. induction rs as [|r rs IH]; intros p s Hm.
  - simpl in Hm. apply matches_ahead_inv in Hm as (-> & -> & p1 & s1 & Hm).
    by apply matches_eos_inv in Hm as (-> & _).
  - simpl app in Hm. apply matches_cat_cons_inv in Hm as (p1 & s1 & _ & Hm).
    by eapply IH.
Qed.

Lemma removal_matches_to_end p s p' s' :
  matches EU_BLOCK_REMOVE_RE p s p' s' -> s' = [].
Proof.
  intros Hm. apply matches_alt_inv in Hm as [Hm|Hm];
    [|apply matches_alt_inv in Hm as [Hm|Hm]].
  - by apply (matches_to_end [rule_before; marker_re; StarLazy any]) in Hm.
  - by apply (matches_to_end
        [rule_before; liti "<table"; WordB; StarLazy any; image_re;
         StarLazy any; liti "</table>"; Star isspace]) in Hm.
  - by apply (matches_to_end
        [rule_before; liti "<div"; WordB; StarLazy any; image_re;
         StarLazy any; liti "</div>"; Star isspace]) in Hm.
Qed.

(** The removal pattern matches no empty text. *)
Lemma search_removal_nil adv p : search EU_BLOCK_REMOVE_RE adv p [] = None.
Proof. reflexivity. Qed.


Lemma matches_liti str p t :
  forallb (fun a => chr_ci a a) (u str) = true -> u str <> [] ->
  matches (liti str) p (u str ++ t) (last (u str)) t.
Proof.
  intros Hf Hne. apply (matches_literal chr_ci); [|done].
  apply Forall_forall. intros a Ha. apply list_elem_of_In in Ha.
  rewrite forallb_forall in Hf. by apply Hf.
Qed.

Lemma matches_one_space p t : matches (Star isspace) p (32 :: t) (Some 32) t.
Proof. apply M_StarCons; [reflexivity | apply M_StarNil]. Qed.

Lemma marker_re_matches p t :
  exists p', matches marker_re p (EU_BLOCK_MARKER ++ t) p' t.
Proof.
  eexists. unfold marker_re.
  change (EU_BLOCK_MARKER ++ t)
    with (u "<!--" ++ 32 :: u "EU_FUNDING_FOOTER" ++ 32 :: u "-->" ++ t).
  eapply matches_cat_cons; [by apply matches_liti|].
  eapply matches_cat_cons; [apply matches_one_space|].
  eapply matches_cat_cons; [by apply matches_liti|].
  eapply matches_cat_cons; [apply matches_one_space|].
  by apply matches_liti.
Qed.

(** Wherever the marker stands, the removal pattern matches from there. *)
Lemma removal_matches_marker p t :
  exists p', matches EU_BLOCK_REMOVE_RE p (EU_BLOCK_MARKER ++ t) p' [].
Proof.
  destruct (marker_re_matches p t) as [p1 Hm].
  destruct (matches_lazy_any p1 t) as [p2 Hl].
  exists p2. apply M_AltL. unfold footer_marker_alt.
  eapply matches_cat_cons; [by apply nullable_matches|].
  eapply matches_cat_cons; [exact Hm|].
  eapply matches_cat_cons; [exact Hl|].
  simpl. eapply M_Ahead. apply M_Eos.
Qed.

Lemma removal_runs_at_marker p t :
  is_Some (run EU_BLOCK_REMOVE_RE (accept false (EU_BLOCK_MARKER ++ t)) p
             (EU_BLOCK_MARKER ++ t)).
Proof.
  destruct (removal_matches_marker p t) as [p' Hm].
  eapply run_complete; [exact Hm | by eexists].
Qed.

(** The substitution cuts the text at the leftmost match, if there is one. *)
Lemma removal_sub_cases s :
  (re_sub EU_BLOCK_REMOVE_RE [] s = s /\
   forall a b, s = a ++ b ->
     exists p2, run EU_BLOCK_REMOVE_RE (accept false b) p2 b = None) \/
  (exists sk mid p1 p',
     s = sk ++ mid /\ re_sub EU_BLOCK_REMOVE_RE [] s = sk /\
     matches EU_BLOCK_REMOVE_RE p1 mid p' [] /\
     forall a b, sk = a ++ b -> b <> [] ->
       exists p2, run EU_BLOCK_REMOVE_RE (accept false (b ++ mid)) p2 (b ++ mid)
                  = None).
Proof.
  unfold re_sub.
  replace (2 * length s + 2)%nat with (S (S (2 * length s))) by lia.
  cbn [sub_loop].
  destruct (search EU_BLOCK_REMOVE_RE false None s) as [[sk rest]|] eqn:Hs.
  - right.
    destruct (search_Some_inv _ _ _ _ _ Hs) as (mid & p1 & -> & Hrun & Hno).
    apply run_sound in Hrun as (p' & s' & Hm & Hacc).
    pose proof (removal_matches_to_end _ _ _ _ Hm) as ->.
    unfold accept in Hacc. simpl in Hacc. inversion Hacc; subst rest.
    exists sk, mid, p1, p'. split; [done|]. split; [|done].
    rewrite search_removal_nil. simpl. by rewrite app_nil_r.
  - left. split; [done|]. intros a b Hab. by eapply search_None_inv.
Qed.

Lemma removal_sub s :
  exists sk mid,
    s = sk ++ mid /\ re_sub EU_BLOCK_REMOVE_RE [] s = sk /\
    forall a b, sk = a ++ b -> b <> [] ->
      exists p2, run EU_BLOCK_REMOVE_RE (accept false (b ++ mid)) p2 (b ++ mid) = None.
Proof.
  destruct (removal_sub_cases s)
    as [[Hs Hno]|(sk & mid & p1 & p' & -> & Hs & _ & Hno)].
  - exists s, []. split; [by rewrite app_nil_r|]. split; [done|].
    intros a b -> _. rewrite app_nil_r. by apply (Hno a b).
  - by exists sk, mid.
Qed.

Lemma removal_leaves_no_marker s a c :
  re_sub EU_BLOCK_REMOVE_RE [] s <> a ++ EU_BLOCK_MARKER ++ c.
Proof.
  destruct (removal_sub s) as (sk & mid & _ & -> & Hno). intros ->.
  destruct (Hno a (EU_BLOCK_MARKER ++ c) eq_refl) as [p2 Hrun]; [done|].
  rewrite <- app_assoc in Hrun.
  destruct (removal_runs_at_marker p2 (c ++ mid)) as [x Hx]. congruence.
Qed.

Lemma removal_sub_prefix s : exists mid, s = re_sub EU_BLOCK_REMOVE_RE [] s ++ mid.
Proof. destruct (removal_sub s) as (sk & mid & -> & -> & _). by exists mid. Qed.

End Footer.

(** * The footer stands once *)

Lemma occurs_at_decompose pat s i :
  pat <> [] -> occurs_at pat s i ->
  exists a c, s = a ++ pat ++ c /\ length a = i.
Proof.
  unfold occurs_at. intros Hne Ho.
  exists (take i s), (drop (length pat) (drop i s)).
  split.
  - rewrite <- Ho at 1. by rewrite !take_drop.
  - rewrite length_take. destruct (decide (i <= length s)%nat); [lia|].
    rewrite drop_ge in Ho by lia. rewrite take_nil in Ho. by subst.
Qed.

Lemma occurs_at_compose pat a c : occurs_at pat (a ++ pat ++ c) (length a).
Proof. unfold occurs_at. by rewrite drop_app_length, take_app_length. Qed.

Lemma occurs_atb_spec pat s i : occurs_atb pat s i = true <-> occurs_at pat s i.
Proof. unfold occurs_atb, pystr_eqb, occurs_at. apply bool_decide_eq_true. Qed.

(** Where a marker can stand in a text that ends with two line breaks
    and a block, when the text before holds none. *)
Lemma occurrence_after_body (marker block : pystr) (m0 : N) (mt : pystr) :
  marker = m0 :: mt -> m0 <> nl -> nl ∉ marker ->
  (forall l c, block = l ++ marker ++ c -> l = []) ->
  forall X a c,
    (forall a' c', X <> a' ++ marker ++ c') ->
    X ++ [nl; nl] ++ block = a ++ marker ++ c ->
    length a = (length X + 2)%nat.
Proof.
  intros Hm Hm0 Hnl Hblock X a c HX Heq.
  apply app_eq_app in Heq as [l [[-> Heq]|[-> Heq]]].
  - (* the occurrence starts inside the body *)
    exfalso. symmetry in Heq.
    apply app_eq_app in Heq as [l' [[-> Heq]|[Hmk Heq]]].
    + by apply (HX a l').
    + destruct l' as [|x l'].
      * rewrite app_nil_r in Hmk. subst l. apply (HX a []). by rewrite app_nil_r.
      * simpl in Heq. inversion Heq; subst x. apply Hnl. rewrite Hmk.
        apply elem_of_app. right. by left.
  - (* the occurrence starts after the body *)
    rewrite length_app. destruct l as [|x [|y l]].
    + exfalso. rewrite Hm in Heq. simpl in Heq. inversion Heq. by apply Hm0.
    + exfalso. rewrite Hm in Heq. simpl in Heq. inversion Heq. by apply Hm0.
    + simpl in Heq. inversion Heq as [[Hx Hy Hb]].
      apply Hblock in Hb as ->. simpl. lia.
Qed.

Lemma marker_head : EU_BLOCK_MARKER = 60 :: drop 1 EU_BLOCK_MARKER.
Proof. reflexivity. Qed.

Lemma marker_no_nl : nl ∉ EU_BLOCK_MARKER.
Proof.
  intros Hin. apply list_elem_of_In in Hin.
  assert (existsb (N.eqb nl) EU_BLOCK_MARKER = true) as Hex.
  { apply existsb_exists. exists nl. split; [done | apply N.eqb_refl]. }
  vm_compute in Hex. discriminate.
Qed.

Lemma block_starts_with_marker :
  EU_FUNDING_BLOCK = EU_BLOCK_MARKER ++ drop (length EU_BLOCK_MARKER) EU_FUNDING_BLOCK.
Proof. reflexivity. Qed.

Lemma marker_prefix_of_block :
  take (length EU_BLOCK_MARKER) EU_FUNDING_BLOCK = EU_BLOCK_MARKER.
Proof. reflexivity. Qed.

Lemma block_marker_first l c :
  EU_FUNDING_BLOCK = l ++ EU_BLOCK_MARKER ++ c -> l = [].
Proof.
  intros Heq. destruct l as [|x l]; [done|]. exfalso.
  pose proof (occurs_at_compose EU_BLOCK_MARKER (x :: l) c) as Ho.
  rewrite <- Heq in Ho. apply occurs_atb_spec in Ho.
  assert (forallb (fun i => negb (occurs_atb EU_BLOCK_MARKER EU_FUNDING_BLOCK i))
            (seq 1 (length EU_FUNDING_BLOCK)) = true) as Hall
    by (vm_compute; reflexivity).
  rewrite forallb_forall in Hall.
  specialize (Hall (length (x :: l))). rewrite Ho in Hall.
  assert (In (length (x :: l)) (seq 1 (length EU_FUNDING_BLOCK))) as Hin.
  { apply in_seq. rewrite Heq. rewrite !length_app. simpl. lia. }
  specialize (Hall Hin). discriminate.
Qed.

Section FooterOnce.
Context `{UnicodeData}.

Lemma ensure_eu_block_at_end_eq b :
  ensure_eu_block_at_end b =
  rstrip (re_sub EU_BLOCK_REMOVE_RE [] (rstrip b)) ++ [nl; nl] ++ EU_FUNDING_BLOCK.
Proof. reflexivity. Qed.

Lemma normalized_body_no_marker b a c :
  rstrip (re_sub EU_BLOCK_REMOVE_RE [] (rstrip b)) <> a ++ EU_BLOCK_MARKER ++ c.
Proof.
  intros Heq.
  destruct (rstrip_by_split isspace (re_sub EU_BLOCK_REMOVE_RE [] (rstrip b)))
    as (w & Hs & _).
  fold (rstrip (re_sub EU_BLOCK_REMOVE_RE [] (rstrip b))) in Hs.
  rewrite Heq in Hs. rewrite <- !app_assoc in Hs.
  by apply removal_leaves_no_marker in Hs.
Qed.

Lemma normalized_body_prefix b :
  rstrip (re_sub EU_BLOCK_REMOVE_RE [] (rstrip b)) `prefix_of` b.
Proof.
  destruct (rstrip_by_split isspace (re_sub EU_BLOCK_REMOVE_RE [] (rstrip b)))
    as (w1 & H1 & _).
  destruct (removal_sub_prefix (rstrip b)) as (w2 & H2).
  destruct (rstrip_by_split isspace b) as (w3 & H3 & _).
  fold (rstrip b) in H3.
  fold (rstrip (re_sub EU_BLOCK_REMOVE_RE [] (rstrip b))) in H1.
  exists (w1 ++ w2 ++ w3).
  rewrite H3 at 1. rewrite H2 at 1. rewrite H1 at 1. by rewrite <- !app_assoc.
Qed.

(** In the normalized text the footer marker stands at one place only,
    the start of the footer block, and so does the block. *)
Lemma normalized_body_once (b : pystr) :
  let body := rstrip (re_sub EU_BLOCK_REMOVE_RE [] (rstrip b)) in
  (forall i, occurs_at EU_BLOCK_MARKER (body ++ [nl; nl] ++ EU_FUNDING_BLOCK) i
             <-> i = (length body + 2)%nat) /\
  (forall i, occurs_at EU_FUNDING_BLOCK (body ++ [nl; nl] ++ EU_FUNDING_BLOCK) i
             <-> i = (length body + 2)%nat).
Proof.
  intros body.
  assert (forall i, occurs_at EU_BLOCK_MARKER (body ++ [nl; nl] ++ EU_FUNDING_BLOCK) i
                    <-> i = (length body + 2)%nat) as Hmarker.
  { intros i. split.
    - intros Ho. apply occurs_at_decompose in Ho as (a & c & Heq & <-); [|done].
      eapply (occurrence_after_body EU_BLOCK_MARKER EU_FUNDING_BLOCK);
        [apply marker_head | done | apply marker_no_nl | apply block_marker_first
        | apply normalized_body_no_marker | exact Heq].
    - intros ->. rewrite block_starts_with_marker.
      replace (length body + 2)%nat with (length (body ++ [nl; nl]))
        by (rewrite length_app; simpl; lia).
      rewrite (app_assoc body [nl; nl]). apply occurs_at_compose. }
  split; [done|].
  intros i. split.
  - intros Ho. apply Hmarker. unfold occurs_at in *.
    apply (f_equal (take (length EU_BLOCK_MARKER))) in Ho.
    rewrite take_take in Ho.
    etransitivity; [|apply marker_prefix_of_block].
    etransitivity; [|exact Ho]. f_equal.
  - intros ->.
    replace (length body + 2)%nat with (length (body ++ [nl; nl]))
      by (rewrite length_app; simpl; lia).
    rewrite (app_assoc body [nl; nl]).
    pose proof (occurs_at_compose EU_FUNDING_BLOCK (body ++ [nl; nl]) []) as Ho.
    by rewrite app_nil_r in Ho.
Qed.

End FooterOnce.

(** * When a second pass changes nothing *)

(** Under IGNORECASE a character that is no letter matches itself only. *)
Lemma chr_ci_symbol a c : a < 65 -> chr_ci a c = true -> c = a.
Proof.
  intros Ha. unfold chr_ci, sre_lower, ci_fixes, lower_char, is_upper_ascii.
  assert ((a =? 304) = false) as -> by (apply N.eqb_neq; lia).
  assert ((a =? 8490) = false) as -> by (apply N.eqb_neq; lia).
  assert ((65 <=? a) && (a <=? 90) = false) as ->
    by (apply andb_false_iff; left; apply N.leb_gt; lia).
  assert ((a =? 105) = false) as -> by (apply N.eqb_neq; lia).
  assert ((a =? 115) = false) as -> by (apply N.eqb_neq; lia).
  simpl. rewrite orb_false_r.
  destruct (c =? 304) eqn:E1; [intros Hc; apply N.eqb_eq in Hc; lia|].
  destruct (c =? 8490) eqn:E2; [intros Hc; apply N.eqb_eq in Hc; lia|].
  destruct ((65 <=? c) && (c <=? 90)) eqn:E3.
  - apply andb_true_iff in E3 as [Hl Hu]. apply N.leb_le in Hl, Hu.
    intros Hc. apply N.eqb_eq in Hc. lia.
  - intros Hc. by apply N.eqb_eq in Hc.
Qed.

Lemma chr_ci_lt c : chr_ci 60 c = true -> c = 60.
Proof. by apply chr_ci_symbol. Qed.

Lemma chr_ci_dash c : chr_ci 45 c = true -> c = 45.
Proof. by apply chr_ci_symbol. Qed.

Section Stable.
Context {U : UnicodeData}.

(** A literal under IGNORECASE that starts with [<] reads a [<]. *)
Lemma matches_liti_lt_inv str p s p' s' :
  head (u str) = Some 60 ->
  matches (liti str) p s p' s' -> exists t, s = 60 :: t.
Proof.
  intros Hh Hm. apply matches_literal_inv in Hm as (w & -> & Hw).
  destruct (u str) as [|a l]; [done|]. simpl in Hh. inversion Hh; subst a.
  inversion Hw as [|? c ? w' Hc Hw']; subst. apply chr_ci_lt in Hc as ->.
  by eexists.
Qed.

(** What the removal pattern matches starts with rules and white space,
    then a [<]. *)
Lemma removal_match_shape p s p' s' :
  matches EU_BLOCK_REMOVE_RE p s p' s' ->
  exists p1 t, matches rule_before p s p1 (60 :: t).
Proof.
  intros Hm. apply matches_alt_inv in Hm as [Hm|Hm];
    [|apply matches_alt_inv in Hm as [Hm|Hm]].
  - unfold footer_marker_alt in Hm.
    apply matches_cat_cons_inv in Hm as (p1 & s1 & Hr & Hm).
    apply matches_cat_cons_inv in Hm as (p2 & s2 & Hk & _).
    unfold marker_re in Hk.
    apply matches_cat_cons_inv in Hk as (p3 & s3 & Hk & _).
    apply matches_liti_lt_inv in Hk as [t ->]; [|done]. eauto.
  - unfold footer_table_alt in Hm.
    apply matches_cat_cons_inv in Hm as (p1 & s1 & Hr & Hm).
    apply matches_cat_cons_inv in Hm as (p2 & s2 & Hk & _).
    apply matches_liti_lt_inv in Hk as [t ->]; [|done]. eauto.
  - unfold footer_div_alt in Hm.
    apply matches_cat_cons_inv in Hm as (p1 & s1 & Hr & Hm).
    apply matches_cat_cons_inv in Hm as (p2 & s2 & Hk & _).
    apply matches_liti_lt_inv in Hk as [t ->]; [|done]. eauto.
Qed.


Lemma matches_rep_inv cs n p s p' s' :
  matches (Rep cs n) p s p' s' ->
  exists w, s = w ++ s' /\ Forall (fun c => cs c = true) w.
Proof.
  intros Hm. remember (Rep cs n) as r eqn:Er. revert n Er.
  induction Hm; intros m Er; inversion Er; subst.
  - by exists [].
  - destruct (IHHm _ eq_refl) as (w & -> & Hw). exists (c :: w). split; [done|].
    by constructor.
Qed.

Lemma newlines_are_space w :
  Forall (fun c => chr_is nl c = true) w -> all_space w.
Proof.
  intros Hw. eapply Forall_impl; [exact Hw|]. intros c Hc. unfold chr_is in Hc.
  apply N.eqb_eq in Hc. by subst.
Qed.

Lemma all_space_app w1 w2 : all_space w1 -> all_space w2 -> all_space (w1 ++ w2).
Proof. apply Forall_app_2. Qed.

Lemma dashes_inv p s p' s' :
  matches (liti "---") p s p' s' -> s = [45; 45; 45] ++ s'.
Proof.
  intros Hm. apply matches_literal_inv in Hm as (w & -> & Hw).
  change (u "---") with [45; 45; 45] in Hw.
  inversion Hw as [|? c1 ? w1 H1 Hw1]; subst.
  inversion Hw1 as [|? c2 ? w2 H2 Hw2]; subst.
  inversion Hw2 as [|? c3 ? w3 H3 Hw3]; subst.
  inversion Hw3; subst.
  apply chr_ci_dash in H1 as ->. apply chr_ci_dash in H2 as ->.
  by apply chr_ci_dash in H3 as ->.
Qed.

Lemma rule_before_shape p s p1 s1 :
  matches rule_before p s p1 s1 -> exists w, s = w ++ s1 /\ rule_word w.
Proof.
  unfold rule_before. intros Hm.
  apply matches_cat_cons_inv in Hm as (pa & sa & Ha & Hm).
  apply matches_cat_cons_inv in Hm as (pb & sb & Hb & Hc).
  simpl in Hc. apply matches_star_inv in Hc as (wc & -> & Hwc).
  (* the first group *)
  assert (exists wa, s = wa ++ sa /\
            (all_space wa \/
             exists n sp, wa = n ++ [45; 45; 45] ++ sp /\ all_space n /\ all_space sp))
    as (wa & -> & Hwa).
  { apply matches_opt_inv in Ha as [Ha|[_ ->]];
      [|exists []; split; [done | left; constructor]].
    apply matches_seq_inv in Ha as (p2 & s2 & Hn & Ho).
    apply matches_rep_inv in Hn as (n & -> & Hn). apply newlines_are_space in Hn.
    apply matches_opt_inv in Ho as [Ho|[_ ->]];
      [|exists n; split; [done | by left]].
    apply matches_cat_cons_inv in Ho as (p3 & s3 & Hd & Ho).
    apply dashes_inv in Hd as ->.
    apply matches_cat_cons_inv in Ho as (p4 & s4 & Hs & Ho).
    apply matches_star_inv in Hs as (sp & -> & Hsp).
    simpl in Ho. apply matches_rep_inv in Ho as (n2 & -> & Hn2).
    apply newlines_are_space in Hn2.
    exists (n ++ [45; 45; 45] ++ sp ++ n2). split; [by rewrite <- !app_assoc|].
    right. exists n, (sp ++ n2). split; [done|]. split; [done|].
    by apply all_space_app. }
  (* the second group *)
  apply matches_opt_inv in Hb as [Hb|[_ <-]].
  - apply matches_cat_cons_inv in Hb as (p2 & s2 & Hs & Hb).
    apply matches_star_inv in Hs as (sp & -> & Hsp).
    apply matches_cat_cons_inv in Hb as (p3 & s3 & Hh & Hb).
    apply matches_literal_inv in Hh as (wh & -> & Hwh).
    apply matches_split in Hb as [wb ->].
    change (u "<hr") with [60; 104; 114] in Hwh.
    inversion Hwh as [|? c ? wh' Hc Hwh']; subst. apply chr_ci_lt in Hc as ->.
    exists (wa ++ sp ++ (60 :: wh') ++ wb ++ wc).
    split; [by rewrite <- !app_assoc|].
    exists (wa ++ sp), ((60 :: wh') ++ wb ++ wc).
    split; [by rewrite <- !app_assoc|].
    split; [right; by eexists|].
    + destruct Hwa as [Hwa|(n & sp' & -> & Hn & Hsp')].
      * left. by apply all_space_app.
      * right. exists n, (sp' ++ sp). split; [by rewrite <- !app_assoc|].
        split; [done|]. by apply all_space_app.
  - exists (wa ++ wc). split; [by rewrite <- !app_assoc|].
    exists (wa ++ wc), []. split; [by rewrite app_nil_r|]. split; [by left|].
    destruct Hwa as [Hwa|(n & sp' & -> & Hn & Hsp')].
    + left. by apply all_space_app.
    + right. exists n, (sp' ++ wc). split; [by rewrite <- !app_assoc|].
      split; [done|]. by apply all_space_app.
Qed.


Lemma first_occurrence_unique (x : N) (a r a' r' : pystr) :
  a ++ x :: r = a' ++ x :: r' -> x ∉ a -> x ∉ a' -> a = a'.
Proof.
  revert a'. induction a as [|c a IH]; intros [|c' a'] Heq Ha Ha'; simpl in Heq.
  - done.
  - inversion Heq; subst. exfalso. apply Ha'. by left.
  - inversion Heq; subst. exfalso. apply Ha. by left.
  - inversion Heq; subst. f_equal. apply IH; [done | |].
    + intros Hin. apply Ha. by right.
    + intros Hin. apply Ha'. by right.
Qed.

Lemma all_space_no_lt w : all_space w -> 60 ∉ w.
Proof.
  intros Hw Hin. unfold all_space in Hw. rewrite Forall_forall in Hw.
  specialize (Hw _ Hin). done.
Qed.

Lemma not_elem_of_dashes : 60 ∉ [45; 45; 45].
Proof.
  intros Hin. repeat (apply elem_of_cons in Hin as [Hin|Hin]; [done|]).
  by apply elem_of_nil in Hin.
Qed.

Lemma not_elem_of_breaks : 60 ∉ [nl; nl].
Proof.
  intros Hin. repeat (apply elem_of_cons in Hin as [Hin|Hin]; [done|]).
  by apply elem_of_nil in Hin.
Qed.

Lemma all_space_last w c : all_space w -> last w = Some c -> isspace c = true.
Proof.
  intros Hw Hl. unfold all_space in Hw. rewrite Forall_forall in Hw.
  apply Hw. apply last_Some_elem_of in Hl. done.
Qed.

(** A text with no [<] that stands before the footer, where the rule
    prefix of the pattern starts, ends with three dashes. *)
Lemma rule_word_before_footer (b' rest w t : pystr) :
  b' <> [] -> 60 ∉ b' -> right_trimmed b' -> rule_word w ->
  b' ++ [nl; nl] ++ 60 :: rest = w ++ 60 :: t ->
  exists pre, b' = pre ++ [45; 45; 45].
Proof.
  intros Hne Hlt Htrim (w1 & w2 & -> & Hw2 & Hw1) Heq.
  assert (exists r', b' ++ [nl; nl] ++ 60 :: rest = w1 ++ 60 :: r') as [r' Heq'].
  { destruct Hw2 as [->|[t' ->]].
    - exists t. by rewrite app_nil_r in Heq.
    - exists (t' ++ 60 :: t). rewrite Heq. by rewrite <- app_assoc. }
  clear Heq.
  assert (60 ∉ w1) as Hw1lt.
  { destruct Hw1 as [Hw1|(n & sp & -> & Hn & Hsp)].
    - by apply all_space_no_lt.
    - intros Hin. apply elem_of_app in Hin as [Hin|Hin];
        [by apply all_space_no_lt in Hin|].
      apply elem_of_app in Hin as [Hin|Hin]; [|by apply all_space_no_lt in Hin].
      by apply not_elem_of_dashes in Hin. }
  assert (b' ++ [nl; nl] = w1) as Hb.
  { rewrite (app_assoc b' [nl; nl]) in Heq'.
    eapply first_occurrence_unique; [exact Heq' | | done].
    intros Hin. apply elem_of_app in Hin as [Hin|Hin]; [done|].
    by apply not_elem_of_breaks in Hin. }
  clear Heq'.
  destruct (last b') as [c|] eqn:Hlast;
    [|by apply last_None in Hlast].
  unfold right_trimmed in Htrim. rewrite Hlast in Htrim.
  destruct Hw1 as [Hw1|(n & sp & -> & Hn & Hsp)].
  - exfalso. rewrite <- Hb in Hw1. apply Forall_app in Hw1 as [Hw1 _].
    rewrite (all_space_last _ _ Hw1 Hlast) in Htrim. done.
  - rewrite (app_assoc n) in Hb.
    apply app_eq_app in Hb as [l [[-> Hsp']|[Hnd Hl]]].
    + (* the body reaches into the white space after the dashes *)
      destruct (decide (l = [])) as [->|Hl].
      * exists n. by rewrite app_nil_r.
      * exfalso. assert (all_space l) as Hal.
        { rewrite Hsp' in Hsp. by apply Forall_app in Hsp as [Hsp _]. }
        destruct (last l) as [d|] eqn:Hd; [|by apply last_None in Hd].
        rewrite last_app, Hd in Hlast. inversion Hlast; subst d.
        rewrite (all_space_last _ _ Hal Hd) in Htrim. done.
    + (* the body ends inside or before the dashes *)
      destruct l as [|x [|y l]].
      * exists n. rewrite app_nil_r in Hnd. done.
      * exfalso. simpl in Hl. inversion Hl; subst x.
        apply (f_equal last) in Hnd. rewrite !last_app in Hnd. done.
      * exfalso. simpl in Hl. inversion Hl as [[Hx Hy Hnil]]. subst x y.
        symmetry in Hnil. apply app_eq_nil in Hnil as [-> ->].
        apply (f_equal last) in Hnd. rewrite !last_app in Hnd. done.
Qed.


Lemma rstrip_trimmed l : right_trimmed l -> rstrip l = l.
Proof.
  unfold rstrip, right_trimmed. induction l as [|c l IH]; [done|].
  destruct l as [|d l].
  - simpl. by intros ->.
  - change (last (c :: d :: l)) with (last (d :: l)). intros Ht.
    change (rstrip_by isspace (c :: d :: l))
      with (match rstrip_by isspace (d :: l) with
            | [] => if isspace c then [] else [c]
            | t => c :: t
            end).
    by rewrite (IH Ht).
Qed.

Lemma rstrip_app_keep a b :
  rstrip b <> [] -> rstrip (a ++ b) = a ++ rstrip b.
Proof.
  unfold rstrip. intros Hb. induction a as [|c a IH]; [done|].
  simpl. rewrite IH. destruct (a ++ rstrip_by isspace b) eqn:Hab; [|done].
  apply app_eq_nil in Hab as [_ Hab]. done.
Qed.

Lemma rstrip_prefix b : exists w, b = rstrip b ++ w.
Proof. destruct (rstrip_by_split isspace b) as (w & Hw & _). by exists w. Qed.

Lemma removal_needs_lt p s p' s' :
  matches EU_BLOCK_REMOVE_RE p s p' s' -> 60 ∈ s.
Proof.
  intros Hm. apply removal_match_shape in Hm as (p1 & t & Hm).
  apply matches_split in Hm as [w ->]. apply elem_of_app. right. by left.
Qed.

(** A text without [<] has nothing to remove. *)
Lemma re_sub_without_lt s : 60 ∉ s -> re_sub EU_BLOCK_REMOVE_RE [] s = s.
Proof.
  intros Hlt.
  destruct (removal_sub_cases s) as [[Hs _]|(sk & mid & p1 & p' & -> & _ & Hm & _)];
    [done|].
  exfalso. apply removal_needs_lt in Hm. apply Hlt, elem_of_app. by right.
Qed.

Lemma ensure_eu_block_keeps_plain_body b :
  60 ∉ b -> ensure_eu_block_at_end b = rstrip b ++ [nl; nl] ++ EU_FUNDING_BLOCK.
Proof.
  intros Hlt. rewrite ensure_eu_block_at_end_eq.
  destruct (rstrip_prefix b) as [w Hw].
  rewrite re_sub_without_lt.
  - rewrite rstrip_trimmed; [done | apply rstrip_by_last].
  - intros Hin. apply Hlt. rewrite Hw. apply elem_of_app. by left.
Qed.

Lemma rule_before_breaks p t :
  matches rule_before p (nl :: nl :: t) (Some nl) t.
Proof.
  unfold rule_before.
  eapply matches_cat_cons; [apply M_OptNone|].
  eapply matches_cat_cons; [apply M_OptNone|].
  simpl. apply M_StarCons; [done|]. apply M_StarCons; [done|]. apply M_StarNil.
Qed.

(** After two line breaks, the footer block is matched. *)
Lemma removal_matches_footer p :
  exists p', matches EU_BLOCK_REMOVE_RE p
               ([nl; nl] ++ rstrip EU_FUNDING_BLOCK) p' [].
Proof.
  assert (rstrip EU_FUNDING_BLOCK
          = EU_BLOCK_MARKER ++ drop (length EU_BLOCK_MARKER) (rstrip EU_FUNDING_BLOCK))
    as -> by (vm_compute; reflexivity).
  set (t := drop _ _).
  destruct (marker_re_matches (Some nl) t) as [p1 Hm].
  destruct (matches_lazy_any p1 t) as [p2 Hl].
  exists p2. apply M_AltL. unfold footer_marker_alt.
  eapply matches_cat_cons; [apply rule_before_breaks|].
  eapply matches_cat_cons; [exact Hm|].
  eapply matches_cat_cons; [exact Hl|].
  simpl. eapply M_Ahead. apply M_Eos.
Qed.

(** A body without [<] that does not end with a rule of three dashes
    is kept whole, and a second pass gives what the first gave. *)
Theorem ensure_eu_block_stable_on_plain_body b :
  60 ∉ b ->
  ~ (exists pre, rstrip b = pre ++ [45; 45; 45]) ->
  ensure_eu_block_at_end b = rstrip b ++ [nl; nl] ++ EU_FUNDING_BLOCK /\
  ensure_eu_block_at_end (ensure_eu_block_at_end b) = ensure_eu_block_at_end b.
Proof.
  intros Hlt Hrule. split; [by apply ensure_eu_block_keeps_plain_body|].
  rewrite (ensure_eu_block_keeps_plain_body b Hlt).
  remember (rstrip b) as X eqn:HeqX.
  assert (right_trimmed X) as HX by (subst X; apply rstrip_by_last).
  assert (60 ∉ X) as HXlt.
  { destruct (rstrip_prefix b) as [w Hw]. intros Hin. apply Hlt. rewrite Hw.
    apply elem_of_app. left. by subst X. }
  rewrite ensure_eu_block_at_end_eq.
  assert (rstrip (X ++ [nl; nl] ++ EU_FUNDING_BLOCK)
          = X ++ [nl; nl] ++ rstrip EU_FUNDING_BLOCK) as ->.
  { rewrite (app_assoc X), rstrip_app_keep, <- app_assoc; [done|].
    vm_compute. discriminate. }
  assert (rstrip EU_FUNDING_BLOCK = 60 :: drop 1 (rstrip EU_FUNDING_BLOCK))
    as Hhead by (vm_compute; reflexivity).
  enough (re_sub EU_BLOCK_REMOVE_RE [] (X ++ [nl; nl] ++ rstrip EU_FUNDING_BLOCK)
          = X) as -> by (by rewrite (rstrip_trimmed X HX)).
  destruct (removal_sub_cases (X ++ [nl; nl] ++ rstrip EU_FUNDING_BLOCK))
    as [[_ Hno]|(sk & mid & p1 & p' & Heq & -> & Hm & Hno)].
  - (* no match at all: but the footer is matched *)
    exfalso. destruct (Hno X _ eq_refl) as [p2 Hrun].
    destruct (removal_matches_footer p2) as [p3 Hm].
    assert (is_Some (run EU_BLOCK_REMOVE_RE
                       (accept false ([nl; nl] ++ rstrip EU_FUNDING_BLOCK)) p2
                       ([nl; nl] ++ rstrip EU_FUNDING_BLOCK))) as [x Hx]
      by (eapply run_complete; [exact Hm | by eexists]).
    congruence.
  - apply app_eq_app in Heq as [l [[HXl Hmid]|[-> Hmid]]].
    + (* the match starts inside the body *)
      destruct (decide (l = [])) as [->|Hl]; [by rewrite app_nil_r in HXl|].
      exfalso. apply Hrule.
      apply removal_match_shape in Hm as (p2 & t & Hm).
      apply rule_before_shape in Hm as (w & Hw & Hword).
      rewrite Hmid, Hhead in Hw.
      assert (exists pre, l = pre ++ [45; 45; 45]) as [pre ->].
      { eapply rule_word_before_footer; [done | | | exact Hword | exact Hw].
        - intros Hin. apply HXlt. rewrite HXl. apply elem_of_app. by right.
        - unfold right_trimmed in *. rewrite HXl, last_app in HX.
          destruct (last l) eqn:Hlast; [done | by apply last_None in Hlast]. }
      exists (sk ++ pre). rewrite HXl. by rewrite <- app_assoc.
    + (* the match starts after the body *)
      destruct (decide (l = [])) as [->|Hl]; [by rewrite app_nil_r|].
      exfalso. destruct (Hno X l eq_refl Hl) as [p2 Hrun].
      rewrite <- Hmid in Hrun.
      destruct (removal_matches_footer p2) as [p3 Hm'].
      assert (is_Some (run EU_BLOCK_REMOVE_RE
                         (accept false ([nl; nl] ++ rstrip EU_FUNDING_BLOCK)) p2
                         ([nl; nl] ++ rstrip EU_FUNDING_BLOCK))) as [x Hx]
        by (eapply run_complete; [exact Hm' | by eexists]).
      congruence.
Qed.

End Stable.

(** * Splitting the front matter *)

Section FrontMatter.
Context `{UnicodeData}.

Lemma matches_chr_is_inv a p s p' s' :
  matches (Chr (chr_is a)) p s p' s' -> s = a :: s'.
Proof.
  intros Hm. apply matches_chr_inv in Hm as (Hc & -> & [c ->]). simpl in *.
  unfold chr_is in Hc. apply N.eqb_eq in Hc. by subst.
Qed.

(** What the front-matter pattern matches is a front-matter block. *)
Lemma frontmatter_re_sound p t p' rest :
  matches FRONTMATTER_RE p t p' rest ->
  exists blk, frontmatter_block blk /\ t = blk ++ rest.
Proof.
  unfold FRONTMATTER_RE. intros Hm.
  apply matches_cat_cons_inv in Hm as (p1 & s1 & H1 & Hm).
  apply matches_bos_inv in H1 as (_ & -> & ->).
  apply matches_cat_cons_inv in Hm as (p2 & s2 & H2 & Hm).
  apply matches_lit_inv in H2 as ->.
  apply matches_cat_cons_inv in Hm as (p3 & s3 & H3 & Hm).
  apply matches_star_inv in H3 as (w1 & -> & Hw1).
  apply matches_cat_cons_inv in Hm as (p4 & s4 & H4 & Hm).
  apply matches_chr_is_inv in H4 as ->.
  apply matches_cat_cons_inv in Hm as (p5 & s5 & H5 & Hm).
  apply matches_lazy_inv in H5 as (mid & -> & _).
  apply matches_cat_cons_inv in Hm as (p6 & s6 & H6 & Hm).
  apply matches_chr_is_inv in H6 as ->.
  apply matches_cat_cons_inv in Hm as (p7 & s7 & H7 & Hm).
  apply matches_lit_inv in H7 as ->.
  apply matches_cat_cons_inv in Hm as (p8 & s8 & H8 & Hm).
  apply matches_star_inv in H8 as (w2 & -> & Hw2).
  simpl in Hm. apply matches_chr_is_inv in Hm as ->.
  exists (u "---" ++ w1 ++ [nl] ++ mid ++ [nl] ++ u "---" ++ w2 ++ [nl]).
  split; [by exists w1, mid, w2|].
  by rewrite <- !app_assoc.
Qed.

Lemma matches_star_all cs p w t :
  Forall (fun c => cs c = true) w -> exists p', matches (Star cs) p (w ++ t) p' t.
Proof.
  intros Hw. revert p. induction Hw as [|c w Hc Hw IH]; intros p.
  - exists p. apply M_StarNil.
  - destruct (IH (Some c)) as [p' Hm]. exists p'. by apply M_StarCons.
Qed.

Lemma matches_lazy_all p w t : exists p', matches (StarLazy any) p (w ++ t) p' t.
Proof.
  revert p. induction w as [|c w IH]; intros p.
  - exists p. apply M_LazyNil.
  - destruct (IH (Some c)) as [p' Hm]. exists p'. by apply M_LazyCons.
Qed.

Lemma matches_lit str p t :
  u str <> [] -> matches (lit str) p (u str ++ t) (last (u str)) t.
Proof.
  intros Hne. apply (matches_literal chr_is); [|done].
  apply Forall_forall. intros a _. apply N.eqb_refl.
Qed.

(** Every front-matter block at the start of a text is matched. *)
Lemma frontmatter_re_complete blk rest :
  frontmatter_block blk ->
  exists p', matches FRONTMATTER_RE None (blk ++ rest) p' rest.
Proof.
  intros (w1 & mid & w2 & Hw1 & Hw2 & ->).
  rewrite <- !app_assoc.
  destruct (matches_star_all isspace (last (u "---")) w1
              ([nl] ++ mid ++ [nl] ++ u "---" ++ w2 ++ [nl] ++ rest) Hw1) as [p3 H3].
  destruct (matches_lazy_all (Some nl) mid
              ([nl] ++ u "---" ++ w2 ++ [nl] ++ rest)) as [p5 H5].
  destruct (matches_star_all isspace (last (u "---")) w2 ([nl] ++ rest) Hw2)
    as [p8 H8].
  exists (Some nl). unfold FRONTMATTER_RE.
  eapply matches_cat_cons; [apply M_Bos|].
  eapply matches_cat_cons; [by apply matches_lit|].
  eapply matches_cat_cons; [exact H3|].
  eapply matches_cat_cons; [apply M_Chr, N.eqb_refl|].
  eapply matches_cat_cons; [exact H5|].
  eapply matches_cat_cons; [apply M_Chr, N.eqb_refl|].
  eapply matches_cat_cons; [by apply matches_lit|].
  eapply matches_cat_cons; [exact H8|].
  simpl. apply M_Chr, N.eqb_refl.
Qed.

Lemma split_frontmatter_found t rest :
  re_match FRONTMATTER_RE t = Some rest ->
  exists blk, frontmatter_block blk /\ t = blk ++ rest /\
              split_frontmatter t = (blk, rest).
Proof.
  intros Hre. unfold split_frontmatter. rewrite Hre.
  unfold re_match in Hre. apply run_sound in Hre as (p' & s' & Hm & Hacc).
  unfold accept in Hacc. simpl in Hacc. inversion Hacc; subst s'.
  apply frontmatter_re_sound in Hm as (blk & Hblk & ->).
  exists blk. split; [done|]. split; [done|].
  replace (length (blk ++ rest) - length rest)%nat with (length blk)
    by (rewrite length_app; lia).
  by rewrite take_app_length, drop_app_length.
Qed.

(** C10: the two parts [split_frontmatter] returns make up the text
    again; the first part is empty or a front-matter block, which then
    stands at the very start of the text; it is a block whenever the text
    starts with one, and when the text starts with none the result is the
    empty text and the whole text. *)
Theorem split_frontmatter_lossless_anchored (t : pystr) :
  (split_frontmatter t).1 ++ (split_frontmatter t).2 = t /\
  ((split_frontmatter t).1 = [] \/ frontmatter_block (split_frontmatter t).1) /\
  ((exists blk rest, frontmatter_block blk /\ t = blk ++ rest) ->
   frontmatter_block (split_frontmatter t).1) /\
  (~ (exists blk rest, frontmatter_block blk /\ t = blk ++ rest) ->
   split_frontmatter t = ([], t)).
Proof.
  destruct (re_match FRONTMATTER_RE t) as [rest|] eqn:Hre.
  - destruct (split_frontmatter_found _ _ Hre) as (blk & Hblk & Ht & ->). simpl.
    split; [done|]. split; [by right|]. split; [done|].
    intros Hno. exfalso. apply Hno. by exists blk, rest.
  - assert (split_frontmatter t = ([], t)) as ->
      by (unfold split_frontmatter; by rewrite Hre).
    simpl. split; [done|]. split; [by left|]. split; [|done].
    intros (blk & rest & Hblk & ->). exfalso.
    destruct (frontmatter_re_complete blk rest Hblk) as [p' Hm].
    unfold re_match in Hre.
    assert (is_Some (run FRONTMATTER_RE (accept false (blk ++ rest)) None
                       (blk ++ rest))) as [x Hx]
      by (eapply run_complete; [exact Hm | by eexists]).
    congruence.
Qed.

End FrontMatter.

(** * The front matter of a page *)

Lemma truthy_true s : truthy s = true <-> s <> [].
Proof.
  unfold truthy, pystr_eqb. rewrite negb_true_iff, bool_decide_eq_false. done.
Qed.

Lemma truthy_false s : truthy s = false <-> s = [].
Proof.
  unfold truthy, pystr_eqb. rewrite negb_false_iff, bool_decide_eq_true. done.
Qed.

Lemma resolved_title_nonempty titles id t :
  resolved_title titles id = Some t -> t <> [].
Proof.
  unfold resolved_title.
  destruct (normalize_nav_title _) as [t'|]; [|done].
  destruct (truthy t') eqn:Ht; [|done]. intros [= <-]. by apply truthy_true.
Qed.

(** The front matter, entry by entry. *)
Lemma build_frontmatter_entries title layout nav_order has_children parent_id
  titles parents :
  build_frontmatter title layout nav_order has_children parent_id titles parents =
  base_entries title layout nav_order has_children
  ++ (if truthy parent_id then
        match resolved_title titles parent_id with
        | Some pt =>
            ("parent"%string, YStr pt)
            :: (let gp_id := clean_str (VStr (get_or_empty parents parent_id)) [] in
                if truthy gp_id then
                  match resolved_title titles gp_id with
                  | Some gt => [("grand_parent"%string, YStr gt)]
                  | None => []
                  end
                else [])
        | None => []
        end
      else []).
Proof.
  unfold build_frontmatter, resolved_title, base_entries.
  destruct (truthy parent_id); [|by destruct has_children].
  destruct (normalize_nav_title (Some (get_or_empty titles parent_id))) as [pt|];
    [|by destruct has_children].
  destruct (truthy pt); [|by destruct has_children].
  cbv zeta.
  destruct (truthy (clean_str (VStr (get_or_empty parents parent_id)) []));
    [|by destruct has_children].
  destruct (normalize_nav_title _) as [gt|]; [|by destruct has_children].
  destruct (truthy gt); by destruct has_children.
Qed.

Lemma dict_get_In fm k v : dict_get fm k = Some v -> In (k, v) fm.
Proof.
  induction fm as [|[k' v'] fm IH]; simpl; [done|].
  destruct (String.eqb k' k) eqn:Hk.
  - apply String.eqb_eq in Hk as ->. intros [= ->]. by left.
  - intros Hg. right. by apply IH.
Qed.

(** C5, corrected: in the mapping of [build_frontmatter], a [parent] or
    [grand_parent] key is never there with an empty value; both are left
    out when the parent id is empty or its title does not resolve;
    [parent] is the resolved title of the parent id and [grand_parent]
    the resolved title of the cleaned id the Parent Index gives for it;
    every other key holds the title, the layout, the navigation order or
    a flag that was passed in.  No value is taken from the parent id. *)
Theorem build_frontmatter_parent_keys (title layout : pystr) (nav_order : Z)
  (has_children : bool) (parent_id : pystr)
  (titles parents : gmap pystr pystr) :
  let fm := build_frontmatter title layout nav_order has_children parent_id
              titles parents in
  (forall k v, dict_get fm k = Some v ->
     k = "parent"%string \/ k = "grand_parent"%string ->
     exists t, v = YStr t /\ t <> []) /\
  (parent_id = [] \/ resolved_title titles parent_id = None ->
     dict_get fm "parent" = None /\ dict_get fm "grand_parent" = None) /\
  dict_get fm "parent"
    = (if truthy parent_id then YStr <$> resolved_title titles parent_id
       else None) /\
  (forall v, dict_get fm "grand_parent" = Some v ->
     exists gt, v = YStr gt /\
       resolved_title titles
         (clean_str (VStr (get_or_empty parents parent_id)) []) = Some gt) /\
  (forall k v, dict_get fm k = Some v ->
     k <> "parent"%string -> k <> "grand_parent"%string ->
     In v [YStr title; YStr layout; YInt nav_order;
           YBool has_children; YBool false]).
Proof.
  cbv zeta.
  assert (forall t, resolved_title titles parent_id = Some t -> t <> [])
    as Hne1 by (intros t; apply resolved_title_nonempty).
  assert (forall t, resolved_title titles
            (clean_str (VStr (get_or_empty parents parent_id)) []) = Some t ->
            t <> [])
    as Hne2 by (intros t; apply resolved_title_nonempty).
  rewrite build_frontmatter_entries.
  frontmatter_cases parent_id titles parents has_children;
    (split; [intros k v Hk [->| ->]; open_entries dict_get_In Hk; eauto|]);
    (split; [intros [->|Heq]; try done; try (by vm_compute in Hpid) |]);
    (split; [reflexivity|]);
    (split; [intros v Hk; open_entries dict_get_In Hk; eauto|]);
    intros k v Hk Hk1 Hk2; open_entries dict_get_In Hk; simpl; tauto.
Qed.

(** C5, counterexample: the Title Index may give a page its own id as
    title; the value of [parent] is then that id. *)
Lemma build_frontmatter_parent_may_equal_id :
  dict_get (build_frontmatter (u "Child") (u "home") 1 false (u "01000000_en")
              {[ u "01000000_en" := u "01000000_en" ]} ∅) "parent"
  = Some (YStr (u "01000000_en")).
Proof. vm_compute. reflexivity. Qed.

(** C6, corrected: for a page with non-empty parent id [B] whose title
    resolves to [pt], where the Parent Index maps [B] to [C] and the
    cleaned [C] (trimmed; empty and nan count as none) is not empty and
    resolves to [gt], the front matter is the base entries, then [parent]
    with [pt], then [grand_parent] with [gt], and nothing after: one hop. *)
Theorem build_frontmatter_grandparent (title layout : pystr) (nav_order : Z)
  (has_children : bool) (B C pt gt : pystr) (titles parents : gmap pystr pystr) :
  B <> [] ->
  resolved_title titles B = Some pt ->
  parents !! B = Some C ->
  clean_str (VStr C) [] <> [] ->
  resolved_title titles (clean_str (VStr C) []) = Some gt ->
  let fm := build_frontmatter title layout nav_order has_children B
              titles parents in
  dict_get fm "parent" = Some (YStr pt) /\
  dict_get fm "grand_parent" = Some (YStr gt) /\
  fm = base_entries title layout nav_order has_children
       ++ [("parent"%string, YStr pt); ("grand_parent"%string, YStr gt)].
Proof.
  intros HB Hpt HC Hclean Hgt. cbv zeta.
  rewrite build_frontmatter_entries.
  apply truthy_true in HB. rewrite HB, Hpt. cbv zeta.
  unfold get_or_empty. rewrite HC. simpl default.
  apply truthy_true in Hclean. rewrite Hclean, Hgt.
  unfold base_entries. by destruct has_children.
Qed.

Lemma build_frontmatter_grandparent_witness :
  let titles : gmap pystr pystr :=
    <[u "A" := u "Page A"]> (<[u "B" := u " 00 Welcome "]> {[u "C" := u "Top"]}) in
  let parents : gmap pystr pystr :=
    <[u "A" := u "B"]> (<[u "B" := u "C"]> {[u "C" := []]}) in
  let fm := build_frontmatter (u "Page A") (u "home") 3 true (u "B")
              titles parents in
  dict_get fm "parent" = Some (YStr (u "Welcome")) /\
  dict_get fm "grand_parent" = Some (YStr (u "Top")) /\
  fm = base_entries (u "Page A") (u "home") 3 true
       ++ [("parent"%string, YStr (u "Welcome"));
           ("grand_parent"%string, YStr (u "Top"))].
Proof.
  cbv zeta.
  apply (build_frontmatter_grandparent (u "Page A") (u "home") 3 true
           (u "B") (u "C") (u "Welcome") (u "Top")).
  - vm_compute. discriminate.
  - vm_compute. reflexivity.
  - vm_compute. reflexivity.
  - vm_compute. discriminate.
  - vm_compute. reflexivity.
Defined.

(** C6, counterexample: the Parent Index maps [B] to the text nan, which
    the Title Index knows; no [grand_parent] is written. *)
Lemma build_frontmatter_grandparent_nan :
  let titles : gmap pystr pystr :=
    <[u "B" := u "Title of B"]> {[u "nan" := u "Untitled"]} in
  let parents : gmap pystr pystr := {[u "B" := u "nan"]} in
  resolved_title titles (u "B") = Some (u "Title of B") /\
  parents !! u "B" = Some (u "nan") /\
  resolved_title titles (u "nan") = Some (u "Untitled") /\
  build_frontmatter (u "Page A") (u "home") 1 false (u "B") titles parents
  = base_entries (u "Page A") (u "home") 1 false
    ++ [("parent"%string, YStr (u "Title of B"))].
Proof. vm_compute. repeat split; reflexivity. Qed.

(** * Integers from cells *)

Section Values.
Context `{UnicodeData}.

Lemma as_int_missing v d : is_missing v = true -> as_int v d = d.
Proof. intros Hm. unfold as_int. by rewrite Hm. Qed.

Lemma as_int_unparseable v d :
  is_missing v = false -> py_float (strip (str v)) = None -> as_int v d = d.
Proof. intros Hm Hf. unfold as_int. by rewrite Hm, Hf. Qed.

Lemma as_int_parsed v d x :
  is_missing v = false -> py_float (strip (str v)) = Some x ->
  as_int v d = default d (py_int x).
Proof. intros Hm Hf. unfold as_int. rewrite Hm, Hf. by destruct (py_int x). Qed.

(** [int] of a finite float is the quotient that truncates towards zero. *)
Lemma py_int_truncates neg m e :
  (0 <= m)%Z ->
  py_int (FFin neg m e)
  = Some (Z.quot ((if neg then - m else m) * 2 ^ Z.max e 0) (2 ^ Z.max (- e) 0)).
Proof.
  intros Hm. unfold py_int. f_equal.
  destruct (0 <=? e)%Z eqn:He.
  - apply Z.leb_le in He.
    rewrite (Z.max_l e 0), (Z.max_r (- e) 0) by lia.
    rewrite Z.pow_0_r, Z.quot_1_r. destruct neg; lia.
  - apply Z.leb_gt in He.
    rewrite (Z.max_r e 0), (Z.max_l (- e) 0) by lia.
    rewrite Z.pow_0_r, Z.mul_1_r.
    assert (0 < 2 ^ (- e))%Z as Hpos by (apply Z.pow_pos_nonneg; lia).
    destruct neg.
    + rewrite Z.quot_opp_l by lia. rewrite Z.quot_div_nonneg by lia. done.
    + by rewrite Z.quot_div_nonneg by lia.
Qed.

(** C8: [as_int] gives the default for a missing value and for a text
    that is no float numeral, and otherwise the float read from the
    trimmed text, truncated towards zero (the default again when that
    float is infinite or not a number); so ["3.0"] with default 0 gives
    3, the empty text with default 5 gives 5, ["abc"] with default 2
    gives 2. *)
Theorem as_int_parses_and_truncates :
  (forall v d, is_missing v = true -> as_int v d = d) /\
  (forall v d, is_missing v = false -> py_float (strip (str v)) = None ->
     as_int v d = d) /\
  (forall v d x, is_missing v = false -> py_float (strip (str v)) = Some x ->
     as_int v d = default d (py_int x)) /\
  (forall neg m e, (0 <= m)%Z ->
     py_int (FFin neg m e)
     = Some (Z.quot ((if neg then - m else m) * 2 ^ Z.max e 0)
               (2 ^ Z.max (- e) 0))) /\
  as_int (VStr (u "3.0")) 0 = 3%Z /\
  as_int (VStr []) 5 = 5%Z /\
  as_int (VStr (u "abc")) 2 = 2%Z /\
  as_int VNone 7 = 7%Z /\
  as_int (VStr (u " 2.9 ")) 0 = 2%Z /\
  as_int (VStr (u "-2.9")) 0 = (-2)%Z /\
  as_int (VStr (u "1e3")) 0 = 1000%Z /\
  as_int (VStr (u "inf")) 9 = 9%Z.
Proof.
  split; [apply as_int_missing|]. split; [apply as_int_unparseable|].
  split; [apply as_int_parsed|]. split; [apply py_int_truncates|].
  repeat split; vm_compute; reflexivity.
Qed.


End Values.

(** * Writing the files *)

Section Upsert.
Context {U : UnicodeData}.

Context {L : Libraries}.

Lemma process_row_root titles parents st r :
  row_key r = WELCOME_PAGE_ID ->
  process_row titles parents st r
  = {| files := files st; wrote := wrote st; skipped := S (skipped st) |}.
Proof. unfold process_row. fold (row_key r). intros ->. reflexivity. Qed.

Lemma process_row_none titles parents st r :
  row_key r = [] -> process_row titles parents st r = st.
Proof. unfold process_row. fold (row_key r). intros ->. by destruct st. Qed.

Lemma process_row_page titles parents st r :
  row_key r <> [] -> row_key r <> WELCOME_PAGE_ID ->
  wrote (process_row titles parents st r) = S (wrote st) /\
  skipped (process_row titles parents st r) = skipped st /\
  is_Some (files (process_row titles parents st r)
             !! output_path (row_key r ++ u ".md")) /\
  forall other, other <> output_path (row_key r ++ u ".md") ->
    files (process_row titles parents st r) !! other = files st !! other.
Proof.
  unfold process_row. fold (row_key r).
  intros Hne Hnw. apply truthy_true in Hne. rewrite Hne. simpl negb.
  unfold pystr_eqb. rewrite bool_decide_eq_false_2 by done.
  unfold upsert_markdown_file.
  destruct (files st !! _) as [c|]; [destruct (split_frontmatter c)|];
    simpl; rewrite lookup_insert_eq;
    (repeat split; [eauto | intros other Ho; by rewrite lookup_insert_ne]).
Qed.

(** C9: a row whose identity key is the welcome key leaves the files as
    they are and adds one to the skipped count only; a row with any other
    non-empty identity key adds one to the written count only, and its
    file, and no other, is written; a row with no identity key changes
    nothing. *)
Theorem process_row_counts (titles parents : gmap pystr pystr)
  (st : progress) (r : row) :
  (row_key r = WELCOME_PAGE_ID ->
     process_row titles parents st r
     = {| files := files st; wrote := wrote st; skipped := S (skipped st) |}) /\
  (row_key r <> [] -> row_key r <> WELCOME_PAGE_ID ->
     wrote (process_row titles parents st r) = S (wrote st) /\
     skipped (process_row titles parents st r) = skipped st /\
     is_Some (files (process_row titles parents st r)
                !! output_path (row_key r ++ u ".md")) /\
     forall other, other <> output_path (row_key r ++ u ".md") ->
       files (process_row titles parents st r) !! other = files st !! other) /\
  (row_key r = [] -> process_row titles parents st r = st).
Proof.
  split; [apply process_row_root|]. split; [apply process_row_page|].
  apply process_row_none.
Qed.

Lemma process_row_wrote titles parents st r :
  wrote (process_row titles parents st r)
  = (wrote st + if row_is_page r then 1 else 0)%nat.
Proof.
  unfold row_is_page, row_is_root.
  destruct (truthy (row_key r)) eqn:Hk.
  - apply truthy_true in Hk. unfold pystr_eqb. case_bool_decide as Hw; simpl.
    + rewrite (process_row_root _ _ _ _ Hw). simpl. lia.
    + destruct (process_row_page titles parents st r Hk Hw) as (-> & _). lia.
  - apply truthy_false in Hk. rewrite (process_row_none _ _ _ _ Hk). simpl. lia.
Qed.

Lemma process_row_skipped titles parents st r :
  skipped (process_row titles parents st r)
  = (skipped st + if row_is_root r then 1 else 0)%nat.
Proof.
  unfold row_is_root, pystr_eqb. case_bool_decide as Hw.
  - rewrite (process_row_root _ _ _ _ Hw). simpl. lia.
  - destruct (decide (row_key r = [])) as [Hk|Hk].
    + rewrite (process_row_none _ _ _ _ Hk). lia.
    + destruct (process_row_page titles parents st r Hk Hw) as (_ & -> & _). lia.
Qed.

(** X1: the counts the driver reports: the pages written are the rows with
    an identity key other than the welcome key, the rows skipped are the
    welcome rows; rows with no identity key count as neither. *)
Lemma main_counts fs sheet :
  wrote (main fs sheet)
  = length (List.filter row_is_page (map normalize_keys sheet)) /\
  skipped (main fs sheet)
  = length (List.filter row_is_root (map normalize_keys sheet)).
Proof.
  unfold main.
  generalize (title_index (map normalize_keys sheet)) as titles.
  generalize (parent_index (map normalize_keys sheet)) as parents.
  intros parents titles.
  assert (forall rows st,
    wrote (fold_left (process_row titles parents) rows st)
    = (wrote st + length (List.filter row_is_page rows))%nat /\
    skipped (fold_left (process_row titles parents) rows st)
    = (skipped st + length (List.filter row_is_root rows))%nat) as Hfold.
  { induction rows as [|r rows IH]; intros st; simpl; [lia|].
    destruct (IH (process_row titles parents st r)) as [-> ->].
    rewrite process_row_wrote, process_row_skipped.
    destruct (row_is_page r), (row_is_root r); simpl; lia. }
  destruct (Hfold (map normalize_keys sheet)
              {| files := fs; wrote := 0; skipped := 0 |}) as [-> ->].
  simpl. lia.
Qed.

End Upsert.

(** * Two defects of the footer removal *)

Section Defects.
Context {U : UnicodeData}.

(** C1, the code on two bodies: a body that holds a [<div>] keeps it in
    the first pass and loses everything from it on in the second, because
    the footer written by the first pass closes the [<div ... </div>]
    alternative of the removal pattern; a body that ends with a rule
    [---] loses the rule in the second pass.  The second pass does not
    give what the first gave. *)
Theorem ensure_eu_block_second_pass :
  ensure_eu_block_at_end (u "<div>hello</div>")
    = u "<div>hello</div>" ++ [nl; nl] ++ EU_FUNDING_BLOCK /\
  ensure_eu_block_at_end (ensure_eu_block_at_end (u "<div>hello</div>"))
    = [nl; nl] ++ EU_FUNDING_BLOCK /\
  ensure_eu_block_at_end (u "text" ++ [nl] ++ u "---")
    = u "text" ++ [nl] ++ u "---" ++ [nl; nl] ++ EU_FUNDING_BLOCK /\
  ensure_eu_block_at_end
      (ensure_eu_block_at_end (u "text" ++ [nl] ++ u "---"))
    = u "text" ++ [nl; nl] ++ EU_FUNDING_BLOCK.
Proof. repeat split; vm_compute; reflexivity. Qed.

(** C2, the code on bodies with footer-like content in the middle: the
    text after a marker in the middle is removed with it; a table in the
    middle and the text after it are removed together with a table footer
    at the end; and an existing page whose body holds a [<div>] loses
    everything from it on when the generator runs again. *)
Theorem ensure_eu_block_removes_mid_body :
  ensure_eu_block_at_end
      (u "Intro" ++ [nl] ++ EU_BLOCK_MARKER ++ [nl] ++ u "User text")
    = u "Intro" ++ [nl; nl] ++ EU_FUNDING_BLOCK /\
  ensure_eu_block_at_end
      (u "Intro" ++ [nl; nl]
       ++ u "<table><tr><td>see eu-funded.jpg</td></tr></table>" ++ [nl]
       ++ u "User paragraph" ++ [nl; nl]
       ++ u "<table><tr><td><img src='eu-funded.jpg'></td></tr></table>")
    = u "Intro" ++ [nl; nl] ++ EU_FUNDING_BLOCK /\
  let path := u "generated/01000000_en.md" in
  let old := u "---" ++ [nl] ++ u "title: Old" ++ [nl] ++ u "---" ++ [nl; nl]
             ++ u "# Page" ++ [nl; nl]
             ++ u "<div class='note'>keep me</div>" ++ [nl; nl]
             ++ u "More text." ++ [nl; nl] ++ EU_FUNDING_BLOCK in
  let front := u "---" ++ [nl] ++ u "title: New" ++ [nl] ++ u "---" ++ [nl; nl] in
  (upsert_markdown_file {[ path := old ]} path front []).1 !! path
    = Some (front ++ u "# Page" ++ [nl; nl] ++ EU_FUNDING_BLOCK).
Proof. repeat split; vm_compute; reflexivity. Qed.

End Defects.

(** * Examples *)

Section Examples.
Context {U : UnicodeData}.

(** The footer block is the raw literal, stripped, with one line break. *)
Example EU_FUNDING_BLOCK_from_literal :
  EU_FUNDING_BLOCK = strip EU_FUNDING_BLOCK_literal ++ [nl] /\
  length EU_FUNDING_BLOCK = 780%nat /\
  take 26 EU_FUNDING_BLOCK = EU_BLOCK_MARKER.
Proof. repeat split; vm_compute; reflexivity. Qed.

(** A body that ends with the old table footer, after a rule. *)
Example legacy_table_footer_replaced :
  ensure_eu_block_at_end
    (u "# Page" ++ [nl; nl] ++ u "Text." ++ [nl; nl] ++ u "---" ++ [nl]
     ++ u "<table><tr><td><img src='/assets/images/eu-funded.jpg'></td></tr></table>"
     ++ [nl])
  = u "# Page" ++ [nl; nl] ++ u "Text." ++ [nl; nl] ++ EU_FUNDING_BLOCK.
Proof. vm_compute. reflexivity. Qed.

(** The stability result at a plain body. *)
Example plain_body_is_stable :
  ensure_eu_block_at_end (u "# Page")
    = u "# Page" ++ [nl; nl] ++ EU_FUNDING_BLOCK /\
  ensure_eu_block_at_end (ensure_eu_block_at_end (u "# Page"))
    = ensure_eu_block_at_end (u "# Page").
Proof.
  apply (ensure_eu_block_stable_on_plain_body (u "# Page")).
  - intros Hin. vm_compute in Hin.
    repeat (apply elem_of_cons in Hin as [Hin|Hin]; [done|]).
    by apply elem_of_nil in Hin.
  - intros [pre Hpre]. apply (f_equal last) in Hpre.
    rewrite last_app in Hpre. vm_compute in Hpre. done.
Qed.

(** A second pass over a plain body gives the first again. *)
Example plain_body_twice :
  ensure_eu_block_at_end (ensure_eu_block_at_end (u "# Page" ++ [nl; nl] ++ u "Text."))
  = ensure_eu_block_at_end (u "# Page" ++ [nl; nl] ++ u "Text.").
Proof. vm_compute. reflexivity. Qed.

Example split_frontmatter_at_start :
  split_frontmatter (u "---" ++ [nl] ++ u "title: x" ++ [nl] ++ u "---" ++ [nl; nl]
                     ++ u "body")
  = (u "---" ++ [nl] ++ u "title: x" ++ [nl] ++ u "---" ++ [nl; nl], u "body").
Proof. vm_compute. reflexivity. Qed.

Example split_frontmatter_not_at_start :
  split_frontmatter (u "x" ++ [nl] ++ u "---" ++ [nl] ++ u "a" ++ [nl] ++ u "---" ++ [nl])
  = ([], u "x" ++ [nl] ++ u "---" ++ [nl] ++ u "a" ++ [nl] ++ u "---" ++ [nl]).
Proof. vm_compute. reflexivity. Qed.

Example is_missing_examples :
  is_missing (VStr []) = true /\ is_missing (VStr (u "   ")) = true /\
  is_missing (VStr (u " NaN ")) = true /\ is_missing VNone = true /\
  is_missing (VStr (u "0")) = false /\ is_missing (VInt 0) = false.
Proof. repeat split; vm_compute; reflexivity. Qed.

Example as_bool_examples :
  as_bool (VStr (u "YES")) = true /\ as_bool (VStr (u "0")) = false /\
  as_bool VNone = false /\ as_bool (VBool true) = true.
Proof. repeat split; vm_compute; reflexivity. Qed.

Example row_nav_order_examples :
  row_nav_order (sample_row None) = 1%Z /\
  row_nav_order (sample_row (Some [])) = 1%Z /\
  row_nav_order (sample_row (Some (u "0"))) = 1%Z /\
  row_nav_order (sample_row (Some (u "-3"))) = 1%Z /\
  row_nav_order (sample_row (Some (u "soon"))) = 1%Z /\
  row_nav_order (sample_row (Some (u "7.0"))) = 7%Z.
Proof. repeat split; vm_compute; reflexivity. Qed.

End Examples.

(** * Reading cells *)

Lemma rstrip_by_nil_iff f s :
  rstrip_by f s = [] <-> Forall (fun c => f c = true) s.
Proof.
  split.
  - intros Hr. destruct (rstrip_by_split f s) as (w & Hs & Hw).
    rewrite Hr in Hs. by subst.
  - induction 1 as [|c s Hc Hs IH]; [done|]. simpl. by rewrite IH, Hc.
Qed.

Lemma rstrip_by_app_space f s w :
  Forall (fun c => f c = true) w -> rstrip_by f (s ++ w) = rstrip_by f s.
Proof.
  intros Hw. induction s as [|c s IH]; simpl.
  - by apply rstrip_by_nil_iff.
  - by rewrite IH.
Qed.

Lemma rstrip_by_app_keep f a b :
  rstrip_by f b <> [] -> rstrip_by f (a ++ b) = a ++ rstrip_by f b.
Proof.
  intros Hb. induction a as [|c a IH]; [done|].
  simpl. rewrite IH. destruct (a ++ rstrip_by f b) eqn:Hab; [|done].
  apply app_eq_nil in Hab as [_ Hab]. done.
Qed.

Lemma lstrip_by_app_space f w s :
  Forall (fun c => f c = true) w -> lstrip_by f (w ++ s) = lstrip_by f s.
Proof. induction 1 as [|c w Hc Hw IH]; [done|]. simpl. by rewrite Hc. Qed.

Lemma lstrip_by_idem f s : lstrip_by f (lstrip_by f s) = lstrip_by f s.
Proof.
  induction s as [|c s IH]; [done|]. simpl.
  destruct (f c) eqn:Hc; [done|]. simpl. by rewrite Hc.
Qed.

Lemma lstrip_by_last f (g : N -> bool) s :
  match last s with Some c => g c = false | None => True end ->
  match last (lstrip_by f s) with Some c => g c = false | None => True end.
Proof.
  induction s as [|c s IH]; [done|]. simpl. destruct (f c); [|done].
  destruct s as [|d s]; [done|]. intros Hl. by apply IH.
Qed.

(** White space around a text does not change what [strip] gives. *)
Lemma strip_pad w1 s w2 :
  all_space w1 -> all_space w2 -> strip (w1 ++ s ++ w2) = strip s.
Proof.
  intros H1 H2. unfold strip, rstrip, lstrip.
  rewrite app_assoc, rstrip_by_app_space by done.
  destruct (rstrip_by isspace s) as [|c t] eqn:Hs.
  - apply rstrip_by_nil_iff in Hs.
    assert (rstrip_by isspace (w1 ++ s) = []) as ->; [|done].
    apply rstrip_by_nil_iff. by apply Forall_app_2.
  - rewrite rstrip_by_app_keep by (by rewrite Hs). rewrite Hs.
    by apply lstrip_by_app_space.
Qed.

Lemma strip_idem s : strip (strip s) = strip s.
Proof.
  unfold strip, rstrip, lstrip.
  assert (rstrip_by isspace (lstrip_by isspace (rstrip_by isspace s))
          = lstrip_by isspace (rstrip_by isspace s)) as ->.
  { apply rstrip_trimmed. unfold right_trimmed.
    apply lstrip_by_last. apply rstrip_by_last. }
  apply lstrip_by_idem.
Qed.

Section Cells.
Context {U : UnicodeData}.

Lemma is_missing_str s :
  is_missing (VStr s)
  = pystr_eqb (strip s) [] || pystr_eqb (lower (strip s)) (u "nan").
Proof. reflexivity. Qed.

(** X12: a cell is read the same with white space around its text: as
    missing or not, as a text, as a flag and as a number. *)
Theorem cell_padding_ignored (w1 s w2 : pystr) (d : pystr) (n : Z) :
  all_space w1 -> all_space w2 ->
  is_missing (VStr (w1 ++ s ++ w2)) = is_missing (VStr s) /\
  clean_str (VStr (w1 ++ s ++ w2)) d = clean_str (VStr s) d /\
  as_bool (VStr (w1 ++ s ++ w2)) = as_bool (VStr s) /\
  as_int (VStr (w1 ++ s ++ w2)) n = as_int (VStr s) n.
Proof.
  intros H1 H2.
  assert (is_missing (VStr (w1 ++ s ++ w2)) = is_missing (VStr s)) as Hm
    by (by rewrite !is_missing_str, strip_pad).
  split; [done|].
  unfold clean_str, as_bool, as_int. rewrite Hm. simpl str.
  by rewrite strip_pad.
Qed.

Lemma is_missing_false v :
  is_missing v = false ->
  pystr_eqb (strip (str v)) [] || pystr_eqb (lower (strip (str v))) (u "nan")
  = false.
Proof. destruct v as [| |b|z|s]; try done. Qed.

Lemma is_missing_clean v :
  is_missing v = false -> is_missing (VStr (strip (str v))) = false.
Proof.
  intros Hm. rewrite is_missing_str, strip_idem. by apply is_missing_false.
Qed.

(** X13: what [clean_str] gives for a value that is not missing is a text
    with no white space at either end, not empty and not missing itself;
    so cleaning it again, with whatever default, changes nothing. *)
Theorem clean_str_normal_form (v : pyval) (d : pystr) :
  (is_missing v = true -> clean_str v d = d) /\
  (is_missing v = false ->
     strip (clean_str v d) = clean_str v d /\
     clean_str v d <> [] /\
     is_missing (VStr (clean_str v d)) = false /\
     forall d', clean_str (VStr (clean_str v d)) d' = clean_str v d) /\
  clean_str (VStr (clean_str v [])) [] = clean_str v [].
Proof.
  split; [intros Hm; unfold clean_str; by rewrite Hm|]. split.
  - intros Hm. unfold clean_str at 1 2 3 4. rewrite Hm.
    pose proof (is_missing_clean v Hm) as Hm'.
    split; [apply strip_idem|]. split; [|split].
    + intros Hnil. rewrite is_missing_str, strip_idem, Hnil in Hm'. done.
    + done.
    + intros d'. unfold clean_str. rewrite Hm, Hm'. simpl str. apply strip_idem.
  - destruct (is_missing v) eqn:Hm.
    + assert (clean_str v [] = []) as -> by (unfold clean_str; by rewrite Hm).
      reflexivity.
    + assert (clean_str v [] = strip (str v)) as ->
        by (unfold clean_str; by rewrite Hm).
      unfold clean_str.
      rewrite (is_missing_clean v Hm). simpl str. apply strip_idem.
Qed.

End Cells.

(** The results above at sample inputs, with the ASCII tables. *)
Section CellsAt.
#[local] Existing Instance ascii_tables.

Lemma cell_padding_ignored_witness :
  is_missing (VStr (u "  " ++ u "7.0" ++ [nl])) = is_missing (VStr (u "7.0")) /\
  clean_str (VStr (u "  " ++ u "7.0" ++ [nl])) [] = clean_str (VStr (u "7.0")) [] /\
  as_bool (VStr (u "  " ++ u "7.0" ++ [nl])) = as_bool (VStr (u "7.0")) /\
  as_int (VStr (u "  " ++ u "7.0" ++ [nl])) 0 = as_int (VStr (u "7.0")) 0.
Proof.
  apply (cell_padding_ignored (u "  ") (u "7.0") [nl] [] 0).
  - repeat constructor.
  - repeat constructor.
Defined.

End CellsAt.

(** * Titles, keys and the files of the driver *)

Section Titles.
Context {U : UnicodeData}.

Lemma normalize_nav_title_cases t0 :
  normalize_nav_title (Some t0) = Some (u "Welcome") /\ strip t0 = u "00 Welcome" \/
  normalize_nav_title (Some t0) = Some (strip t0) /\ strip t0 <> u "00 Welcome".
Proof.
  unfold normalize_nav_title.
  destruct (truthy t0) eqn:Ht0; simpl negb; cbv iota.
  - cbv zeta. unfold pystr_eqb. case_bool_decide as Hw; [by left|by right].
  - apply truthy_false in Ht0 as ->. by right.
Qed.

(** X10: normalizing a navigation title twice gives what normalizing it
    once gives, and a normalized title has no white space at either
    end. *)
Theorem normalize_nav_title_idempotent (t : option pystr) :
  normalize_nav_title (normalize_nav_title t) = normalize_nav_title t /\
  forall t', normalize_nav_title t = Some t' -> strip t' = t'.
Proof.
  destruct t as [t0|]; [|done].
  destruct (normalize_nav_title_cases t0) as [[-> Hw]|[-> Hw]].
  - split; [by vm_compute|]. intros t' [= <-]. by vm_compute.
  - split; [|intros t' [= <-]; apply strip_idem].
    destruct (normalize_nav_title_cases (strip t0)) as [[_ Hw']|[-> _]].
    + by rewrite strip_idem in Hw'.
    + by rewrite strip_idem.
Qed.

(** X9: the keys of a front matter come in one fixed order, none twice; the
    first four are always there; [has_toc] is there, and false, exactly
    for a page with children; [grand_parent] comes only with [parent]. *)
Theorem build_frontmatter_keys (title layout : pystr) (nav_order : Z)
  (has_children : bool) (parent_id : pystr)
  (titles parents : gmap pystr pystr) :
  let fm := build_frontmatter title layout nav_order has_children parent_id
              titles parents in
  map fst fm `sublist_of` frontmatter_keys /\
  NoDup (map fst fm) /\
  dict_get fm "title" = Some (YStr title) /\
  dict_get fm "layout" = Some (YStr layout) /\
  dict_get fm "nav_order" = Some (YInt nav_order) /\
  dict_get fm "has_children" = Some (YBool has_children) /\
  dict_get fm "has_toc" = (if has_children then Some (YBool false) else None) /\
  (dict_get fm "parent" = None -> dict_get fm "grand_parent" = None).
Proof.
  intros fm.
  assert (map fst fm `sublist_of` frontmatter_keys /\
          dict_get fm "title" = Some (YStr title) /\
          dict_get fm "layout" = Some (YStr layout) /\
          dict_get fm "nav_order" = Some (YInt nav_order) /\
          dict_get fm "has_children" = Some (YBool has_children) /\
          dict_get fm "has_toc" = (if has_children then Some (YBool false) else None) /\
          (dict_get fm "parent" = None -> dict_get fm "grand_parent" = None))
    as (Hsub & Hrest).
  { subst fm. rewrite build_frontmatter_entries.
    frontmatter_cases parent_id titles parents has_children;
      (split; [simpl; unfold frontmatter_keys;
               repeat first [apply sublist_nil | apply sublist_skip
                            | apply sublist_cons]
              | repeat split; simpl; done]). }
  split; [done|]. split; [|done].
  eapply sublist_NoDup; [|exact Hsub].
  unfold frontmatter_keys. by apply (bool_decide_unpack _).
Qed.

End Titles.

(** * The driver *)

Lemma dict_of_pairs_snoc kvs k v :
  dict_of_pairs (kvs ++ [(k, v)]) = <[k := v]> (dict_of_pairs kvs).
Proof. unfold dict_of_pairs. by rewrite fold_left_app. Qed.

Lemma dict_of_pairs_lookup kvs k :
  dict_of_pairs kvs !! k
  = snd <$> last (List.filter (fun kv => bool_decide (kv.1 = k)) kvs).
Proof.
  induction kvs as [|[k' v'] kvs IH] using rev_ind; [done|].
  rewrite dict_of_pairs_snoc, List.filter_app. simpl.
  case_bool_decide as Hk; simpl in Hk.
  - subst k'. rewrite lookup_insert_eq, last_snoc. done.
  - rewrite lookup_insert_ne by done. by rewrite app_nil_r.
Qed.

(** X11: in the Title Index the last row with a given page id gives the title:
    a page id is in the index exactly when some row has it, and then with
    the title of the last such row. *)
Theorem title_index_last_row (df : list row) (id : pystr) :
  title_index df !! id
  = title <$> last (List.filter (fun r => bool_decide (page_id r = id)) df).
Proof.
  unfold title_index. rewrite dict_of_pairs_lookup.
  induction df as [|r df IH] using rev_ind; [done|].
  rewrite map_app, !List.filter_app. simpl.
  case_bool_decide; simpl.
  - by rewrite !last_snoc.
  - by rewrite !app_nil_r.
Qed.

Section Driver.
Context {U : UnicodeData} {L : Libraries}.

Lemma process_row_files titles parents st r :
  (row_is_page r = true ->
     is_Some (files (process_row titles parents st r)
                !! output_path (row_key r ++ u ".md"))) /\
  forall path,
    (row_is_page r = true -> output_path (row_key r ++ u ".md") <> path) ->
    files (process_row titles parents st r) !! path = files st !! path.
Proof.
  unfold row_is_page, row_is_root.
  destruct (truthy (row_key r)) eqn:Hk.
  - apply truthy_true in Hk. unfold pystr_eqb. case_bool_decide as Hw; simpl.
    + rewrite (process_row_root _ _ _ _ Hw). by split.
    + destruct (process_row_page titles parents st r Hk Hw) as (_ & _ & Hs & Ho).
      split; [done|]. intros path Hp. apply Ho. intros ->. by apply Hp.
  - apply truthy_false in Hk. rewrite (process_row_none _ _ _ _ Hk). by split.
Qed.

Lemma fold_process_row_files titles parents rows st :
  (forall r, In r rows -> row_is_page r = true ->
     is_Some (files (fold_left (process_row titles parents) rows st)
                !! output_path (row_key r ++ u ".md"))) /\
  (forall path, is_Some (files st !! path) ->
     is_Some (files (fold_left (process_row titles parents) rows st) !! path)) /\
  forall path,
    (forall r, In r rows -> row_is_page r = true ->
       output_path (row_key r ++ u ".md") <> path) ->
    files (fold_left (process_row titles parents) rows st) !! path
    = files st !! path.
Proof.
  revert st. induction rows as [|r rows IH]; intros st; simpl.
  - repeat split; try done.
  - destruct (IH (process_row titles parents st r)) as (IH1 & IH2 & IH3).
    destruct (process_row_files titles parents st r) as (Hs & Ho).
    split; [|split].
    + intros r' [<-|Hin] Hp; [apply IH2; by apply Hs|by apply IH1].
    + intros path Hp. apply IH2.
      destruct (row_is_page r) eqn:Hr.
      * destruct (decide (output_path (row_key r ++ u ".md") = path)) as [<-|Hne].
        -- by apply Hs.
        -- rewrite Ho; [done|]. by intros _.
      * rewrite Ho; [done|]. by intros [=].
    + intros path Hp. rewrite IH3 by (intros r' Hin; apply Hp; by right).
      apply Ho. apply Hp. by left.
Qed.

(** X2: what the driver does to the files: every page row of the sheet has
    its file afterwards; no file is deleted; and a path that is the file
    of no page row keeps the content it had, or stays absent. *)
Theorem main_files (fs : filesystem) (sheet : list row) :
  (forall r, In r (map normalize_keys sheet) -> row_is_page r = true ->
     is_Some (files (main fs sheet) !! output_path (row_key r ++ u ".md"))) /\
  (forall path, is_Some (fs !! path) ->
     is_Some (files (main fs sheet) !! path)) /\
  (forall path,
     (forall r, In r (map normalize_keys sheet) -> row_is_page r = true ->
        output_path (row_key r ++ u ".md") <> path) ->
     files (main fs sheet) !! path = fs !! path).
Proof. unfold main. apply fold_process_row_files. Qed.

End Driver.

(** * Integer numerals *)

(** The characters of an integer numeral: a digit, a sign or the point. *)
Lemma numeral_char_cases c :
  is_digit_ascii c = true \/ c = 45 \/ c = 46 ->
  In c [45; 46; 48; 49; 50; 51; 52; 53; 54; 55; 56; 57].
Proof.
  unfold is_digit_ascii. rewrite andb_true_iff, !N.leb_le. simpl. lia.
Qed.

Lemma numeral_char_plain c :
  is_digit_ascii c = true \/ c = 45 \/ c = 46 ->
  isspace c = false /\ c_isspace c = false /\ (c <? 128) = true /\
  (c =? 95) = false /\ lower_char c = c /\
  c <> 105 /\ c <> 110 /\ c <> 43.
Proof.
  intros Hc. apply numeral_char_cases in Hc. simpl in Hc.
  repeat destruct Hc as [<-|Hc]; try done; by vm_compute.
Qed.

Lemma lstrip_by_keep f c s : f c = false -> lstrip_by f (c :: s) = c :: s.
Proof. intros Hc. simpl. by rewrite Hc. Qed.

Lemma rstrip_by_trimmed f s :
  match last s with Some c => f c = false | None => True end ->
  rstrip_by f s = s.
Proof.
  induction s as [|c s IH]; [done|]. intros Hl. simpl.
  destruct s as [|c' s].
  - simpl in *. by rewrite Hl.
  - rewrite IH by exact Hl. done.
Qed.

Lemma Forall_last {A} (P : A -> Prop) s :
  Forall P s -> match last s with Some c => P c | None => True end.
Proof.
  induction 1 as [|c s Hc Hs IH]; [done|]. destruct s; [done|]. exact IH.
Qed.

Section Numerals.
Context {U : UnicodeData}.


Lemma numeral_to_ascii s :
  Forall numeral_char s -> to_ascii_decimal s = Some s.
Proof.
  induction 1 as [|c s Hc Hs IH]; [done|]. simpl.
  destruct (numeral_char_plain c Hc) as (_ & _ & -> & _). by rewrite IH.
Qed.

Lemma numeral_no_underscore s :
  Forall numeral_char s -> existsb (N.eqb 95) s = false.
Proof.
  induction 1 as [|c s Hc Hs IH]; [done|]. cbn [existsb].
  destruct (numeral_char_plain c Hc) as (_ & _ & _ & Hu & _).
  rewrite N.eqb_sym, Hu. exact IH.
Qed.

Lemma numeral_strip f s :
  (forall c, numeral_char c -> f c = false) ->
  Forall numeral_char s -> lstrip_by f (rstrip_by f s) = s.
Proof.
  intros Hf Hs. rewrite rstrip_by_trimmed.
  - destruct Hs as [|c s Hc Hs]; [done|]. apply lstrip_by_keep. by apply Hf.
  - apply Forall_last in Hs. destruct (last s); [by apply Hf|done].
Qed.

Lemma numeral_py_float s :
  Forall numeral_char s -> py_float (strip s) = parse_float s.
Proof.
  intros Hs. unfold strip, lstrip, rstrip.
  rewrite (numeral_strip isspace) by
    (done || intros c Hc; by destruct (numeral_char_plain c Hc) as (-> & _)).
  unfold py_float. rewrite numeral_to_ascii, numeral_no_underscore by done.
  unfold c_strip. rewrite (numeral_strip c_isspace); [done| |done].
  intros c Hc. by destruct (numeral_char_plain c Hc) as (_ & -> & _).
Qed.

Lemma numeral_not_missing c s :
  numeral_char c -> Forall numeral_char s -> is_missing (VStr (c :: s)) = false.
Proof.
  intros Hc Hs. rewrite is_missing_str. unfold strip, lstrip, rstrip.
  rewrite (numeral_strip isspace);
    [|intros c' Hc'; by destruct (numeral_char_plain c' Hc') as (-> & _)
     |by constructor].
  destruct (numeral_char_plain c Hc) as (_ & _ & _ & _ & Hl & _ & Hn & _).
  unfold pystr_eqb. rewrite !bool_decide_eq_false_2; [done| |done].
  simpl. rewrite Hl. intros [= ->]. done.
Qed.


Lemma span_digits_app ds tail :
  Forall (fun c => is_digit_ascii c = true) ds ->
  span_digits tail = ([], tail) ->
  span_digits (ds ++ tail) = (ds, tail).
Proof.
  intros Hds Ht. induction Hds as [|c ds Hc Hds IH]; [done|].
  simpl. by rewrite Hc, IH.
Qed.

Lemma digits_value_app ds zs :
  Forall (fun c => c = 48) zs ->
  digits_value (ds ++ zs) = (digits_value ds * 10 ^ Z.of_nat (length zs))%Z.
Proof.
  unfold digits_value. rewrite fold_left_app.
  generalize (fold_left (fun a c => (10 * a + Z.of_N (c - 48))%Z) ds 0%Z) as a.
  intros a Hzs. revert a. induction Hzs as [|c zs -> Hzs IH]; intros a.
  - simpl. lia.
  - cbn [fold_left length]. rewrite IH. rewrite Nat2Z.inj_succ, Z.pow_succ_r by lia.
    change (Z.of_N (48 - 48)) with 0%Z. lia.
Qed.

Lemma digits_value_nonneg ds : (0 <= digits_value ds)%Z.
Proof.
  unfold digits_value.
  assert (forall a, (0 <= a)%Z ->
    (0 <= fold_left (fun a c => (10 * a + Z.of_N (c - 48))%Z) ds a)%Z) as Hf.
  { induction ds as [|c ds IH]; intros a Ha; [done|]. simpl. apply IH. lia. }
  by apply Hf.
Qed.

Lemma round_half_even_exact q d :
  (0 < d)%Z -> round_half_even (q * d) d = q.
Proof.
  intros Hd. unfold round_half_even.
  rewrite Z.mod_mul, Z.div_mul by lia.
  by rewrite (proj2 (Z.ltb_lt _ _)) by lia.
Qed.

Lemma floor_log2_frac_integer m den :
  (0 < m < 2 ^ 53)%Z -> (0 < den)%Z -> (floor_log2_frac (m * den) den <= 52)%Z.
Proof.
  intros Hm Hden. unfold floor_log2_frac. cbv zeta.
  assert (Z.log2 m < 53)%Z as Hlm by (apply Z.log2_lt_pow2; lia).
  pose proof (Z.log2_mul_above m den ltac:(lia) ltac:(lia)) as Habove.
  set (g := (Z.log2 (m * den) - Z.log2 den)%Z) in *.
  destruct (0 <=? g)%Z eqn:Hg.
  - apply Z.leb_le in Hg.
    destruct (den * 2 ^ g <=? m * den)%Z eqn:Hc; [|lia].
    apply Z.leb_le in Hc.
    destruct (decide (g <= 52)%Z) as [|Hbig]; [done|].
    assert (2 ^ 53 <= 2 ^ g)%Z by (apply Z.pow_le_mono_r; lia). nia.
  - apply Z.leb_gt in Hg. destruct (_ <=? _)%Z; lia.
Qed.

(** A fraction whose value is an integer below [2^53] is that binary64
    value, and [int] gives the integer back. *)
Lemma nearest_double_integer neg m den :
  (0 < m < 2 ^ 53)%Z -> (0 < den)%Z ->
  py_int (nearest_double neg (m * den) den) = Some (if neg then - m else m)%Z.
Proof.
  intros Hm Hden. unfold nearest_double.
  pose proof (floor_log2_frac_integer m den Hm Hden) as Hfl.
  set (e := Z.max (floor_log2_frac (m * den) den - 52) (-1074)).
  assert (-1074 <= e <= 0)%Z as He by lia. clearbody e. cbv zeta.
  destruct (0 <=? e)%Z eqn:H0.
  - apply Z.leb_le in H0. assert (e = 0%Z) as -> by lia.
    rewrite Z.pow_0_r, !Z.mul_1_r, round_half_even_exact by done.
    assert (2 ^ 53 < 2 ^ 1024)%Z by (apply Z.pow_lt_mono_r; lia).
    rewrite (proj2 (Z.leb_gt _ _)) by lia. simpl andb. cbv iota.
    unfold py_int. simpl. by rewrite Z.mul_1_r.
  - apply Z.leb_gt in H0. simpl andb. cbv iota.
    assert (0 < 2 ^ (- e))%Z as Hp by (apply Z.pow_pos_nonneg; lia).
    replace (m * den * 2 ^ (- e))%Z with (m * 2 ^ (- e) * den)%Z by lia.
    rewrite round_half_even_exact by done.
    unfold py_int. rewrite (proj2 (Z.leb_gt _ _)) by lia.
    by rewrite Z.div_mul by lia.
Qed.

Lemma decimal_to_float_integer neg m k :
  (0 <= m < 2 ^ 53)%Z -> (0 <= k)%Z ->
  py_int (decimal_to_float neg (m * 10 ^ k) (- k))
  = Some (if neg then - m else m)%Z.
Proof.
  intros Hm Hk. unfold decimal_to_float.
  assert (0 < 10 ^ k)%Z as Hp by (apply Z.pow_pos_nonneg; lia).
  destruct (m * 10 ^ k =? 0)%Z eqn:Hz.
  - apply Z.eqb_eq in Hz. assert (m = 0%Z) as -> by nia. by destruct neg.
  - apply Z.eqb_neq in Hz. assert (0 < m)%Z by nia.
    destruct (0 <=? - k)%Z eqn:Hs.
    + apply Z.leb_le in Hs. assert (k = 0%Z) as -> by lia.
      simpl Z.opp. rewrite !Z.pow_0_r, !Z.mul_1_r.
      rewrite <- (Z.mul_1_r m) at 1. apply nearest_double_integer; lia.
    + rewrite Z.opp_involutive. apply nearest_double_integer; lia.
Qed.

Lemma read_sign_other c s :
  c <> 45 -> c <> 43 -> read_sign (c :: s) = (false, c :: s).
Proof.
  intros H45 H43. unfold read_sign. destruct c as [|p]; [done|].
  repeat (destruct p as [p|p|]; try done).
Qed.

Lemma parse_float_unsigned neg c ds tail :
  Forall (fun c => is_digit_ascii c = true) (c :: ds) ->
  read_sign ((if neg : bool then [45] else []) ++ (c :: ds) ++ tail)
    = (neg, (c :: ds) ++ tail) /\
  pystr_eqb (lower ((c :: ds) ++ tail)) (u "inf") = false /\
  pystr_eqb (lower ((c :: ds) ++ tail)) (u "infinity") = false /\
  pystr_eqb (lower ((c :: ds) ++ tail)) (u "nan") = false.
Proof.
  intros Hds. apply Forall_cons in Hds as [Hc Hds].
  destruct (numeral_char_plain c (or_introl Hc))
    as (_ & _ & _ & _ & Hl & Hi & Hn & Hp).
  split; [|unfold pystr_eqb; rewrite !bool_decide_eq_false_2; try done;
           simpl; rewrite Hl; intros [= ->]; done].
  destruct neg; [done|]. apply read_sign_other; [|done].
  intros ->. done.
Qed.

Lemma parse_float_integer neg ds zs :
  ds <> [] ->
  Forall (fun c => is_digit_ascii c = true) ds ->
  Forall (fun c => c = 48) zs ->
  parse_float ((if neg : bool then [45] else []) ++ ds)
    = Some (decimal_to_float neg (digits_value ds * 10 ^ 0) (- 0)) /\
  parse_float ((if neg : bool then [45] else []) ++ ds ++ [46] ++ zs)
    = Some (decimal_to_float neg
              (digits_value ds * 10 ^ Z.of_nat (length zs))
              (- Z.of_nat (length zs))).
Proof.
  intros Hne Hds Hzs. destruct ds as [|c ds]; [done|]. clear Hne.
  assert (Forall (fun c => is_digit_ascii c = true) zs) as Hzd
    by (eapply Forall_impl; [exact Hzs|]; by intros ? ->).
  split.
  - destruct (parse_float_unsigned neg c ds [] Hds) as (Hs & H1 & H2 & H3).
    rewrite app_nil_r in Hs, H1, H2, H3.
    unfold parse_float. rewrite Hs, H1, H2, H3. simpl orb. cbv iota.
    rewrite <- (app_nil_r (c :: ds)) at 1.
    rewrite (span_digits_app (c :: ds) []) by done.
    rewrite app_nil_r. simpl length. by rewrite Z.pow_0_r, Z.mul_1_r.
  - destruct (parse_float_unsigned neg c ds ([46] ++ zs) Hds) as (Hs & H1 & H2 & H3).
    unfold parse_float. rewrite Hs, H1, H2, H3. simpl orb. cbv iota.
    rewrite (span_digits_app (c :: ds) ([46] ++ zs)) by done.
    change ([46] ++ zs) with (46 :: zs). cbv iota beta.
    rewrite <- (app_nil_r zs) at 1.
    rewrite (span_digits_app zs []) by done.
    rewrite digits_value_app by done. done.
Qed.

(** The digits, with a minus sign or none before them, and nothing or a
    point and zeros after them. *)
Lemma numeral_as_int (neg : bool) (ds zs tail : pystr) (d : Z) :
  ds <> [] ->
  Forall (fun c => is_digit_ascii c = true) ds ->
  Forall (fun c => c = 48) zs ->
  (digits_value ds < 2 ^ 53)%Z ->
  tail = [] \/ tail = [46] ++ zs ->
  as_int (VStr ((if neg then [45] else []) ++ ds ++ tail)) d
  = (if neg then - digits_value ds else digits_value ds)%Z.
Proof.
  intros Hne Hds Hzs Hlt Htail.
  pose proof (digits_value_nonneg ds) as H0.
  destruct (parse_float_integer neg ds zs Hne Hds Hzs) as [Hp1 Hp2].
  assert (Forall numeral_char ds) as Hnd
    by (eapply Forall_impl; [exact Hds|]; intros c Hc; by left).
  assert (Forall numeral_char tail) as Hnt.
  { destruct Htail as [->| ->]; [done|].
    constructor; [right; by right|].
    eapply Forall_impl; [exact Hzs|]. intros c ->. by left. }
  assert (Forall numeral_char ((if neg then [45] else []) ++ ds ++ tail)) as Hall.
  { apply Forall_app_2; [|by apply Forall_app_2].
    destruct neg; [|done]. constructor; [right; by left|done]. }
  assert (exists x,
            parse_float ((if neg then [45] else []) ++ ds ++ tail) = Some x /\
            py_int x = Some (if neg then - digits_value ds else digits_value ds)%Z)
    as (x & Hx & Hi).
  { destruct Htail as [->| ->].
    - rewrite app_nil_r. eexists. split; [exact Hp1|].
      apply decimal_to_float_integer; lia.
    - eexists. split; [exact Hp2|]. apply decimal_to_float_integer; lia. }
  rewrite (as_int_parsed _ d x); [by rewrite Hi| |].
  - destruct ((if neg then [45] else []) ++ ds ++ tail) as [|c s] eqn:Hs.
    + destruct neg; [done|]. by destruct ds.
    + apply Forall_cons in Hall as [Hc Hs']. by apply numeral_not_missing.
  - simpl str. by rewrite numeral_py_float.
Qed.

(** X14: [as_int] reads an integer numeral exactly: digits, with or without a
    minus sign, and with or without a point and zeros after them, give
    the integer the digits write, as long as it is below [2^53]. *)
Theorem as_int_integer_numeral (neg : bool) (ds zs : pystr) (d : Z) :
  ds <> [] ->
  Forall (fun c => is_digit_ascii c = true) ds ->
  Forall (fun c => c = 48) zs ->
  (digits_value ds < 2 ^ 53)%Z ->
  as_int (VStr ((if neg then [45] else []) ++ ds)) d
    = (if neg then - digits_value ds else digits_value ds)%Z /\
  as_int (VStr ((if neg then [45] else []) ++ ds ++ [46] ++ zs)) d
    = (if neg then - digits_value ds else digits_value ds)%Z.
Proof.
  intros Hne Hds Hzs Hlt. split.
  - pose proof (numeral_as_int neg ds zs [] d Hne Hds Hzs Hlt (or_introl eq_refl))
      as Hn.
    by rewrite app_nil_r in Hn.
  - by apply (numeral_as_int neg ds zs ([46] ++ zs)); [..|right].
Qed.

Lemma as_int_pad w1 s w2 d :
  all_space w1 -> all_space w2 ->
  as_int (VStr (w1 ++ s ++ w2)) d = as_int (VStr s) d.
Proof.
  intros H1 H2. unfold as_int. rewrite !is_missing_str. simpl str.
  by rewrite strip_pad.
Qed.

(** X15: the navigation order of a row whose display order is an integer
    numeral, with or without white space around it and a point and zeros
    after it, is the integer written, and 1 when that is zero. *)
Theorem row_nav_order_numeral (r : row) (w1 w2 ds zs : pystr) :
  all_space w1 -> all_space w2 ->
  ds <> [] ->
  Forall (fun c => is_digit_ascii c = true) ds ->
  Forall (fun c => c = 48) zs ->
  (digits_value ds < 2 ^ 53)%Z ->
  display_order r = Some (w1 ++ ds ++ w2) \/
  display_order r = Some (w1 ++ (ds ++ [46] ++ zs) ++ w2) ->
  row_nav_order r = Z.max 1 (digits_value ds).
Proof.
  intros H1 H2 Hne Hds Hzs Hlt Hd.
  assert (as_int (row_get (display_order r) (VInt 0)) 0 = digits_value ds) as Hn.
  { destruct Hd as [-> | ->]; simpl row_get; rewrite as_int_pad by done.
    - pose proof (numeral_as_int false ds zs [] 0 Hne Hds Hzs Hlt
                    (or_introl eq_refl)) as Hn.
      simpl app in Hn. by rewrite app_nil_r in Hn.
    - by apply (numeral_as_int false ds zs ([46] ++ zs) 0); [..|right]. }
  unfold row_nav_order. rewrite Hn. cbv zeta.
  destruct (digits_value ds <=? 0)%Z eqn:Hle.
  - apply Z.leb_le in Hle. lia.
  - apply Z.leb_gt in Hle. lia.
Qed.

End Numerals.

(** The results above at sample inputs, with the ASCII tables. *)
Section NumeralsAt.
#[local] Existing Instance ascii_tables.

Lemma as_int_integer_numeral_witness :
  as_int (VStr ([] ++ u "12")) 0 = 12%Z /\
  as_int (VStr ([] ++ u "12" ++ [46] ++ u "00")) 0 = 12%Z.
Proof.
  apply (as_int_integer_numeral false (u "12") (u "00") 0).
  - done.
  - repeat constructor.
  - repeat constructor.
  - by vm_compute.
Defined.

Lemma row_nav_order_numeral_witness :
  row_nav_order (sample_row (Some (u " 12.0"))) = Z.max 1 (digits_value (u "12")).
Proof.
  apply (row_nav_order_numeral (sample_row (Some (u " 12.0")))
           (u " ") [] (u "12") (u "0")).
  - repeat constructor.
  - constructor.
  - done.
  - repeat constructor.
  - repeat constructor.
  - by vm_compute.
  - right. reflexivity.
Defined.

End NumeralsAt.

(** * Footers and bodies with tags *)

Section Tags.
Context {U : UnicodeData}.

Lemma rule_text_no_lt w : rule_text w -> 60 ∉ w.
Proof.
  intros [Hw|(n & sp & -> & Hn & Hsp)]; [by apply all_space_no_lt|].
  intros Hin. apply elem_of_app in Hin as [Hin|Hin];
    [by apply all_space_no_lt in Hin|].
  apply elem_of_app in Hin as [Hin|Hin]; [|by apply all_space_no_lt in Hin].
  by apply not_elem_of_dashes in Hin.
Qed.

Lemma rule_text_app w sp : rule_text w -> all_space sp -> rule_text (w ++ sp).
Proof.
  intros [Hw|(n & sp' & -> & Hn & Hsp')] Hsp.
  - left. by apply all_space_app.
  - right. exists n, (sp' ++ sp). split; [by rewrite <- !app_assoc|].
    split; [done|]. by apply all_space_app.
Qed.

Lemma footer_opening_lt p s p' s' :
  matches footer_opening p s p' s' -> exists t, s = 60 :: t.
Proof.
  unfold footer_opening. intros Hm.
  apply matches_alt_inv in Hm as [Hm|Hm];
    [by apply matches_liti_lt_inv in Hm|].
  apply matches_alt_inv in Hm as [Hm|Hm].
  - unfold marker_re in Hm. apply matches_cat_cons_inv in Hm as (p1 & s1 & Hm & _).
    by apply matches_liti_lt_inv in Hm.
  - apply matches_alt_inv in Hm as [Hm|Hm]; by apply matches_liti_lt_inv in Hm.
Qed.

(** The rule prefix reads a rule text, and then either stops or goes on
    with a [<hr] tag. *)
Lemma rule_before_opening p s p1 s1 :
  matches rule_before p s p1 s1 ->
  exists w1, rule_text w1 /\
    (s = w1 ++ s1 \/
     exists rest pa pb sb, s = w1 ++ rest /\ matches (liti "<hr") pa rest pb sb).
Proof.
  unfold rule_before. intros Hm.
  apply matches_cat_cons_inv in Hm as (pa & sa & Ha & Hm).
  apply matches_cat_cons_inv in Hm as (pb & sb & Hb & Hc).
  simpl in Hc. apply matches_star_inv in Hc as (wc & -> & Hwc).
  assert (exists wa, s = wa ++ sa /\ rule_text wa) as (wa & -> & Hwa).
  { apply matches_opt_inv in Ha as [Ha|[_ ->]];
      [|exists []; split; [done | left; constructor]].
    apply matches_seq_inv in Ha as (p2 & s2 & Hn & Ho).
    apply matches_rep_inv in Hn as (n & -> & Hn). apply newlines_are_space in Hn.
    apply matches_opt_inv in Ho as [Ho|[_ ->]];
      [|exists n; split; [done | by left]].
    apply matches_cat_cons_inv in Ho as (p3 & s3 & Hd & Ho).
    apply dashes_inv in Hd as ->.
    apply matches_cat_cons_inv in Ho as (p4 & s4 & Hs & Ho).
    apply matches_star_inv in Hs as (sp & -> & Hsp).
    simpl in Ho. apply matches_rep_inv in Ho as (n2 & -> & Hn2).
    apply newlines_are_space in Hn2.
    exists (n ++ [45; 45; 45] ++ sp ++ n2). split; [by rewrite <- !app_assoc|].
    right. exists n, (sp ++ n2). split; [done|]. split; [done|].
    by apply all_space_app. }
  apply matches_opt_inv in Hb as [Hb|[_ <-]].
  - apply matches_cat_cons_inv in Hb as (p2 & s2 & Hs & Hb).
    apply matches_star_inv in Hs as (sp & -> & Hsp).
    apply matches_cat_cons_inv in Hb as (p3 & s3 & Hh & Hb).
    exists (wa ++ sp). split; [by apply rule_text_app|].
    right. exists s2, p2, p3, s3. split; [by rewrite <- app_assoc | done].
  - exists (wa ++ wc). split; [by apply rule_text_app|].
    left. by rewrite <- app_assoc.
Qed.

(** What the removal pattern matches is a rule text and then one of the
    openings. *)
Lemma removal_match_opening p s p' s' :
  matches EU_BLOCK_REMOVE_RE p s p' s' ->
  exists w1 rest pa pb sb,
    s = w1 ++ rest /\ rule_text w1 /\ matches footer_opening pa rest pb sb.
Proof.
  intros Hm.
  assert (exists p1 s1 p2 s2,
            matches rule_before p s p1 s1 /\
            matches (Alt marker_re (Alt (liti "<table") (liti "<div"))) p1 s1 p2 s2)
    as (p1 & s1 & p2 & s2 & Hr & Ho).
  { apply matches_alt_inv in Hm as [Hm|Hm];
      [|apply matches_alt_inv in Hm as [Hm|Hm]].
    - unfold footer_marker_alt in Hm.
      apply matches_cat_cons_inv in Hm as (p1 & s1 & Hr & Hm).
      apply matches_cat_cons_inv in Hm as (p2 & s2 & Hk & _).
      exists p1, s1, p2, s2. split; [done|]. by apply M_AltL.
    - unfold footer_table_alt in Hm.
      apply matches_cat_cons_inv in Hm as (p1 & s1 & Hr & Hm).
      apply matches_cat_cons_inv in Hm as (p2 & s2 & Hk & _).
      exists p1, s1, p2, s2. split; [done|]. apply M_AltR. by apply M_AltL.
    - unfold footer_div_alt in Hm.
      apply matches_cat_cons_inv in Hm as (p1 & s1 & Hr & Hm).
      apply matches_cat_cons_inv in Hm as (p2 & s2 & Hk & _).
      exists p1, s1, p2, s2. split; [done|]. apply M_AltR. by apply M_AltR. }
  apply rule_before_opening in Hr as (w1 & Hw1 & [->|(rest & pa & pb & sb & -> & Hh)]).
  - exists w1, s1, p1, p2, s2. repeat split; [done|]. unfold footer_opening.
    by apply M_AltR.
  - exists w1, rest, pa, pb, sb. repeat split; [done|]. by apply M_AltL.
Qed.

(** ** Texts in which no opening starts *)

Lemma tag_free_nil : tag_free [].
Proof. intros a b T p p' s' Heq Hb. symmetry in Heq. by apply app_eq_nil in Heq as [_ ->]. Qed.

Lemma tag_free_cons c X : c <> 60 -> tag_free X -> tag_free (c :: X).
Proof.
  intros Hc HX a b T p p' s' Heq Hb Hm.
  destruct a as [|c' a]; simpl in Heq.
  - subst b. apply footer_opening_lt in Hm as [t Ht]. simpl in Ht.
    inversion Ht. done.
  - inversion Heq; subst. by eapply HX.
Qed.

Lemma tag_free_no_lt X : 60 ∉ X -> tag_free X.
Proof.
  induction X as [|c X IH]; intros Hlt; [apply tag_free_nil|].
  apply tag_free_cons.
  - intros ->. apply Hlt. by left.
  - apply IH. intros Hin. apply Hlt. by right.
Qed.

Lemma tag_free_app X Y : tag_free X -> tag_free Y -> tag_free (X ++ Y).
Proof.
  intros HX HY a b T p p' s' Heq Hb Hm.
  apply app_eq_app in Heq as [l [[-> ->]|[-> ->]]].
  - destruct (decide (l = [])) as [->|Hl].
    + by eapply (HY [] Y).
    + rewrite <- app_assoc in Hm. by eapply (HX a l).
  - by eapply (HY l b).
Qed.

(** A text that starts with [<] on which the openings fail, whatever comes
    after the text. *)
Lemma tag_free_cons_lt X :
  (forall T p, run footer_opening (fun _ s => Some s) p (60 :: X ++ T) = None) ->
  tag_free X -> tag_free (60 :: X).
Proof.
  intros Hrun HX a b T p p' s' Heq Hb Hm.
  destruct a as [|c' a]; simpl in Heq.
  - subst b.
    assert (is_Some (run footer_opening (fun _ s => Some s) p (60 :: X ++ T)))
      as [x Hx] by (eapply run_complete; [exact Hm | by eexists]).
    by rewrite Hrun in Hx.
  - inversion Heq; subst. by eapply HX.
Qed.

(** ** What the removal does around a tag-free body *)

Lemma removal_keeps_tag_free X :
  tag_free X -> re_sub EU_BLOCK_REMOVE_RE [] X = X.
Proof.
  intros HX.
  destruct (removal_sub_cases X) as [[Hs _]|(sk & mid & p1 & p' & -> & _ & Hm & _)];
    [done|].
  exfalso. apply removal_match_opening in Hm as (w1 & rest & pa & pb & sb & -> & _ & Ho).
  destruct (footer_opening_lt _ _ _ _ Ho) as [t ->].
  eapply (HX (sk ++ w1) (60 :: t) []); [by rewrite <- app_assoc | done |].
  rewrite app_nil_r. exact Ho.
Qed.

Lemma rstrip_pad X w : right_trimmed X -> all_space w -> rstrip (X ++ w) = X.
Proof.
  intros HX Hw. unfold rstrip. rewrite rstrip_by_app_space by done.
  by apply rstrip_trimmed.
Qed.

Lemma right_trimmed_dashes a : right_trimmed (a ++ [45; 45; 45]).
Proof. unfold right_trimmed. by rewrite last_app. Qed.

Lemma removal_at_footer X w F :
  tag_free X -> right_trimmed X -> ~ ends_with_rule X -> all_space w ->
  footer_variant F ->
  rstrip (re_sub EU_BLOCK_REMOVE_RE [] (X ++ w ++ F)) = X.
Proof.
  intros HX Htrim Hrule Hw (Hhead & _ & HF).
  assert (forall p, is_Some (run EU_BLOCK_REMOVE_RE (accept false F) p F)) as Hrun.
  { intros p. destruct (HF p) as [p' Hm].
    eapply run_complete; [exact Hm | by eexists]. }
  destruct F as [|f F']; [done|]. simpl in Hhead. inversion Hhead; subst f.
  destruct (removal_sub_cases (X ++ w ++ 60 :: F'))
    as [[_ Hno]|(sk & mid & p1 & p' & Heq & -> & Hm & Hno)].
  - exfalso. destruct (Hno (X ++ w) (60 :: F')) as [p2 Hp2];
      [by rewrite <- app_assoc|].
    destruct (Hrun p2) as [x Hx]. congruence.
  - (* the match starts in the body or in the white space after it *)
    assert (exists c, X ++ w = sk ++ c /\ mid = c ++ 60 :: F') as (c & Hsk & ->).
    { rewrite app_assoc in Heq.
      apply app_eq_app in Heq as [l [[H1 H2]|[H1 H2]]]; [by exists l|].
      destruct (decide (l = [])) as [->|Hl].
      - exists []. rewrite app_nil_r in H1. simpl in H2.
        by rewrite app_nil_r, H1, H2.
      - exfalso. destruct (Hno _ _ H1 Hl) as [p2 Hp2]. rewrite <- H2 in Hp2.
        destruct (Hrun p2) as [x Hx]. congruence. }
    apply removal_match_opening in Hm
      as (w1 & rest & pa & pb & sb & Hmid & Hw1 & Ho).
    destruct (footer_opening_lt _ _ _ _ Ho) as [t ->].
    (* the opening is the one of the footer *)
    assert (c = w1) as ->.
    { apply app_eq_app in Hmid as [l [[H1 H2]|[H1 H2]]].
      - (* the opening starts before the footer *)
        destruct l as [|x l]; [by rewrite app_nil_r in H1|]. exfalso.
        simpl in H2. inversion H2 as [[Hx Ht]]. subst x. clear H2.
        rewrite H1, app_assoc in Hsk.
        apply app_eq_app in Hsk as [l2 [[H3 H4]|[H3 H4]]].
        + destruct l2 as [|y l2].
          * simpl in H4. subst w. apply all_space_no_lt in Hw. apply Hw. by left.
          * simpl in H4. inversion H4 as [[Hy Hl]]. subst y.
            eapply (HX (sk ++ w1) (60 :: l2) (w ++ 60 :: F')); [done|done|].
            assert ((60 :: l2) ++ w ++ 60 :: F' = 60 :: t) as ->; [|exact Ho].
            simpl. f_equal. rewrite Ht, Hl. by rewrite <- app_assoc.
        + apply all_space_no_lt in Hw. apply Hw. rewrite H4.
          apply elem_of_app. right. by left.
      - (* the rule text would hold the [<] of the footer *)
        destruct l as [|x l]; [by rewrite app_nil_r in H1|]. exfalso.
        simpl in H2. inversion H2; subst x.
        apply (rule_text_no_lt _ Hw1). rewrite H1. apply elem_of_app. right. by left. }
    pose proof (rstrip_pad X w Htrim Hw) as HXw. rewrite Hsk in HXw.
    destruct Hw1 as [Hw1|(n & sp & -> & Hn & Hsp)].
    + rewrite <- HXw. unfold rstrip. by rewrite rstrip_by_app_space.
    + exfalso. apply Hrule. exists (sk ++ n). rewrite <- HXw.
      replace (sk ++ n ++ [45; 45; 45] ++ sp)
        with (((sk ++ n) ++ [45; 45; 45]) ++ sp) by (by rewrite <- !app_assoc).
      apply rstrip_pad; [apply right_trimmed_dashes | done].
Qed.


Lemma canonical_footer_variant : footer_variant (rstrip EU_FUNDING_BLOCK).
Proof.
  split; [by vm_compute|]. split; [by vm_compute|]. intros p.
  assert (rstrip EU_FUNDING_BLOCK
          = EU_BLOCK_MARKER ++ drop (length EU_BLOCK_MARKER) (rstrip EU_FUNDING_BLOCK))
    as -> by (vm_compute; reflexivity).
  apply removal_matches_marker.
Qed.

Lemma rstrip_before_footer X :
  rstrip (X ++ [nl; nl] ++ EU_FUNDING_BLOCK)
  = X ++ [nl; nl] ++ rstrip EU_FUNDING_BLOCK.
Proof.
  rewrite (app_assoc X), rstrip_app_keep, <- app_assoc; [done|].
  vm_compute. discriminate.
Qed.

Lemma ensure_keeps_tag_free X w2 :
  tag_free X -> right_trimmed X -> all_space w2 ->
  ensure_eu_block_at_end (X ++ w2) = X ++ [nl; nl] ++ EU_FUNDING_BLOCK.
Proof.
  intros HX Htrim Hw2. rewrite ensure_eu_block_at_end_eq.
  rewrite (rstrip_pad X w2 Htrim Hw2), (removal_keeps_tag_free X HX).
  by rewrite (rstrip_trimmed X Htrim).
Qed.

Lemma ensure_after_footer X :
  tag_free X -> right_trimmed X -> ~ ends_with_rule X ->
  ensure_eu_block_at_end (X ++ [nl; nl] ++ EU_FUNDING_BLOCK)
  = X ++ [nl; nl] ++ EU_FUNDING_BLOCK.
Proof.
  intros HX Htrim Hrule.
  rewrite ensure_eu_block_at_end_eq, rstrip_before_footer.
  rewrite removal_at_footer; try done.
  - repeat constructor.
  - apply canonical_footer_variant.
Qed.

(** X7: a body in which no footer opening starts is kept whole, and the
    footer is put after it; unless the body ends with a rule of three
    dashes, a second pass gives what the first gave. *)
Theorem ensure_eu_block_stable_on_tag_free_body (X w2 : pystr) :
  tag_free X -> right_trimmed X -> all_space w2 ->
  ensure_eu_block_at_end (X ++ w2) = X ++ [nl; nl] ++ EU_FUNDING_BLOCK /\
  (~ ends_with_rule X ->
   ensure_eu_block_at_end (ensure_eu_block_at_end (X ++ w2))
   = ensure_eu_block_at_end (X ++ w2)).
Proof.
  intros HX Htrim Hw2.
  rewrite (ensure_keeps_tag_free X w2 HX Htrim Hw2). split; [done|].
  intros Hrule. by apply ensure_after_footer.
Qed.

(** X8: an earlier footer, in whatever variant the removal pattern knows, at
    the end of a body in which no footer opening starts is replaced by
    the one canonical footer, and the body before it is kept whole. *)
Theorem ensure_eu_block_replaces_footer (X w F w2 : pystr) :
  tag_free X -> right_trimmed X -> ~ ends_with_rule X ->
  all_space w -> footer_variant F -> all_space w2 ->
  ensure_eu_block_at_end (X ++ w ++ F ++ w2) = X ++ [nl; nl] ++ EU_FUNDING_BLOCK.
Proof.
  intros HX Htrim Hrule Hw HF Hw2. rewrite ensure_eu_block_at_end_eq.
  assert (rstrip (X ++ w ++ F ++ w2) = X ++ w ++ F) as ->.
  { destruct HF as (Hhead & HFt & _).
    rewrite !app_assoc. unfold rstrip. rewrite rstrip_by_app_space by done.
    rewrite <- !app_assoc, (app_assoc X w F). fold (rstrip ((X ++ w) ++ F)).
    rewrite rstrip_app_keep; rewrite HFt; [done|].
    by destruct F. }
  by rewrite removal_at_footer.
Qed.

Lemma not_elem_of_lt l : forallb (fun c => negb (c =? 60)) l = true -> 60 ∉ l.
Proof.
  intros Hl Hin. apply list_elem_of_In in Hin.
  rewrite forallb_forall in Hl. specialize (Hl _ Hin). done.
Qed.

Lemma not_ends_with_rule X :
  match last X with Some c => c <> 45 | None => True end -> ~ ends_with_rule X.
Proof. intros Hl [pre ->]. by rewrite last_app in Hl. Qed.

Lemma sample_body_tag_free :
  tag_free (u "<!-- page_id: a -->" ++ [nl] ++ u "# Title").
Proof.
  apply (tag_free_cons_lt (u "!-- page_id: a -->" ++ [nl] ++ u "# Title")).
  - intros T p. by vm_compute.
  - apply tag_free_no_lt, not_elem_of_lt. by vm_compute.
Qed.

Lemma legacy_table_footer_variant :
  footer_variant (u "<table><tr><td><img src='eu-funded.jpg'></td></tr></table>").
Proof.
  split; [by vm_compute|]. split; [by vm_compute|]. intros p.
  set (F := u _).
  assert (run EU_BLOCK_REMOVE_RE (fun _ s => Some s) p F = Some []) as Hrun
    by (by vm_compute).
  apply run_sound in Hrun as (p' & s' & Hm & Hs). inversion Hs; subst s'.
  by exists p'.
Qed.

End Tags.

(** The results above at sample inputs, with the ASCII tables. *)
Section TagsAt.
#[local] Existing Instance ascii_tables.

Lemma ensure_eu_block_stable_on_tag_free_body_witness :
  let X := u "<!-- page_id: a -->" ++ [nl] ++ u "# Title" in
  ensure_eu_block_at_end (X ++ [nl; nl]) = X ++ [nl; nl] ++ EU_FUNDING_BLOCK /\
  (~ ends_with_rule X ->
   ensure_eu_block_at_end (ensure_eu_block_at_end (X ++ [nl; nl]))
   = ensure_eu_block_at_end (X ++ [nl; nl])).
Proof.
  apply (ensure_eu_block_stable_on_tag_free_body
           (u "<!-- page_id: a -->" ++ [nl] ++ u "# Title") [nl; nl]).
  - apply sample_body_tag_free.
  - by vm_compute.
  - repeat constructor.
Defined.

Lemma ensure_eu_block_replaces_footer_witness :
  ensure_eu_block_at_end
    (u "# Page" ++ [nl; nl]
     ++ u "<table><tr><td><img src='eu-funded.jpg'></td></tr></table>" ++ [nl])
  = u "# Page" ++ [nl; nl] ++ EU_FUNDING_BLOCK.
Proof.
  apply (ensure_eu_block_replaces_footer (u "# Page") [nl; nl]
           (u "<table><tr><td><img src='eu-funded.jpg'></td></tr></table>") [nl]).
  - apply tag_free_no_lt, not_elem_of_lt. by vm_compute.
  - by vm_compute.
  - apply not_ends_with_rule. by vm_compute.
  - repeat constructor.
  - apply legacy_table_footer_variant.
  - repeat constructor.
Defined.

End TagsAt.

(** * A file that starts with a dumped front matter *)

Section RoundTrip.
Context {U : UnicodeData}.

Lemma frontmatter_run k s :
  run FRONTMATTER_RE k None (u "---" ++ s)
  = star_greedy isspace
      (run (Chr (chr_is nl)) (star_lazy any (run frontmatter_closing k)))
      (Some 45) s.
Proof. reflexivity. Qed.

(** The lazy star stops at the first place where the rest of the pattern
    matches. *)
Lemma star_lazy_first (k : cont) a w : forall t p,
  (forall w1 w2 p1, w = w1 ++ w2 -> w2 <> [] -> k p1 (w2 ++ t) = None) ->
  (forall p', k p' t = Some a) ->
  star_lazy any k p (w ++ t) = Some a.
Proof.
  induction w as [|c w IH]; intros t p Hno Hk.
  - simpl. destruct t; simpl; by rewrite Hk.
  - pose proof (Hno [] (c :: w) p eq_refl ltac:(done)) as H0.
    simpl in H0 |- *. rewrite H0.
    apply IH; [|done]. intros w1 w2 p1 -> Hw2. by apply (Hno (c :: w1) w2).
Qed.

Lemma closing_at_end (k : cont) p body :
  body = [] \/ starts_with_text body ->
  (forall p' s', k p' s' = Some s') ->
  run frontmatter_closing k p ([nl] ++ u "---" ++ [nl; nl] ++ body) = Some body.
Proof.
  intros Hb Hk. destruct Hb as [->|Hb].
  - simpl. by rewrite Hk.
  - destruct body as [|c b]; [done|]. simpl in Hb.
    assert (chr_is nl c = false) as Hc.
    { unfold chr_is. apply N.eqb_neq. intros <-. done. }
    simpl. rewrite Hb. simpl. unfold chr_is, nl, N.eqb in Hc. rewrite Hc.
    by rewrite Hk.
Qed.

Lemma closing_needs_dashes (k : cont) p s a :
  run frontmatter_closing k p s = Some a -> exists c, s = [nl] ++ u "---" ++ c.
Proof.
  intros Hrun. apply run_sound in Hrun as (p' & s' & Hm & _).
  unfold frontmatter_closing in Hm.
  apply matches_cat_cons_inv in Hm as (p1 & s1 & H1 & Hm).
  apply matches_chr_is_inv in H1 as ->.
  apply matches_cat_cons_inv in Hm as (p2 & s2 & H2 & Hm).
  apply matches_lit_inv in H2 as ->. by eexists.
Qed.


Lemma closing_not_in_dump (k : cont) y1 y2 p body :
  (forall x c, [nl] ++ ((y1 ++ y2) ++ [nl]) <> x ++ [nl] ++ u "---" ++ c) ->
  y2 <> [] ->
  run frontmatter_closing k p (y2 ++ [nl] ++ u "---" ++ [nl; nl] ++ body) = None.
Proof.
  intros Hno Hy2.
  destruct (run frontmatter_closing k p _) as [a|] eqn:Hrun; [exfalso|done].
  apply closing_needs_dashes in Hrun as [c Hc].
  destruct y2 as [|a1 [|a2 [|a3 [|a4 y4]]]]; try done;
    simpl in Hc; inversion Hc; subst.
  apply (Hno (nl :: y1) (y4 ++ [nl])). simpl. by rewrite <- !app_assoc.
Qed.

Lemma lazy_to_closing (k : cont) x y p body :
  (forall x' c, [nl] ++ ((x ++ y) ++ [nl]) <> x' ++ [nl] ++ u "---" ++ c) ->
  body = [] \/ starts_with_text body ->
  (forall p' s', k p' s' = Some s') ->
  star_lazy any (run frontmatter_closing k) p
    (y ++ [nl] ++ u "---" ++ [nl; nl] ++ body) = Some body.
Proof.
  intros Hno Hb Hk. apply star_lazy_first.
  - intros w1 w2 p1 -> Hw2. apply (closing_not_in_dump k (x ++ w1)); [|done].
    rewrite <- (app_assoc x w1 w2). exact Hno.
  - intros p'. by apply closing_at_end.
Qed.

Lemma frontmatter_match_of_dump (k : cont) D body :
  dump_well_formed D ->
  body = [] \/ starts_with_text body ->
  (forall p' s', k p' s' = Some s') ->
  run FRONTMATTER_RE k None
    (u "---" ++ [nl] ++ D ++ u "---" ++ [nl; nl] ++ body) = Some body.
Proof.
  intros [(D0 & -> & Hsp) Hno] Hb Hk. rewrite frontmatter_run.
  set (R := [nl] ++ u "---" ++ [nl; nl] ++ body).
  assert ([nl] ++ (D0 ++ [nl]) ++ u "---" ++ [nl; nl] ++ body = nl :: D0 ++ R)
    as -> by (by rewrite <- !app_assoc).
  set (k1 := run (Chr (chr_is nl)) (star_lazy any (run frontmatter_closing k))).
  assert (forall x y p, D0 = x ++ y -> k1 p (nl :: y ++ R) = Some body) as Hk1.
  { intros x y p ->. unfold k1. simpl run.
    change (chr_is nl nl) with true. cbv iota.
    by apply (lazy_to_closing k x). }
  assert (is_Some (star_greedy isspace k1 (Some 45) (nl :: D0 ++ R))) as [a Ha].
  { eapply star_greedy_complete; [apply M_StarNil|].
    rewrite (Hk1 [] D0 _ eq_refl). by eexists. }
  rewrite Ha. f_equal.
  apply star_greedy_sound in Ha as (p' & s' & Hm & Hs').
  apply matches_star_inv in Hm as (w & Hw & Hsp').
  (* the continuation starts with the line break it reads *)
  assert (exists s2, s' = nl :: s2) as [s2 ->].
  { unfold k1 in Hs'. cbn [run] in Hs'. destruct s' as [|c s2]; [done|].
    destruct (chr_is nl c) eqn:Hc; [|done].
    unfold chr_is in Hc. apply N.eqb_eq in Hc. subst c. by eexists. }
  (* and that line break stands before the dump or inside it *)
  assert (exists x y, D0 = x ++ y /\ s2 = y ++ R) as (x & y & HD0 & ->).
  { change (nl :: D0 ++ R) with ((nl :: D0) ++ R) in Hw.
    replace (w ++ nl :: s2) with ((w ++ [nl]) ++ s2) in Hw
      by (by rewrite <- app_assoc).
    apply app_eq_app in Hw as [l [[H1 H2]|[H1 H2]]].
    - destruct w as [|c w]; simpl in H1; inversion H1; subst.
      + by exists [], l.
      + exists (w ++ [nl]), l. by rewrite <- app_assoc.
    - exfalso. apply Hsp.
      assert (all_space (w ++ [nl])) as Hall
        by (apply all_space_app; [done | by repeat constructor]).
      rewrite H1 in Hall. apply Forall_app in Hall as [Hall _].
      by apply Forall_cons in Hall as [_ Hall]. }
  rewrite (Hk1 x y p' HD0) in Hs'. by inversion Hs'.
Qed.


Context {L : Libraries}.

Lemma dump_then_body fm body :
  safe_frontmatter_dump fm ++ body
  = u "---" ++ [nl] ++ yaml_safe_dump fm ++ u "---" ++ [nl; nl] ++ body.
Proof. unfold safe_frontmatter_dump. by rewrite <- !app_assoc. Qed.

Lemma frontmatter_match_dump fm body :
  dump_well_formed (yaml_safe_dump fm) ->
  body = [] \/ starts_with_text body ->
  re_match FRONTMATTER_RE (safe_frontmatter_dump fm ++ body) = Some body.
Proof.
  intros HD Hb. unfold re_match. rewrite dump_then_body.
  by apply frontmatter_match_of_dump.
Qed.

(** A match that leaves [body] splits the text there. *)
Lemma split_at_match front body :
  re_match FRONTMATTER_RE (front ++ body) = Some body ->
  split_frontmatter (front ++ body) = (front, body).
Proof.
  intros Hre. unfold split_frontmatter. rewrite Hre.
  replace (length (front ++ body) - length body)%nat with (length front)
    by (rewrite length_app; lia).
  by rewrite take_app_length, drop_app_length.
Qed.

(** X6: a file that starts with the dump of a front matter is split into
    that dump and the body after it, whatever the body holds, as long as
    the body is empty or starts with a character that is no white
    space. *)
Theorem split_frontmatter_of_dump (fm : frontmatter) (body : pystr) :
  dump_well_formed (yaml_safe_dump fm) ->
  body = [] \/ starts_with_text body ->
  split_frontmatter (safe_frontmatter_dump fm ++ body)
  = (safe_frontmatter_dump fm, body).
Proof.
  intros HD Hb. apply split_at_match. unfold re_match.
  rewrite dump_then_body. by apply frontmatter_match_of_dump.
Qed.

End RoundTrip.

Lemma dump_without_dash D0 :
  ~ all_space D0 -> 45 ∉ D0 -> dump_well_formed (D0 ++ [nl]).
Proof.
  intros Hsp Hd. split; [by exists D0|]. intros x c Heq.
  assert (45 ∈ [nl] ++ D0 ++ [nl]) as Hin.
  { rewrite Heq. apply elem_of_app. right. apply elem_of_app. right.
    apply elem_of_app. left. by left. }
  apply elem_of_app in Hin as [Hin|Hin].
  - apply elem_of_cons in Hin as [Hin|Hin]; [done|]. by apply elem_of_nil in Hin.
  - apply elem_of_app in Hin as [Hin|Hin]; [done|].
    apply elem_of_cons in Hin as [Hin|Hin]; [done|]. by apply elem_of_nil in Hin.
Qed.

Lemma not_elem_of_dash l : forallb (fun c => negb (c =? 45)) l = true -> 45 ∉ l.
Proof.
  intros Hl Hin. apply list_elem_of_In in Hin.
  rewrite forallb_forall in Hl. specialize (Hl _ Hin). done.
Qed.

(** The results above at sample inputs, with the ASCII tables and the
    stand-in libraries. *)
Section RoundTripAt.
#[local] Existing Instance ascii_tables.
#[local] Existing Instance plain_libraries.

Lemma split_frontmatter_of_dump_witness :
  split_frontmatter
    (safe_frontmatter_dump [("title"%string, YStr (u "Page"))] ++ u "# Page")
  = (safe_frontmatter_dump [("title"%string, YStr (u "Page"))], u "# Page").
Proof.
  apply (split_frontmatter_of_dump [("title"%string, YStr (u "Page"))] (u "# Page")).
  - apply (dump_without_dash (u "title")).
    + intros Hsp. by inversion Hsp.
    + apply not_elem_of_dash. by vm_compute.
  - right. by vm_compute.
Defined.

End RoundTripAt.

(** * Running the generator again *)

Section Rerun.
Context {U : UnicodeData} {L : Libraries}.

Lemma kept_body_footer X :
  kept_body X ->
  ensure_eu_block_at_end (X ++ [nl; nl] ++ EU_FUNDING_BLOCK)
  = X ++ [nl; nl] ++ EU_FUNDING_BLOCK.
Proof. intros (HX & Htrim & Hrule & _). by apply ensure_after_footer. Qed.

Lemma kept_body_starts X T : kept_body X -> starts_with_text (X ++ T).
Proof. intros (_ & _ & _ & Hs). by destruct X. Qed.

(** The body of a generated file is what the split gives, and the footer
    handling leaves it as it is. *)
Lemma generated_file_body fm X :
  dump_well_formed (yaml_safe_dump fm) -> kept_body X ->
  ensure_eu_block_at_end
    (split_frontmatter
       (safe_frontmatter_dump fm ++ X ++ [nl; nl] ++ EU_FUNDING_BLOCK)).2
  = X ++ [nl; nl] ++ EU_FUNDING_BLOCK.
Proof.
  intros HD HX. rewrite split_at_match.
  - by apply kept_body_footer.
  - apply frontmatter_match_dump; [done|]. right. by apply kept_body_starts.
Qed.

(** X5: on a file the generator left, a new run replaces the front matter
    and keeps the body, footer included, as it is. *)
Theorem upsert_markdown_file_keeps_body (fs : filesystem)
  (path front stub : pystr) (fm : frontmatter) (X : pystr) :
  fs !! path = Some (safe_frontmatter_dump fm ++ X ++ [nl; nl] ++ EU_FUNDING_BLOCK) ->
  dump_well_formed (yaml_safe_dump fm) -> kept_body X ->
  upsert_markdown_file fs path front stub
  = (<[path := front ++ X ++ [nl; nl] ++ EU_FUNDING_BLOCK]> fs, true).
Proof.
  intros Hf HD HX. unfold upsert_markdown_file. rewrite Hf.
  pose proof (generated_file_body fm X HD HX) as Hb.
  destruct (split_frontmatter _) as [f rest]. simpl in Hb. by rewrite Hb.
Qed.


(** ** The stub of a plain row *)

Lemma tag_free_comment pre Y :
  (forall T p, run footer_opening (fun _ s => Some s) p (60 :: pre ++ T) = None) ->
  60 ∉ pre -> tag_free Y -> tag_free (60 :: pre ++ Y).
Proof.
  intros Hrun Hpre HY. apply tag_free_cons_lt.
  - intros T p. rewrite <- app_assoc. apply Hrun.
  - apply tag_free_app; [by apply tag_free_no_lt | done].
Qed.

Lemma not_elem_of_lt_app a b : 60 ∉ a -> 60 ∉ b -> 60 ∉ a ++ b.
Proof. intros Ha Hb Hin. apply elem_of_app in Hin as [Hin|Hin]; done. Qed.

Lemma build_body_tag_free pid parent lang title :
  60 ∉ pid -> 60 ∉ parent -> 60 ∉ lang -> 60 ∉ title ->
  tag_free (u "<!-- page_id: " ++ pid ++ u " -->" ++ [nl]
            ++ u "<!-- parent_id: " ++ parent ++ u " -->" ++ [nl]
            ++ u "<!-- lang_code: " ++ lang ++ u " -->" ++ [nl; nl]
            ++ u "# " ++ title).
Proof.
  intros Hpid Hparent Hlang Htitle.
  apply (tag_free_comment (u "!-- page_id: "));
    [intros T p; by vm_compute | apply not_elem_of_lt; by vm_compute |].
  apply tag_free_app; [by apply tag_free_no_lt|].
  apply tag_free_app; [apply tag_free_no_lt, not_elem_of_lt; by vm_compute|].
  apply tag_free_app; [apply tag_free_no_lt, not_elem_of_lt; by vm_compute|].
  apply (tag_free_comment (u "!-- parent_id: "));
    [intros T p; by vm_compute | apply not_elem_of_lt; by vm_compute |].
  apply tag_free_app; [by apply tag_free_no_lt|].
  apply tag_free_app; [apply tag_free_no_lt, not_elem_of_lt; by vm_compute|].
  apply tag_free_app; [apply tag_free_no_lt, not_elem_of_lt; by vm_compute|].
  apply (tag_free_comment (u "!-- lang_code: "));
    [intros T p; by vm_compute | apply not_elem_of_lt; by vm_compute |].
  apply tag_free_app; [by apply tag_free_no_lt|].
  apply tag_free_app; [apply tag_free_no_lt, not_elem_of_lt; by vm_compute|].
  apply tag_free_app; [apply tag_free_no_lt, not_elem_of_lt; by vm_compute|].
  apply tag_free_app; [apply tag_free_no_lt, not_elem_of_lt; by vm_compute|].
  by apply tag_free_no_lt.
Qed.

Lemma right_trimmed_strip s : right_trimmed (strip s).
Proof. unfold strip, lstrip, rstrip. apply lstrip_by_last, rstrip_by_last. Qed.

Lemma clean_str_trimmed v d :
  d <> [] -> right_trimmed d ->
  clean_str v d <> [] /\ right_trimmed (clean_str v d).
Proof.
  intros Hd Ht. unfold clean_str. destruct (is_missing v) eqn:Hm; [done|].
  split; [|apply right_trimmed_strip].
  apply is_missing_false in Hm. apply orb_false_iff in Hm as [Hm _].
  unfold pystr_eqb in Hm. by apply bool_decide_eq_false in Hm.
Qed.

Lemma row_is_page_key r :
  row_is_page r = true -> row_key r <> [] /\ row_key r <> WELCOME_PAGE_ID.
Proof.
  unfold row_is_page, row_is_root. intros Hp.
  apply andb_true_iff in Hp as [Hk Hw]. apply truthy_true in Hk.
  apply negb_true_iff in Hw. unfold pystr_eqb in Hw.
  by apply bool_decide_eq_false in Hw.
Qed.

Lemma row_title_trimmed r :
  row_is_page r = true -> row_title r <> [] /\ right_trimmed (row_title r).
Proof.
  intros Hp. apply row_is_page_key in Hp as [Hk _].
  apply clean_str_trimmed; [done|].
  unfold row_key, clean_str in *. destruct (is_missing _); [done|].
  apply right_trimmed_strip.
Qed.

(** The stub of a plain row, without the line breaks at its end, is a
    body that is kept. *)
Lemma row_body_kept r :
  row_is_page r = true -> row_is_plain r ->
  kept_body (row_text r) /\ row_body r = row_text r ++ [nl; nl].
Proof.
  intros Hp (Hk & Hpa & Hl & Ht & Hlast).
  destruct (row_title_trimmed r Hp) as [Hne Htrim].
  split; [|unfold row_body, build_body, row_text; cbv zeta;
           by rewrite <- !app_assoc].
  assert (forall pre, last (pre ++ row_title r) = last (row_title r)) as Hl'.
  { intros pre. rewrite last_app. destruct (last (row_title r)) eqn:E; [done|].
    by apply last_None in E. }
  unfold row_text.
  split; [by apply build_body_tag_free|]. split; [|split].
  - unfold right_trimmed. rewrite !app_assoc, Hl'. exact Htrim.
  - apply not_ends_with_rule. rewrite !app_assoc, Hl'.
    destruct (last (row_title r)) as [c|]; [|done]. intros ->. done.
  - by vm_compute.
Qed.

Lemma row_body_footer r :
  row_is_page r = true -> row_is_plain r ->
  ensure_eu_block_at_end (row_body r)
  = row_text r ++ [nl; nl] ++ EU_FUNDING_BLOCK.
Proof.
  intros Hp Hr. destruct (row_body_kept r Hp Hr) as ((Hf & Ht & _) & ->).
  apply ensure_keeps_tag_free; [done|done|]. repeat constructor.
Qed.

(** ** The driver, one path at a time *)

Lemma process_row_lookup titles parents st r path :
  files (process_row titles parents st r) !! path
  = path_step titles parents path (files st !! path) r.
Proof.
  unfold path_step. destruct (row_is_page r) eqn:Hp.
  - destruct (row_is_page_key r Hp) as [Hk Hw].
    unfold process_row. fold (row_key r).
    apply truthy_true in Hk. rewrite Hk. simpl negb. cbv iota.
    unfold pystr_eqb. rewrite (bool_decide_eq_false_2 _ Hw). cbv zeta.
    fold (row_title r) (row_parent r) (row_lang r).
    fold (row_body r) (row_path r) (row_front titles parents r).
    unfold upsert_markdown_file. simpl andb.
    case_bool_decide as Hpath.
    + subst path. destruct (files st !! row_path r) as [old|].
      * destruct (split_frontmatter old) as [f rest]. simpl.
        by rewrite lookup_insert_eq.
      * simpl. by rewrite lookup_insert_eq.
    + destruct (files st !! row_path r) as [old|].
      * destruct (split_frontmatter old) as [f rest]. simpl.
        by rewrite lookup_insert_ne.
      * simpl. by rewrite lookup_insert_ne.
  - simpl andb. cbv iota. unfold row_is_page, row_is_root in Hp.
    destruct (truthy (row_key r)) eqn:Hk.
    + simpl in Hp. apply negb_false_iff in Hp. unfold pystr_eqb in Hp.
      apply bool_decide_eq_true in Hp. by rewrite (process_row_root _ _ _ _ Hp).
    + apply truthy_false in Hk. by rewrite (process_row_none _ _ _ _ Hk).
Qed.

Lemma fold_process_row_lookup titles parents rows st path :
  files (fold_left (process_row titles parents) rows st) !! path
  = fold_left (path_step titles parents path) rows (files st !! path).
Proof.
  revert st. induction rows as [|r rows IH]; intros st; [done|].
  simpl. by rewrite IH, process_row_lookup.
Qed.

Section Path.
Variables (titles parents : gmap pystr pystr) (path : pystr).

Lemma path_step_generated fm X r :
  dump_well_formed (yaml_safe_dump fm) -> kept_body X ->
  path_step titles parents path (Some (generated fm X)) r
  = Some (generated (path_frontmatter titles parents path fm r) X).
Proof.
  intros HD HX. unfold path_step, path_frontmatter.
  destruct (row_is_page r && bool_decide (row_path r = path)); [|done].
  unfold generated at 1. by rewrite (generated_file_body fm X HD HX).
Qed.

Lemma path_fold_generated rows : forall fm X,
  (forall r, In r rows -> row_is_page r = true ->
     dump_well_formed (yaml_safe_dump (row_frontmatter titles parents r))) ->
  dump_well_formed (yaml_safe_dump fm) -> kept_body X ->
  fold_left (path_step titles parents path) rows (Some (generated fm X))
  = Some (generated (fold_left (path_frontmatter titles parents path) rows fm) X)
  /\ dump_well_formed (yaml_safe_dump
                (fold_left (path_frontmatter titles parents path) rows fm)).
Proof.
  induction rows as [|r rows IH]; intros fm X Hrows HD HX; [done|].
  simpl. rewrite (path_step_generated fm X r HD HX).
  apply IH; [intros r' Hin; apply Hrows; by right| |done].
  unfold path_frontmatter.
  destruct (row_is_page r) eqn:Hp; [|done]. simpl andb.
  case_bool_decide; [|done]. apply Hrows; [by left|done].
Qed.

Lemma path_frontmatter_cases rows :
  (forall fm, fold_left (path_frontmatter titles parents path) rows fm = fm) \/
  (exists fm', forall fm,
     fold_left (path_frontmatter titles parents path) rows fm = fm').
Proof.
  induction rows as [|r rows IH]; [by left|].
  destruct (row_is_page r && bool_decide (row_path r = path)) eqn:Hrel.
  - right.
    exists (fold_left (path_frontmatter titles parents path) rows
              (row_frontmatter titles parents r)).
    intros fm. simpl. f_equal. unfold path_frontmatter. by rewrite Hrel.
  - assert (forall fm, path_frontmatter titles parents path fm r = fm) as Hstep
      by (intros fm; unfold path_frontmatter; by rewrite Hrel).
    destruct IH as [IH|[fm' IH]].
    + left. intros fm. simpl. by rewrite Hstep, IH.
    + right. exists fm'. intros fm. simpl. by rewrite IH.
Qed.

Lemma path_frontmatter_twice rows fm :
  fold_left (path_frontmatter titles parents path) rows
    (fold_left (path_frontmatter titles parents path) rows fm)
  = fold_left (path_frontmatter titles parents path) rows fm.
Proof.
  destruct (path_frontmatter_cases rows) as [H|[fm' H]]; by rewrite !H.
Qed.

Lemma path_fold_new rows :
  (forall r, In r rows -> row_is_page r = true ->
     row_is_plain r /\
     dump_well_formed (yaml_safe_dump (row_frontmatter titles parents r))) ->
  fold_left (path_step titles parents path) rows None = None \/
  exists fm X,
    kept_body X /\
    dump_well_formed (yaml_safe_dump
               (fold_left (path_frontmatter titles parents path) rows fm)) /\
    fold_left (path_step titles parents path) rows None
    = Some (generated
              (fold_left (path_frontmatter titles parents path) rows fm) X).
Proof.
  induction rows as [|r rows IH]; intros Hrows; [by left|].
  assert (forall r', In r' rows -> row_is_page r' = true ->
            dump_well_formed (yaml_safe_dump (row_frontmatter titles parents r')))
    as Hd by (intros r' Hin Hp; apply Hrows; [by right|done]).
  cbn [fold_left].
  destruct (row_is_page r && bool_decide (row_path r = path)) eqn:Hrel.
  - right. apply andb_true_iff in Hrel as [Hp Hpath].
    destruct (Hrows r (or_introl eq_refl) Hp) as [Hplain HD].
    pose proof (row_body_footer r Hp Hplain) as Hb.
    destruct (row_body_kept r Hp Hplain) as [HX _].
    set (X := row_text r) in *.
    assert (path_step titles parents path None r
            = Some (generated (row_frontmatter titles parents r) X)) as ->.
    { unfold path_step. rewrite Hp, Hpath. simpl andb. cbv iota.
      by rewrite Hb. }
    assert (forall fm, path_frontmatter titles parents path fm r
                       = row_frontmatter titles parents r) as Hstep
      by (intros fm; unfold path_frontmatter; by rewrite Hp, Hpath).
    exists (row_frontmatter titles parents r), X. split; [done|].
    rewrite Hstep.
    destruct (path_fold_generated rows (row_frontmatter titles parents r) X
                Hd HD HX) as [-> Hok].
    done.
  - assert (path_step titles parents path None r = None) as ->
      by (unfold path_step; by rewrite Hrel).
    destruct IH as [IH|(fm & X & HX & Hok & IH)];
      [intros r' Hin; apply Hrows; by right | by left |].
    right. exists fm, X.
    assert (path_frontmatter titles parents path fm r = fm) as ->
      by (unfold path_frontmatter; by rewrite Hrel).
    done.
Qed.

Lemma path_fold_other rows c :
  (forall r, In r rows -> row_is_page r = true -> row_path r <> path) ->
  fold_left (path_step titles parents path) rows c = c.
Proof.
  induction rows as [|r rows IH]; intros Hrows; [done|].
  cbn [fold_left].
  assert (path_step titles parents path c r = c) as ->.
  { unfold path_step. destruct (row_is_page r) eqn:Hp; [|done]. simpl andb.
    by rewrite bool_decide_eq_false_2 by (apply Hrows; [by left|done]). }
  apply IH. intros r' Hin. apply Hrows. by right.
Qed.

Lemma path_fold_twice rows c :
  (forall r, In r rows -> row_is_page r = true ->
     row_is_plain r /\
     dump_well_formed (yaml_safe_dump (row_frontmatter titles parents r))) ->
  c = None \/ (exists content, c = Some content /\ generated_file content) ->
  let c' := fold_left (path_step titles parents path) rows c in
  fold_left (path_step titles parents path) rows c' = c' /\
  (c' = None \/ exists content, c' = Some content /\ generated_file content).
Proof.
  intros Hrows Hc.
  assert (forall r', In r' rows -> row_is_page r' = true ->
            dump_well_formed (yaml_safe_dump (row_frontmatter titles parents r')))
    as Hd by (intros r' Hin Hp; by apply Hrows).
  assert (forall fm X,
            dump_well_formed (yaml_safe_dump fm) -> kept_body X ->
            let c' := fold_left (path_step titles parents path) rows
                        (Some (generated fm X)) in
            fold_left (path_step titles parents path) rows c' = c' /\
            exists content, c' = Some content /\ generated_file content)
    as Hgen.
  { intros fm X HD HX.
    destruct (path_fold_generated rows fm X Hd HD HX) as [Hf Hok].
    cbv zeta. rewrite Hf.
    destruct (path_fold_generated rows _ X Hd Hok HX) as [-> _].
    rewrite path_frontmatter_twice. split; [done|].
    eexists. split; [done|]. by eexists _, X. }
  destruct Hc as [->|(content & -> & fm & X & HD & HX & ->)].
  - destruct (path_fold_new rows Hrows) as [Hn|(fm & X & HX & Hok & Hf)];
      cbv zeta.
    + rewrite Hn. split; [done | by left].
    + rewrite Hf.
      destruct (path_fold_generated rows _ X Hd Hok HX) as [-> _].
      rewrite path_frontmatter_twice. split; [done|]. right.
      eexists. split; [done|]. by eexists _, X.
  - destruct (Hgen fm X HD HX) as [H1 H2]. split; [exact H1 | by right].
Qed.

End Path.

(** X4: the file of a new page: the front matter of the row, the three
    comment lines with the cleaned cells, the heading with the title, and
    the footer. *)
Theorem process_row_new_page (titles parents : gmap pystr pystr)
  (st : progress) (r : row) :
  row_is_page r = true -> row_is_plain r ->
  files st !! row_path r = None ->
  files (process_row titles parents st r) !! row_path r
  = Some (safe_frontmatter_dump (row_frontmatter titles parents r)
          ++ u "<!-- page_id: " ++ row_key r ++ u " -->" ++ [nl]
          ++ u "<!-- parent_id: " ++ row_parent r ++ u " -->" ++ [nl]
          ++ u "<!-- lang_code: " ++ row_lang r ++ u " -->" ++ [nl; nl]
          ++ u "# " ++ row_title r ++ [nl; nl] ++ EU_FUNDING_BLOCK).
Proof.
  intros Hp Hplain Hnone. rewrite process_row_lookup, Hnone.
  unfold path_step. rewrite Hp, bool_decide_eq_true_2 by done.
  simpl andb. cbv iota. rewrite (row_body_footer r Hp Hplain).
  unfold row_front, row_text. by rewrite <- !app_assoc.
Qed.

(** ** Texts without a carriage return *)

Lemma not_elem_of_cr l : forallb (fun c => negb (c =? 13)) l = true -> 13 ∉ l.
Proof.
  intros Hl Hin. apply list_elem_of_In in Hin.
  rewrite forallb_forall in Hl. specialize (Hl _ Hin). done.
Qed.

Lemma ensure_no_cr y : 13 ∉ y -> 13 ∉ ensure_eu_block_at_end y.
Proof.
  intros Hy. rewrite ensure_eu_block_at_end_eq.
  destruct (normalized_body_prefix y) as [k Hk].
  intros Hin. apply elem_of_app in Hin as [Hin|Hin].
  - apply Hy. rewrite Hk. apply elem_of_app. by left.
  - revert Hin. apply not_elem_of_cr. by vm_compute.
Qed.

Lemma split_rest_no_cr c : 13 ∉ c -> 13 ∉ (split_frontmatter c).2.
Proof.
  intros Hc. destruct (re_match FRONTMATTER_RE c) as [rest|] eqn:Hre.
  - destruct (split_frontmatter_found _ _ Hre) as (blk & _ & Heq & ->). simpl.
    intros Hin. apply Hc. rewrite Heq. apply elem_of_app. by right.
  - unfold split_frontmatter. by rewrite Hre.
Qed.

Lemma path_fold_no_cr titles parents path rows : forall c,
  (forall r, In r rows -> row_is_page r = true ->
     (13 ∉ row_front titles parents r) /\ (13 ∉ row_body r)) ->
  (forall content, c = Some content -> 13 ∉ content) ->
  forall content,
    fold_left (path_step titles parents path) rows c = Some content ->
    13 ∉ content.
Proof.
  induction rows as [|r rows IH]; intros c Hrows Hc; [done|].
  cbn [fold_left]. apply IH; [intros r' Hin; apply Hrows; by right|].
  unfold path_step. destruct (row_is_page r) eqn:Hp; [|done]. simpl andb.
  case_bool_decide; [|done].
  destruct (Hrows r (or_introl eq_refl) Hp) as [Hfront Hbody].
  intros content Heq Hin. apply (inj Some) in Heq. rewrite <- Heq in Hin.
  apply elem_of_app in Hin as [Hin|Hin]; [done|].
  revert Hin. apply ensure_no_cr.
  destruct c as [old|]; [|done]. by apply split_rest_no_cr, Hc.
Qed.

(** X3: running the generator again changes no file: when the page rows of
    the sheet are plain, their front matters are dumped well, no text
    that is written or found holds a carriage return (which a file read
    would turn into a line break), and the files of the rows do not exist
    yet or are as the generator left them, a second run over the files of
    the first gives the same files; and after a run the file of every
    page row is a generated file without a carriage return. *)
Theorem main_idempotent (fs : filesystem) (sheet : list row) :
  (forall r, In r (map normalize_keys sheet) -> row_is_page r = true ->
     row_is_plain r /\
     dump_well_formed (yaml_safe_dump
                (row_frontmatter (title_index (map normalize_keys sheet))
                   (parent_index (map normalize_keys sheet)) r)) /\
     (13 ∉ row_front (title_index (map normalize_keys sheet))
             (parent_index (map normalize_keys sheet)) r) /\
     (13 ∉ row_body r) /\
     (fs !! row_path r = None \/
      exists content,
        fs !! row_path r = Some content /\ generated_file content /\
        (13 ∉ content))) ->
  files (main (files (main fs sheet)) sheet) = files (main fs sheet) /\
  forall r, In r (map normalize_keys sheet) -> row_is_page r = true ->
    exists content,
      files (main fs sheet) !! row_path r = Some content /\
      generated_file content /\ (13 ∉ content).
Proof.
  intros Hrows. unfold main.
  set (df := map normalize_keys sheet) in *.
  set (titles := title_index df) in *. set (parents := parent_index df) in *.
  assert (forall r, In r df -> row_is_page r = true ->
            row_is_plain r /\
            dump_well_formed (yaml_safe_dump (row_frontmatter titles parents r)))
    as Hplain by (intros r Hin Hp; destruct (Hrows r Hin Hp) as (? & ? & _); done).
  assert (forall r, In r df -> row_is_page r = true ->
            fs !! row_path r = None \/
            exists content, fs !! row_path r = Some content /\ generated_file content)
    as Hfile.
  { intros r Hin Hp.
    destruct (Hrows r Hin Hp) as (_ & _ & _ & _ & [Hn|(c & Hc & Hg & _)]);
      [by left | right; by exists c]. }
  split.
  - apply map_eq. intros path. rewrite !fold_process_row_lookup. simpl files.
    rewrite fold_process_row_lookup. simpl files.
    destruct (existsb (fun r => row_is_page r && bool_decide (row_path r = path)) df)
      eqn:Hex.
    + apply existsb_exists in Hex as (r & Hin & Hr).
      apply andb_true_iff in Hr as [Hp Hpath].
      apply bool_decide_eq_true in Hpath. subst path.
      by destruct (path_fold_twice titles parents (row_path r) df _ Hplain
                     (Hfile r Hin Hp)).
    + assert (forall r, In r df -> row_is_page r = true -> row_path r <> path)
        as Hother.
      { intros r Hin Hp Hpath.
        assert (existsb (fun r => row_is_page r && bool_decide (row_path r = path)) df
                = true) as Hex'; [|congruence].
        apply existsb_exists. exists r. split; [done|].
        rewrite Hp. simpl. by apply bool_decide_eq_true. }
      by rewrite !path_fold_other.
  - intros r Hin Hp. rewrite fold_process_row_lookup. simpl files.
    destruct (path_fold_twice titles parents (row_path r) df _ Hplain
                (Hfile r Hin Hp)) as [_ [Hn|(content & Hc & Hg)]].
    + exfalso.
      destruct (fold_process_row_files titles parents df
                  {| files := fs; wrote := 0; skipped := 0 |}) as (Hs & _).
      specialize (Hs r Hin Hp). rewrite fold_process_row_lookup in Hs.
      simpl files in Hs. fold (row_path r) in Hs. rewrite Hn in Hs.
      by destruct Hs.
    + exists content. split; [done|]. split; [done|].
      apply (path_fold_no_cr titles parents (row_path r) df (fs !! row_path r));
        [| |done].
      * intros r' Hin' Hp'. by destruct (Hrows r' Hin' Hp') as (_ & _ & ? & ? & _).
      * intros old Hold.
        destruct (Hrows r Hin Hp) as (_ & _ & _ & _ & [Hn|(c & Hc' & _ & Hcr)]);
          congruence.
Qed.

End Rerun.

Lemma dump_well_formed_plain D :
  last D = Some nl ->
  existsb (fun c => negb (isspace c)) D = true ->
  forallb (fun c => negb (c =? 45)) D = true ->
  dump_well_formed D.
Proof.
  intros Hl Hex Hd. apply last_Some in Hl as [D0 ->].
  apply dump_without_dash.
  - intros Hsp. rewrite existsb_app in Hex. apply orb_true_iff in Hex as [Hex|Hex].
    + apply existsb_exists in Hex as (c & Hin & Hc).
      unfold all_space in Hsp. rewrite Forall_forall in Hsp.
      apply list_elem_of_In in Hin. rewrite (Hsp _ Hin) in Hc. done.
    + by vm_compute in Hex.
  - apply not_elem_of_dash. rewrite forallb_app in Hd.
    by apply andb_true_iff in Hd as [Hd _].
Qed.

(** The results above at sample inputs, with the ASCII tables and the
    stand-in libraries. *)
Section RerunAt.
#[local] Existing Instance ascii_tables.
#[local] Existing Instance plain_libraries.

Lemma sample_kept_body : kept_body (u "# Page").
Proof.
  split; [apply tag_free_no_lt, not_elem_of_lt; by vm_compute|].
  split; [by vm_compute|]. split; [|by vm_compute].
  apply not_ends_with_rule. by vm_compute.
Qed.

Lemma sample_dump_well_formed fm :
  last (yaml_safe_dump fm) = Some nl ->
  existsb (fun c => negb (isspace c)) (yaml_safe_dump fm) = true ->
  forallb (fun c => negb (c =? 45)) (yaml_safe_dump fm) = true ->
  dump_well_formed (yaml_safe_dump fm).
Proof. apply dump_well_formed_plain. Qed.

Lemma upsert_markdown_file_keeps_body_witness :
  let fm := [("title"%string, YStr (u "Old"))] in
  let path := u "generated/01020000_en.md" in
  let fs : filesystem :=
    {[ path := safe_frontmatter_dump fm ++ u "# Page" ++ [nl; nl] ++ EU_FUNDING_BLOCK ]} in
  upsert_markdown_file fs path (u "front") (u "stub")
  = (<[path := u "front" ++ u "# Page" ++ [nl; nl] ++ EU_FUNDING_BLOCK]> fs, true).
Proof.
  cbv zeta.
  apply (upsert_markdown_file_keeps_body _ (u "generated/01020000_en.md")
           (u "front") (u "stub") [("title"%string, YStr (u "Old"))] (u "# Page")).
  - apply lookup_singleton_eq.
  - apply sample_dump_well_formed; by vm_compute.
  - apply sample_kept_body.
Defined.

Lemma sample_row_plain : row_is_plain (sample_row (Some (u "2"))).
Proof.
  unfold row_is_plain.
  repeat split; try (apply not_elem_of_lt; by vm_compute). by vm_compute.
Qed.

Lemma process_row_new_page_witness :
  let r := sample_row (Some (u "2")) in
  files (process_row ∅ ∅ {| files := ∅; wrote := 0; skipped := 0 |} r)
    !! row_path r
  = Some (safe_frontmatter_dump (row_frontmatter ∅ ∅ r)
          ++ u "<!-- page_id: " ++ row_key r ++ u " -->" ++ [nl]
          ++ u "<!-- parent_id: " ++ row_parent r ++ u " -->" ++ [nl]
          ++ u "<!-- lang_code: " ++ row_lang r ++ u " -->" ++ [nl; nl]
          ++ u "# " ++ row_title r ++ [nl; nl] ++ EU_FUNDING_BLOCK).
Proof.
  cbv zeta.
  apply (process_row_new_page ∅ ∅ {| files := ∅; wrote := 0; skipped := 0 |}
           (sample_row (Some (u "2")))).
  - by vm_compute.
  - apply sample_row_plain.
  - apply lookup_empty.
Defined.

Lemma main_idempotent_witness :
  let sheet := [welcome_row; sample_row (Some (u "2")); sample_row (Some (u "3"))] in
  files (main (files (main ∅ sheet)) sheet) = files (main ∅ sheet) /\
  forall r, In r (map normalize_keys sheet) -> row_is_page r = true ->
    exists content,
      files (main ∅ sheet) !! row_path r = Some content /\
      generated_file content /\ (13 ∉ content).
Proof.
  cbv zeta.
  apply (main_idempotent ∅
           [welcome_row; sample_row (Some (u "2")); sample_row (Some (u "3"))]).
  intros r Hin Hp. vm_compute in Hin.
  destruct Hin as [<-|[<-|[<-|[]]]].
  - by vm_compute in Hp.
  - split; [|split; [|split; [|split; [|left; apply lookup_empty]]]].
    + unfold row_is_plain.
      repeat split; try (apply not_elem_of_lt; by vm_compute). by vm_compute.
    + apply sample_dump_well_formed; by vm_compute.
    + apply not_elem_of_cr. by vm_compute.
    + apply not_elem_of_cr. by vm_compute.
  - split; [|split; [|split; [|split; [|left; apply lookup_empty]]]].
    + unfold row_is_plain.
      repeat split; try (apply not_elem_of_lt; by vm_compute). by vm_compute.
    + apply sample_dump_well_formed; by vm_compute.
    + apply not_elem_of_cr. by vm_compute.
    + apply not_elem_of_cr. by vm_compute.
Defined.

End RerunAt.

(** * Parent links and files written by hand *)

Section Navigation.
Context {U : UnicodeData}.

Lemma resolved_title_plain titles id t :
  titles !! id = Some t ->
  is_missing (VStr t) = false ->
  strip t <> u "00 Welcome" ->
  resolved_title titles id = Some (strip t).
Proof.
  intros Hid Hm Hw. unfold resolved_title, get_or_empty. rewrite Hid. simpl default.
  apply is_missing_false in Hm. apply orb_false_iff in Hm as [Hm _].
  unfold pystr_eqb in Hm. apply bool_decide_eq_false in Hm. simpl str in Hm.
  assert (t <> []) as Ht by (intros ->; by apply Hm).
  unfold normalize_nav_title. rewrite (proj2 (truthy_true t) Ht). simpl negb.
  cbv iota zeta. unfold pystr_eqb. rewrite (bool_decide_eq_false_2 _ Hw).
  by rewrite (proj2 (truthy_true (strip t)) Hm).
Qed.

(** X16: the [parent] entry of a child page is the [title] entry of its parent
    page: when the Title Index maps the parent id to the title cell of the
    parent row, and that title is not missing and is not the welcome
    title, both are the trimmed title. *)
Theorem parent_entry_is_parent_title (titles parents : gmap pystr pystr)
  (child parent : row) :
  row_parent child = row_key parent ->
  row_key parent <> [] ->
  titles !! row_key parent = Some (title parent) ->
  is_missing (VStr (title parent)) = false ->
  strip (title parent) <> u "00 Welcome" ->
  dict_get (row_frontmatter titles parents child) "parent"
    = Some (YStr (strip (title parent))) /\
  dict_get (row_frontmatter titles parents parent) "title"
    = Some (YStr (strip (title parent))).
Proof.
  intros Hp Hk Hid Hm Hw. split.
  - unfold row_frontmatter. fold (row_parent child).
    rewrite build_frontmatter_entries, Hp.
    rewrite (proj2 (truthy_true _) Hk), (resolved_title_plain _ _ _ Hid Hm Hw).
    unfold base_entries. by destruct (as_bool _).
  - unfold row_frontmatter. rewrite build_frontmatter_entries.
    unfold base_entries. simpl. unfold clean_str at 1. by rewrite Hm.
Qed.

End Navigation.

(** The results above at sample inputs, with the ASCII tables. *)
Section NavigationAt.
#[local] Existing Instance ascii_tables.

Lemma parent_entry_is_parent_title_witness :
  let parent := sample_row None in
  let child :=
    {| page_id := u "01020100_en"; title := u "Child"; layout := None;
       lang_code := None; parent_id := Some (u " 01020000_en ");
       has_children := None; display_order := None |} in
  let titles := title_index [parent; child] in
  dict_get (row_frontmatter titles ∅ child) "parent" = Some (YStr (u "Page")) /\
  dict_get (row_frontmatter titles ∅ parent) "title" = Some (YStr (u "Page")).
Proof.
  cbv zeta.
  apply (parent_entry_is_parent_title
           (title_index [sample_row None;
              {| page_id := u "01020100_en"; title := u "Child"; layout := None;
                 lang_code := None; parent_id := Some (u " 01020000_en ");
                 has_children := None; display_order := None |}]) ∅
           {| page_id := u "01020100_en"; title := u "Child"; layout := None;
              lang_code := None; parent_id := Some (u " 01020000_en ");
              has_children := None; display_order := None |}
           (sample_row None)).
  - by vm_compute.
  - by vm_compute.
  - by vm_compute.
  - by vm_compute.
  - by vm_compute.
Defined.

End NavigationAt.

Section HandWritten.
Context {U : UnicodeData}.

Lemma split_frontmatter_no_dash t :
  head t <> Some 45 -> split_frontmatter t = ([], t).
Proof.
  intros Hh. destruct (re_match FRONTMATTER_RE t) as [rest|] eqn:Hre.
  - exfalso. apply split_frontmatter_found in Hre
      as (blk & (w1 & mid & w2 & _ & _ & ->) & -> & _).
    by apply Hh.
  - unfold split_frontmatter. by rewrite Hre.
Qed.

(** X17: a file with no front matter, whose text does not start with a dash
    and holds no footer opening, gets the new front matter before its
    text and the footer after it; the text itself is kept, without the
    white space at its end. *)
Theorem upsert_markdown_file_adopts_text (fs : filesystem)
  (path front stub X w2 : pystr) :
  fs !! path = Some (X ++ w2) ->
  head (X ++ w2) <> Some 45 ->
  tag_free X -> right_trimmed X -> all_space w2 ->
  upsert_markdown_file fs path front stub
  = (<[path := front ++ X ++ [nl; nl] ++ EU_FUNDING_BLOCK]> fs, true).
Proof.
  intros Hf Hh HX Htrim Hw2. unfold upsert_markdown_file.
  rewrite Hf, (split_frontmatter_no_dash _ Hh).
  by rewrite (ensure_keeps_tag_free X w2 HX Htrim Hw2).
Qed.

End HandWritten.

(** The results above at sample inputs, with the ASCII tables. *)
Section HandWrittenAt.
#[local] Existing Instance ascii_tables.

Lemma upsert_markdown_file_adopts_text_witness :
  let path := u "generated/01020000_en.md" in
  let fs : filesystem := {[ path := u "# Page" ++ [nl] ]} in
  upsert_markdown_file fs path (u "front") (u "stub")
  = (<[path := u "front" ++ u "# Page" ++ [nl; nl] ++ EU_FUNDING_BLOCK]> fs, true).
Proof.
  cbv zeta.
  apply (upsert_markdown_file_adopts_text _ (u "generated/01020000_en.md")
           (u "front") (u "stub") (u "# Page") [nl]).
  - apply lookup_singleton_eq.
  - by vm_compute.
  - apply tag_free_no_lt, not_elem_of_lt. by vm_compute.
  - by vm_compute.
  - repeat constructor.
Defined.

End HandWrittenAt.

(** * The leading block of an existing file *)

Section LeadingBlock.
Context {U : UnicodeData}.

Lemma star_greedy_none cs (k : cont) : forall s p,
  star_greedy cs k p s = None ->
  forall w t, s = w ++ t -> Forall (fun c => cs c = true) w ->
    exists p', k p' t = None.
Proof.
  induction s as [|c s IH]; intros p Hrun w t Heq Hw.
  - symmetry in Heq. apply app_eq_nil in Heq as [-> ->]. by exists p.
  - simpl in Hrun. destruct w as [|c' w]; simpl in Heq.
    + subst t. exists p. destruct (cs c); [|done].
      by destruct (star_greedy cs k (Some c) s).
    + inversion Heq; subst c' s. apply Forall_cons in Hw as [Hc Hw].
      rewrite Hc in Hrun.
      destruct (star_greedy cs k (Some c) (w ++ t)) eqn:Hs; [done|].
      by apply (IH (Some c) Hs w t).
Qed.

(** The greedy star hands on the longest run for which the rest of the
    pattern matches. *)
Lemma star_greedy_longest cs (k : cont) a : forall s p,
  star_greedy cs k p s = Some a ->
  exists w t p',
    s = w ++ t /\ Forall (fun c => cs c = true) w /\ k p' t = Some a /\
    forall w' t', s = w' ++ t' -> Forall (fun c => cs c = true) w' ->
      (length w < length w')%nat -> exists p'', k p'' t' = None.
Proof.
  induction s as [|c s IH]; intros p Hrun.
  - exists [], [], p. repeat split; try done.
    intros w' t' Heq _ Hlen. symmetry in Heq. apply app_eq_nil in Heq as [-> _].
    simpl in Hlen. lia.
  - simpl in Hrun. destruct (cs c) eqn:Hc.
    + destruct (star_greedy cs k (Some c) s) as [a'|] eqn:Hs.
      * inversion Hrun; subst a'.
        destruct (IH _ Hs) as (w & t & p' & -> & Hw & Hk & Hmax).
        exists (c :: w), t, p'. repeat split; [by constructor | done |].
        intros w' t' Heq Hw' Hlen. destruct w' as [|c' w']; [simpl in Hlen; lia|].
        simpl in Heq. inversion Heq; subst c'.
        apply Forall_cons in Hw' as [_ Hw'].
        apply (Hmax w' t'); [done|done|]. simpl in Hlen. lia.
      * exists [], (c :: s), p. repeat split; try done.
        intros w' t' Heq Hw' Hlen. destruct w' as [|c' w']; [simpl in Hlen; lia|].
        simpl in Heq. inversion Heq; subst c'.
        apply Forall_cons in Hw' as [_ Hw'].
        by apply (star_greedy_none cs k s (Some c) Hs w' t').
    + exists [], (c :: s), p. repeat split; try done.
      intros w' t' Heq Hw' Hlen. destruct w' as [|c' w']; [simpl in Hlen; lia|].
      simpl in Heq. inversion Heq; subst c'.
      apply Forall_cons in Hw' as [Hc' _]. congruence.
Qed.

(** The lazy star hands on the shortest run for which the rest of the
    pattern matches. *)
Lemma star_lazy_shortest cs (k : cont) a : forall s p,
  star_lazy cs k p s = Some a ->
  exists w t p',
    s = w ++ t /\ Forall (fun c => cs c = true) w /\ k p' t = Some a /\
    forall w' t', s = w' ++ t' -> (length w' < length w)%nat ->
      exists p'', k p'' t' = None.
Proof.
  induction s as [|c s IH]; intros p Hrun.
  - simpl in Hrun. destruct (k p []) eqn:Hk; [|done]. inversion Hrun; subst.
    exists [], [], p. repeat split; try done. intros w' t' _ Hlen. simpl in Hlen. lia.
  - simpl in Hrun. destruct (k p (c :: s)) eqn:Hk.
    + inversion Hrun; subst. exists [], (c :: s), p. repeat split; try done.
      intros w' t' _ Hlen. simpl in Hlen. lia.
    + destruct (cs c) eqn:Hc; [|done].
      destruct (IH _ Hrun) as (w & t & p' & -> & Hw & Hk' & Hmin).
      exists (c :: w), t, p'. repeat split; [by constructor | done |].
      intros w' t' Heq Hlen. destruct w' as [|c' w'].
      * simpl in Heq. subst t'. by exists p.
      * simpl in Heq. inversion Heq; subst c'.
        apply (Hmin w' t'); [done|]. simpl in Hlen. lia.
Qed.


Lemma run_nl_inv (k : cont) p t a :
  run (Chr (chr_is nl)) k p t = Some a ->
  exists t', t = nl :: t' /\ k (Some nl) t' = Some a.
Proof.
  cbn [run]. destruct t as [|c t']; [done|].
  destruct (chr_is nl c) eqn:Hc; [|done].
  unfold chr_is in Hc. apply N.eqb_eq in Hc. subst c. by exists t'.
Qed.

Lemma closing_run (k : cont) p t3 :
  run frontmatter_closing k p ([nl] ++ u "---" ++ t3)
  = star_greedy isspace (run (Chr (chr_is nl)) k) (Some 45) t3.
Proof. reflexivity. Qed.

Lemma closing_succeeds c p w2 rest :
  all_space w2 ->
  is_Some (run frontmatter_closing (accept false c) p
             ([nl] ++ u "---" ++ w2 ++ [nl] ++ rest)).
Proof.
  intros Hw2. rewrite closing_run.
  destruct (matches_star_all isspace (Some 45) w2 ([nl] ++ rest) Hw2) as [p' Hm].
  eapply star_greedy_complete; [exact Hm|]. by eexists.
Qed.

Lemma body_succeeds c p mid w2 rest :
  all_space w2 ->
  is_Some (run (Chr (chr_is nl))
             (star_lazy any (run frontmatter_closing (accept false c))) p
             ([nl] ++ mid ++ [nl] ++ u "---" ++ w2 ++ [nl] ++ rest)).
Proof.
  intros Hw2. cbn [run app]. change (chr_is nl nl) with true. cbv iota.
  destruct (matches_lazy_all (Some nl) mid ([nl] ++ u "---" ++ w2 ++ [nl] ++ rest))
    as [p' Hm].
  eapply star_lazy_complete; [exact Hm|]. by apply closing_succeeds.
Qed.

(** What the pattern matches at the start of a text is its leading
    block. *)
Lemma frontmatter_match_leading c rest :
  re_match FRONTMATTER_RE c = Some rest ->
  exists fm, leading_block c fm rest /\ c = fm ++ rest.
Proof.
  intros Hre.
  destruct (split_frontmatter_found _ _ Hre)
    as (blk & (v1 & vm & v2 & _ & _ & ->) & Hc & _).
  unfold re_match in Hre.
  assert (exists s0, c = u "---" ++ s0) as [s0 Hs0]
    by (rewrite Hc, <- !app_assoc; by eexists).
  rewrite Hs0 in Hre at 2. rewrite frontmatter_run in Hre.
  apply star_greedy_longest in Hre as (w1 & t1 & p1 & Hs & Hw1 & Hk1 & Hmax1).
  apply run_nl_inv in Hk1 as (t1' & -> & Hk1).
  apply star_lazy_shortest in Hk1 as (mid & t2 & p2 & -> & _ & Hk2 & Hmin).
  destruct (closing_needs_dashes _ _ _ _ Hk2) as [t3 ->].
  rewrite closing_run in Hk2.
  apply star_greedy_longest in Hk2 as (w2 & t4 & p4 & -> & Hw2 & Hk3 & Hmax2).
  apply run_nl_inv in Hk3 as (t5 & -> & Hk3).
  unfold accept in Hk3. simpl in Hk3. inversion Hk3; subst t5. clear Hk3.
  assert (c = u "---" ++ w1 ++ [nl] ++ mid ++ [nl] ++ u "---" ++ w2 ++ [nl] ++ rest)
    as Hparts by (by rewrite Hs0, Hs).
  exists (u "---" ++ w1 ++ [nl] ++ mid ++ [nl] ++ u "---" ++ w2 ++ [nl]).
  split; [|rewrite Hparts at 1; by rewrite <- !app_assoc].
  exists w1, mid, w2. split; [done|]. split; [done|].
  intros w1' mid' w2' rest' (Hw1' & Hw2' & Hc').
  assert (s0 = w1' ++ [nl] ++ mid' ++ [nl] ++ u "---" ++ w2' ++ [nl] ++ rest')
    as Hs' by (rewrite Hs0 in Hc'; by apply app_inv_head in Hc').
  destruct (decide (length w1 < length w1')%nat) as [Hlt|Hge].
  { exfalso. destruct (Hmax1 _ _ Hs' Hw1' Hlt) as [p'' Hnone].
    destruct (body_succeeds c p'' mid' w2' rest' Hw2') as [x Hx].
    discriminate (eq_trans (eq_sym Hnone) Hx). }
  destruct (decide (length w1' < length w1)%nat) as [Hlt|Hge']; [by left|].
  right. split; [lia|].
  rewrite Hs in Hs'. apply app_inj_1 in Hs' as [-> Ht1]; [|lia].
  simpl in Ht1. inversion Ht1 as [Ht1']. clear Ht1.
  destruct (decide (length mid' < length mid)%nat) as [Hlt|Hge2].
  { exfalso. destruct (Hmin _ _ Ht1' Hlt) as [p'' Hnone].
    destruct (closing_succeeds c p'' w2' rest' Hw2') as [x Hx].
    discriminate (eq_trans (eq_sym Hnone) Hx). }
  destruct (decide (length mid < length mid')%nat) as [Hlt|Hge3]; [by left|].
  right. split; [lia|].
  apply app_inj_1 in Ht1' as [-> Ht2]; [|lia].
  simpl in Ht2. inversion Ht2 as [Ht3]. clear Ht2.
  destruct (decide (length w2 < length w2')%nat) as [Hlt|Hge4]; [|lia].
  exfalso. destruct (Hmax2 _ _ Ht3 Hw2' Hlt) as [p'' Hnone].
  simpl in Hnone. done.
Qed.

Lemma leading_block_unique c fm rest fm' rest' :
  leading_block c fm rest -> leading_block c fm' rest' ->
  fm = fm' /\ rest = rest'.
Proof.
  intros (w1 & mid & w2 & Hp & -> & Hbest) (v1 & vmid & v2 & Hp' & -> & Hbest').
  pose proof (Hbest _ _ _ _ Hp') as H1. pose proof (Hbest' _ _ _ _ Hp) as H2.
  assert (length v1 = length w1 /\ length vmid = length mid /\
          length v2 = length w2) as (L1 & L2 & L3) by lia.
  destruct Hp as (_ & _ & Hc). destruct Hp' as (_ & _ & Hc').
  rewrite Hc in Hc'. apply app_inv_head in Hc'.
  apply app_inj_1 in Hc' as [-> Hc']; [|lia]. apply app_inv_head in Hc'.
  apply app_inj_1 in Hc' as [-> Hc']; [|lia]. apply app_inv_head in Hc'.
  apply app_inv_head in Hc'.
  apply app_inj_1 in Hc' as [-> Hc']; [|lia]. apply app_inv_head in Hc'.
  done.
Qed.

Lemma leading_block_split c fm rest :
  leading_block c fm rest -> split_frontmatter c = (fm, rest) /\ c = fm ++ rest.
Proof.
  intros Hl. destruct (re_match FRONTMATTER_RE c) as [rest0|] eqn:Hre.
  - destruct (frontmatter_match_leading c rest0 Hre) as (fm0 & Hl0 & Hc).
    destruct (leading_block_unique _ _ _ _ _ Hl Hl0) as [-> ->].
    split; [|done]. destruct (split_frontmatter_found _ _ Hre) as (blk & _ & Heq & ->).
    f_equal. rewrite Hc in Heq at 1. by apply app_inv_tail in Heq.
  - exfalso. destruct Hl as (w1 & mid & w2 & (Hw1 & Hw2 & Hc) & _ & _).
    destruct (frontmatter_re_complete
                (u "---" ++ w1 ++ [nl] ++ mid ++ [nl] ++ u "---" ++ w2 ++ [nl]) rest)
      as [p' Hm]; [by exists w1, mid, w2|].
    assert (is_Some (re_match FRONTMATTER_RE c)) as [x Hx]; [|congruence].
    unfold re_match. eapply run_complete; [|by eexists].
    rewrite Hc. rewrite <- !app_assoc in Hm. exact Hm.
Qed.

(** C4: [upsert_markdown_file] writes, at the path, the new front matter
    followed by the normalized body and returns [True]; no other file
    changes.  When the file exists, the body is the text after its
    leading front-matter block: the block, which is never empty and of
    which there is one only, is dropped, and the text starts with it
    whenever it starts with any front-matter block; the closing line of
    the block is the first one that can close it, so a rule of three
    dashes further down stays in the body.  A text that starts with no
    block is the body as a whole.  When the file does not exist, the
    body is the stub. *)
Theorem upsert_markdown_file_spec (fs : filesystem) (path f s : pystr) :
  (forall c, fs !! path = Some c ->
     upsert_markdown_file fs path f s
     = (<[path := f ++ ensure_eu_block_at_end (split_frontmatter c).2]> fs, true)
     /\ (exists fm rest,
           c = fm ++ rest /\ (fm = [] \/ frontmatter_block fm) /\
           split_frontmatter c = (fm, rest))
     /\ (forall fm rest, leading_block c fm rest ->
           fm <> [] /\ frontmatter_block fm /\ c = fm ++ rest /\
           split_frontmatter c = (fm, rest) /\
           upsert_markdown_file fs path f s
           = (<[path := f ++ ensure_eu_block_at_end rest]> fs, true))
     /\ (forall fm rest fm' rest',
           leading_block c fm rest -> leading_block c fm' rest' ->
           fm = fm' /\ rest = rest')
     /\ ((exists blk r, frontmatter_block blk /\ c = blk ++ r) ->
           exists fm rest, leading_block c fm rest)
     /\ (~ (exists blk r, frontmatter_block blk /\ c = blk ++ r) ->
           upsert_markdown_file fs path f s
           = (<[path := f ++ ensure_eu_block_at_end c]> fs, true))) /\
  (fs !! path
   = Some (u "---" ++ [nl] ++ u "title: x" ++ [nl] ++ u "---" ++ [nl; nl]
           ++ u "body" ++ [nl] ++ u "---" ++ [nl] ++ u "more" ++ [nl]
           ++ u "---" ++ [nl]) ->
   upsert_markdown_file fs path f s
   = (<[path := f ++ ensure_eu_block_at_end
                       (u "body" ++ [nl] ++ u "---" ++ [nl] ++ u "more" ++ [nl]
                        ++ u "---" ++ [nl])]> fs, true)) /\
  (fs !! path = None ->
     upsert_markdown_file fs path f s
     = (<[path := f ++ ensure_eu_block_at_end s]> fs, true)) /\
  (upsert_markdown_file fs path f s).2 = true /\
  (forall other, other <> path ->
     (upsert_markdown_file fs path f s).1 !! other = fs !! other).
Proof.
  unfold upsert_markdown_file. split; [|split; [|split; [|split]]].
  - intros c Hc. rewrite Hc.
    split; [by destruct (split_frontmatter c)|].
    split; [|split; [|split; [|split]]].
    + destruct (re_match FRONTMATTER_RE c) as [rest|] eqn:Hre.
      * destruct (split_frontmatter_found _ _ Hre) as (blk & Hblk & Heq & Hs).
        exists blk, rest. eauto.
      * exists [], c. unfold split_frontmatter. rewrite Hre. eauto.
    + intros fm rest Hl. destruct (leading_block_split c fm rest Hl) as [Hs Heq].
      destruct Hl as (w1 & mid & w2 & (Hw1 & Hw2 & _) & -> & _).
      split; [done|]. split; [by exists w1, mid, w2|]. split; [done|].
      split; [done|]. by rewrite Hs.
    + apply leading_block_unique.
    + intros (blk & r & Hblk & ->).
      destruct (frontmatter_re_complete blk r Hblk) as [p' Hm].
      assert (is_Some (re_match FRONTMATTER_RE (blk ++ r))) as [rest Hre]
        by (unfold re_match; eapply run_complete; [exact Hm | by eexists]).
      destruct (frontmatter_match_leading _ _ Hre) as (fm & Hl & _).
      by exists fm, rest.
    + intros Hno. destruct (re_match FRONTMATTER_RE c) as [rest|] eqn:Hre.
      * exfalso. apply Hno.
        destruct (split_frontmatter_found _ _ Hre) as (blk & Hblk & Heq & _).
        by exists blk, rest.
      * unfold split_frontmatter. by rewrite Hre.
  - intros ->.
    set (old := u "---" ++ _).
    assert (split_frontmatter old
            = (u "---" ++ [nl] ++ u "title: x" ++ [nl] ++ u "---" ++ [nl; nl],
               u "body" ++ [nl] ++ u "---" ++ [nl] ++ u "more" ++ [nl]
               ++ u "---" ++ [nl])) as -> by (by vm_compute).
    done.
  - by intros ->.
  - destruct (fs !! path) as [c|]; [by destruct (split_frontmatter c) | done].
  - intros other Hne.
    destruct (fs !! path) as [c|]; [destruct (split_frontmatter c)|];
      simpl; by rewrite lookup_insert_ne.
Qed.

End LeadingBlock.

(** * The body the footer handling keeps *)

Section FooterBody.
Context {U : UnicodeData}.

Lemma last_snoc_app (pre a : pystr) c : last (pre ++ c :: a) = last ((pre ++ [c]) ++ a).
Proof. by rewrite <- app_assoc. Qed.

(** The search, with the character before each place it tries. *)
Lemma search_at r : forall s pre sk rest,
  search r false (last pre) s = Some (sk, rest) ->
  exists mid,
    s = sk ++ mid /\
    run r (accept false mid) (last (pre ++ sk)) mid = Some rest /\
    forall a b, sk = a ++ b -> b <> [] ->
      run r (accept false (b ++ mid)) (last (pre ++ a)) (b ++ mid) = None.
Proof.
  induction s as [|c s IH]; intros pre sk rest Hs; simpl in Hs.
  - destruct (run r (accept false []) (last pre) []) eqn:Hr; [|done].
    inversion Hs; subst. exists []. rewrite !app_nil_r. split; [done|]. split; [done|].
    intros a b Hab Hb. destruct a; [|done]. destruct b; done.
  - destruct (run r (accept false (c :: s)) (last pre) (c :: s)) eqn:Hr.
    + inversion Hs; subst. exists (c :: s). rewrite !app_nil_r.
      split; [done|]. split; [done|].
      intros a b Hab Hb. destruct a; [|done]. destruct b; done.
    + destruct (search r false (Some c) s) as [[sk' rest']|] eqn:Hs'; [|done].
      inversion Hs; subst.
      rewrite <- (last_snoc c pre) in Hs'.
      destruct (IH _ _ _ Hs') as (mid & -> & Hrun & Hno).
      exists mid. split; [done|]. rewrite <- app_assoc in Hrun. split; [done|].
      intros a b Hab Hb. destruct a as [|a0 a].
      * simpl in Hab. subst b. by rewrite app_nil_r.
      * inversion Hab; subst. rewrite last_snoc_app. by apply Hno.
Qed.

Lemma search_none_at r : forall s pre,
  search r false (last pre) s = None ->
  forall a b, s = a ++ b -> run r (accept false b) (last (pre ++ a)) b = None.
Proof.
  induction s as [|c s IH]; intros pre Hs a b Hab; simpl in Hs.
  - destruct a, b; try done. rewrite app_nil_r.
    by destruct (run r (accept false []) (last pre) []).
  - destruct (run r (accept false (c :: s)) (last pre) (c :: s)) eqn:Hr; [done|].
    destruct (search r false (Some c) s) as [[sk' rest']|] eqn:Hs'; [done|].
    destruct a as [|a0 a].
    + simpl in Hab. subst b. by rewrite app_nil_r.
    + inversion Hab; subst. rewrite last_snoc_app.
      apply IH; [|done]. by rewrite last_snoc.
Qed.

Lemma run_none_no_match r p s p' s' :
  run r (accept false s) p s = None -> ~ matches r p s p' s'.
Proof.
  intros Hrun Hm.
  assert (is_Some (run r (accept false s) p s)) as [x Hx]
    by (eapply run_complete; [exact Hm | by eexists]).
  congruence.
Qed.

(** The substitution keeps the text before the leftmost place from which
    the removal pattern matches, and all of it when there is none. *)
Lemma removal_sub_at s :
  exists kept removed,
    removed_footer s kept removed /\ re_sub EU_BLOCK_REMOVE_RE [] s = kept.
Proof.
  unfold re_sub.
  replace (2 * length s + 2)%nat with (S (S (2 * length s))) by lia.
  cbn [sub_loop]. change None with (last (@nil N)).
  destruct (search EU_BLOCK_REMOVE_RE false (last []) s) as [[sk rest]|] eqn:Hs.
  - destruct (search_at _ _ _ _ _ Hs) as (mid & -> & Hrun & Hno).
    apply run_sound in Hrun as (p' & s' & Hm & Hacc).
    pose proof (removal_matches_to_end _ _ _ _ Hm) as ->.
    unfold accept in Hacc. simpl in Hacc. inversion Hacc; subst rest.
    exists sk, mid. split.
    + split; [done|]. right. split; [by exists p'|].
      intros a t p'' Hab Ht. apply run_none_no_match. by apply (Hno a t).
    + rewrite search_removal_nil. simpl. by rewrite app_nil_r.
  - exists s, []. split; [|done]. split; [by rewrite app_nil_r|]. left.
    split; [done|]. intros a t p' Hab. apply run_none_no_match.
    by apply (search_none_at _ _ [] Hs a t).
Qed.

Lemma removed_footer_unique s k r k' r' :
  removed_footer s k r -> removed_footer s k' r' -> k = k' /\ r = r'.
Proof.
  assert (forall k r k' r',
            removed_footer s k r -> removed_footer s k' r' ->
            (length k <= length k')%nat -> k = k' /\ r = r') as Hle.
  { clear. intros k r k' r' [Hs H] [Hs' H'] Hlen.
    assert (exists t, k' = k ++ t /\ r = t ++ r') as (t & -> & ->).
    { rewrite Hs in Hs'. apply app_eq_app in Hs' as [l [[H1 H2]|[H1 H2]]].
      - assert (l = []) as ->.
        { destruct l; [done|]. rewrite H1, length_app in Hlen. simpl in Hlen. lia. }
        exists []. rewrite app_nil_r in H1. simpl in H2. subst.
        by rewrite app_nil_r.
      - by exists l. }
    destruct (decide (t = [])) as [->|Ht]; [by rewrite app_nil_r|].
    exfalso. destruct H' as [[-> Hno]|[_ Hno]].
    - destruct H as [[Hr _]|[[p' Hm] _]].
      + by destruct t.
      + apply (Hno k (t ++ []) p'); [by rewrite app_nil_r in Hs |- * |done].
    - destruct H as [[Hr _]|[[p' Hm] _]].
      + by destruct t.
      + by apply (Hno k t p'). }
  intros H H'. destruct (decide (length k <= length k')%nat) as [Hl|Hl].
  - by apply Hle.
  - destruct (Hle k' r' k r H' H) as [-> ->]; [lia|done].
Qed.

Lemma marker_footer_variant :
  footer_variant (u "<!--eu_funding_footer-->" ++ [nl] ++ u "an older footer").
Proof.
  split; [by vm_compute|]. split; [by vm_compute|]. intros p.
  set (F := u _ ++ _).
  assert (run EU_BLOCK_REMOVE_RE (fun _ s => Some s) p F = Some []) as Hrun
    by (by vm_compute).
  apply run_sound in Hrun as (p' & s' & Hm & Hs). inversion Hs; subst s'.
  by exists p'.
Qed.

Lemma div_footer_variant :
  footer_variant (u "<DIV class='eu'><img src='/assets/EU-funded.jpg'></div>").
Proof.
  split; [by vm_compute|]. split; [by vm_compute|]. intros p.
  set (F := u _).
  assert (run EU_BLOCK_REMOVE_RE (fun _ s => Some s) p F = Some []) as Hrun
    by (by vm_compute).
  apply run_sound in Hrun as (p' & s' & Hm & Hs). inversion Hs; subst s'.
  by exists p'.
Qed.

(** C3: whatever the body, the normalized text is a body, exactly two
    line breaks and the footer block, and the footer marker and the block
    stand in it at one place only, the start of that block.  The body is
    the input without the white space at its end, cut at the leftmost
    place from which the removal pattern matches through to the end (not
    cut when there is none), and again without white space at its end;
    there is one such cut only.  So a body in which no footer opening
    starts is kept whole, with or without an earlier footer after it, in
    any of the variants: the marker, the old table, the older div, with
    or without a rule before it, and with several footers one after the
    other. *)
Theorem ensure_eu_block_exactly_once (b : pystr) :
  (exists kept removed,
     removed_footer (rstrip b) kept removed /\
     ensure_eu_block_at_end b = rstrip kept ++ [nl; nl] ++ EU_FUNDING_BLOCK /\
     rstrip kept `prefix_of` b /\
     right_trimmed (rstrip kept) /\
     (forall i, occurs_at EU_BLOCK_MARKER (ensure_eu_block_at_end b) i
                <-> i = (length (rstrip kept) + 2)%nat) /\
     (forall i, occurs_at EU_FUNDING_BLOCK (ensure_eu_block_at_end b) i
                <-> i = (length (rstrip kept) + 2)%nat)) /\
  (forall k r k' r',
     removed_footer (rstrip b) k r -> removed_footer (rstrip b) k' r' ->
     k = k' /\ r = r') /\
  (forall X w2,
     b = X ++ w2 -> tag_free X -> right_trimmed X -> all_space w2 ->
     ensure_eu_block_at_end b = X ++ [nl; nl] ++ EU_FUNDING_BLOCK) /\
  (forall X w F w2,
     b = X ++ w ++ F ++ w2 ->
     tag_free X -> right_trimmed X -> ~ ends_with_rule X ->
     all_space w -> footer_variant F -> all_space w2 ->
     ensure_eu_block_at_end b = X ++ [nl; nl] ++ EU_FUNDING_BLOCK) /\
  footer_variant (rstrip EU_FUNDING_BLOCK) /\
  footer_variant (u "<!--eu_funding_footer-->" ++ [nl] ++ u "an older footer") /\
  footer_variant (u "<table><tr><td><img src='eu-funded.jpg'></td></tr></table>") /\
  footer_variant (u "<DIV class='eu'><img src='/assets/EU-funded.jpg'></div>") /\
  ensure_eu_block_at_end
    (u "# Page" ++ [nl; nl] ++ u "---" ++ [nl] ++ u "<!-- EU_FUNDING_FOOTER -->"
     ++ [nl] ++ u "an older footer" ++ [nl])
  = u "# Page" ++ [nl; nl] ++ EU_FUNDING_BLOCK /\
  ensure_eu_block_at_end
    (u "# Page" ++ [nl] ++ u "<hr class='x'>" ++ [nl]
     ++ u "<table><tr><td><img src='eu-funded.jpg'></td></tr></table>")
  = u "# Page" ++ [nl; nl] ++ EU_FUNDING_BLOCK /\
  ensure_eu_block_at_end
    (u "# Page" ++ [nl; nl]
     ++ u "<div class='eu'><img src='eu-funded.jpg'></div>" ++ [nl; nl]
     ++ EU_FUNDING_BLOCK ++ [nl] ++ EU_FUNDING_BLOCK)
  = u "# Page" ++ [nl; nl] ++ EU_FUNDING_BLOCK.
Proof.
  split; [|split; [|split; [|split]]].
  - destruct (removal_sub_at (rstrip b)) as (kept & removed & Hrem & Hsub).
    exists kept, removed. split; [done|].
    rewrite ensure_eu_block_at_end_eq.
    pose proof (normalized_body_once b) as Honce. cbv zeta in Honce.
    pose proof (normalized_body_prefix b) as Hpre.
    rewrite Hsub in Honce, Hpre |- *.
    split; [done|]. split; [done|]. split; [apply rstrip_by_last|]. exact Honce.
  - apply removed_footer_unique.
  - intros X w2 -> HX Htrim Hw2. by apply ensure_keeps_tag_free.
  - intros X w F w2 -> HX Htrim Hrule Hw HF Hw2.
    rewrite ensure_eu_block_at_end_eq.
    assert (rstrip (X ++ w ++ F ++ w2) = X ++ w ++ F) as ->.
    { destruct HF as (Hhead & HFt & _).
      rewrite !app_assoc. unfold rstrip. rewrite rstrip_by_app_space by done.
      rewrite <- !app_assoc, (app_assoc X w F). fold (rstrip ((X ++ w) ++ F)).
      rewrite rstrip_app_keep; rewrite HFt; [done|].
      by destruct F. }
    by rewrite removal_at_footer.
  - split; [apply canonical_footer_variant|].
    split; [apply marker_footer_variant|].
    split; [apply legacy_table_footer_variant|].
    split; [apply div_footer_variant|].
    repeat split; by vm_compute.
Qed.

End FooterBody.
